(** * Session engine and edit pipeline of the lovable-ui workspace

    A shallow embedding of
    - [app/api/sandbox/[sandboxId]/edit/route.ts]  (path normalizer, diff
      engine, edit normalizer, preview/apply orchestration),
    - [lib/client/sse.ts]                          (SSE frame decoder),
    - [hooks/useGenerationSession.ts]              (generation session),
    - [lib/client/sandbox-checkpoints.ts] and the checkpoint part of the
      generate page                                (checkpoint store),
    followed by the properties established about them.

    JavaScript strings are sequences of UTF-16 code units.  The embedding
    keeps the code units below 256 ([ascii]); every literal the sources
    mention lives in that range, and [trim]/[toLowerCase] are given their
    ECMAScript meaning on it. *)

From Stdlib Require Import ZArith Ascii String List DecimalString Sorted.
From Stdlib Require DecimalPos DecimalZ.
From stdpp Require Import gmap strings list.

(** ** Part I: the embedding *)

(** *** JavaScript strings and arrays *)

Abbreviation jsstring := (list ascii).

Definition str (s : string) : jsstring := list_ascii_of_string s.

Definition LF : ascii := "010"%char.
Definition CR : ascii := "013"%char.
Definition NUL : ascii := "000"%char.
Definition SLASH : ascii := "/"%char.
Definition BACKSLASH : ascii := "\"%char.
Definition DOT : ascii := "."%char.

(** [Array.prototype.slice] / [String.prototype.slice]: a negative index
    counts from the end, and both ends are clamped to the length. *)
Definition rel_index (len i : Z) : Z :=
  if (i <? 0)%Z then Z.max (len + i) 0 else Z.min i len.

Definition slice {A} (l : list A) (a b : Z) : list A :=
  let len := Z.of_nat (length l) in
  let from := rel_index len a in
  let to := rel_index len b in
  take (Z.to_nat (to - from)) (drop (Z.to_nat from) l).

Definition slice_from {A} (l : list A) (a : Z) : list A :=
  slice l a (Z.of_nat (length l)).

(** [arr[i]]: [None] stands for [undefined]. *)
Definition item {A} (l : list A) (i : Z) : option A :=
  if (i <? 0)%Z then None else l !! Z.to_nat i.

Fixpoint startsWith (s p : jsstring) : bool :=
  match p, s with
  | [], _ => true
  | _ :: _, [] => false
  | c :: p', d :: s' => Ascii.eqb c d && startsWith s' p'
  end.

Fixpoint indexOf_from (s sub : jsstring) (i : Z) : Z :=
  if startsWith s sub then i
  else match s with
       | [] => (-1)%Z
       | _ :: s' => indexOf_from s' sub (i + 1)%Z
       end.

Definition indexOf (s sub : jsstring) : Z := indexOf_from s sub 0.

Definition includes (s sub : jsstring) : bool :=
  negb (indexOf s sub =? -1)%Z.

(** [s.replace(/\r\n/g, "\n")] *)
Fixpoint replace_crlf (s : jsstring) : jsstring :=
  match s with
  | [] => []
  | c :: s' =>
      match s' with
      | d :: s'' =>
          if Ascii.eqb c CR && Ascii.eqb d LF then LF :: replace_crlf s''
          else c :: replace_crlf s'
      | [] => [c]
      end
  end.

(** [s.replace(/\\/g, "/")] *)
Definition replace_backslashes (s : jsstring) : jsstring :=
  map (fun c => if Ascii.eqb c BACKSLASH then SLASH else c) s.

(** ECMAScript WhiteSpace and LineTerminator code units below 256:
    TAB, LF, VT, FF, CR, SP and NBSP. *)
Definition isWhiteSpace (c : ascii) : bool :=
  let n := nat_of_ascii c in
  (Nat.leb 9 n && Nat.leb n 13) || Nat.eqb n 32 || Nat.eqb n 160.

Fixpoint trimStart (s : jsstring) : jsstring :=
  match s with
  | c :: s' => if isWhiteSpace c then trimStart s' else s
  | [] => []
  end.

Definition trimEnd (s : jsstring) : jsstring := rev (trimStart (rev s)).

Definition trim (s : jsstring) : jsstring := trimEnd (trimStart s).

(** [s.split(sep)] for a one-character separator; never empty. *)
Fixpoint split_on (sep : ascii) (s : jsstring) : list jsstring :=
  match s with
  | [] => [[]]
  | c :: s' =>
      if Ascii.eqb c sep then [] :: split_on sep s'
      else match split_on sep s' with
           | cur :: rest => (c :: cur) :: rest
           | [] => [[c]]
           end
  end.

(** [parts.join(sep)] *)
Fixpoint join (sep : jsstring) (parts : list jsstring) : jsstring :=
  match parts with
  | [] => []
  | [p] => p
  | p :: rest => p ++ sep ++ join sep rest
  end.

(** [String.prototype.toLowerCase] on code units below 256: A-Z and the
    Latin-1 capitals U+00C0..U+00DE (without U+00D7) move up by 32. *)
Definition lowerChar (c : ascii) : ascii :=
  let n := nat_of_ascii c in
  if (Nat.leb 65 n && Nat.leb n 90)
     || (Nat.leb 192 n && Nat.leb n 222 && negb (Nat.eqb n 215))
  then ascii_of_nat (n + 32) else c.

Definition toLowerCase (s : jsstring) : jsstring := map lowerChar s.

(** Template-literal rendering of an integer. *)
Definition showZ (z : Z) : jsstring := str (NilZero.string_of_int (Z.to_int z)).

(** [Boolean(s)] for a string: the empty string is falsy. *)
Definition truthy (s : jsstring) : bool :=
  match s with [] => false | _ => true end.

(** A [while (cond) body] loop, unrolled at most [fuel] times. *)
Fixpoint while {S} (fuel : nat) (cond : S -> bool) (body : S -> S) (s : S) : S :=
  match fuel with
  | O => s
  | Datatypes.S fuel' => if cond s then while fuel' cond body (body s) else s
  end.

(** *** Diff engine (route.ts, lines 128-226) *)

Module Diff.

Definition DIFF_CONTEXT_LINES : Z := 3.
Definition MAX_DIFF_LINES : Z := 220.

Record DiffInfo := mkDiffInfo {
  changed : bool;
  additions : Z;
  deletions : Z;
  diff : jsstring
}.

Definition normalizeLineEndings (value : jsstring) : jsstring :=
  replace_crlf value.

Definition len {A} (l : list A) : Z := Z.of_nat (length l).

(** [Math.floor(MAX_DIFF_LINES * 0.6)]: the double product 220 * 0.6 rounds
    to exactly 132. *)
Definition keepStart : Z := (MAX_DIFF_LINES * 6 / 10)%Z.
Definition keepEnd : Z := (MAX_DIFF_LINES - keepStart - 1)%Z.

Definition trimDiffLines (lines : list jsstring) : list jsstring :=
  if (len lines <=? MAX_DIFF_LINES)%Z then lines
  else slice lines 0 keepStart
         ++ [str "... diff truncated ..."]
         ++ slice_from lines (Z.max (len lines - keepEnd) keepStart).

(** First loop of [createUnifiedDiff]: advance [start] over the common
    prefix. *)
Definition prefix_cond (beforeLines afterLines : list jsstring) (start : Z) : bool :=
  (start <? len beforeLines)%Z && (start <? len afterLines)%Z
  && bool_decide (item beforeLines start = item afterLines start).

Definition scan_prefix (beforeLines afterLines : list jsstring) : Z :=
  while (length beforeLines) (prefix_cond beforeLines afterLines) Z.succ 0%Z.

(** Second loop: move [beforeEnd] and [afterEnd] back over the common
    suffix, never below [start]. *)
Definition suffix_cond (beforeLines afterLines : list jsstring) (start : Z)
    (ends : Z * Z) : bool :=
  (start <=? ends.1)%Z && (start <=? ends.2)%Z
  && bool_decide (item beforeLines ends.1 = item afterLines ends.2).

Definition scan_suffix (beforeLines afterLines : list jsstring) (start : Z) : Z * Z :=
  while (length beforeLines) (suffix_cond beforeLines afterLines start)
    (fun ends => (ends.1 - 1, ends.2 - 1)%Z)
    (len beforeLines - 1, len afterLines - 1)%Z.

Definition removedLines (beforeLines : list jsstring) (start beforeEnd : Z) : list jsstring :=
  if (start <=? beforeEnd)%Z then slice beforeLines start (beforeEnd + 1) else [].

Definition addedLines (afterLines : list jsstring) (start afterEnd : Z) : list jsstring :=
  if (start <=? afterEnd)%Z then slice afterLines start (afterEnd + 1) else [].

Definition createUnifiedDiff (filePath previousContent nextContent : jsstring) : DiffInfo :=
  let beforeLines := split_on LF (normalizeLineEndings previousContent) in
  let afterLines := split_on LF (normalizeLineEndings nextContent) in
  if bool_decide (previousContent = nextContent) then
    {| changed := false;
       additions := 0;
       deletions := 0;
       diff := str "--- a/" ++ filePath ++ [LF] ++ str "+++ b/" ++ filePath
               ++ [LF] ++ str "(No changes)" |}
  else
    let start := scan_prefix beforeLines afterLines in
    let '(beforeEnd, afterEnd) := scan_suffix beforeLines afterLines start in
    let removed := removedLines beforeLines start beforeEnd in
    let added := addedLines afterLines start afterEnd in
    let preStart := Z.max 0 (start - DIFF_CONTEXT_LINES) in
    let preContext := slice beforeLines preStart start in
    let postContext :=
      slice beforeLines (Z.max (beforeEnd + 1) start)
        (Z.max (beforeEnd + 1) start + DIFF_CONTEXT_LINES) in
    let hunkOldStart := (preStart + 1)%Z in
    let hunkNewStart := (preStart + 1)%Z in
    let hunkOldCount := (len preContext + len removed + len postContext)%Z in
    let hunkNewCount := (len preContext + len added + len postContext)%Z in
    let diffLines :=
      [ str "--- a/" ++ filePath;
        str "+++ b/" ++ filePath;
        str "@@ -" ++ showZ hunkOldStart ++ str "," ++ showZ hunkOldCount
          ++ str " +" ++ showZ hunkNewStart ++ str "," ++ showZ hunkNewCount
          ++ str " @@" ]
      ++ map (fun line => str " " ++ line) preContext
      ++ map (fun line => str "-" ++ line) removed
      ++ map (fun line => str "+" ++ line) added
      ++ map (fun line => str " " ++ line) postContext in
    {| changed := true;
       additions := len added;
       deletions := len removed;
       diff := join [LF] (trimDiffLines diffLines) |}.

Definition createDeletedFileDiff (filePath previousContent : jsstring) : DiffInfo :=
  let beforeLines := split_on LF (normalizeLineEndings previousContent) in
  let diffLines :=
    [ str "--- a/" ++ filePath;
      str "+++ /dev/null";
      str "@@ -1," ++ showZ (len beforeLines) ++ str " +0,0 @@" ]
    ++ map (fun line => str "-" ++ line) beforeLines in
  {| changed := true;
     additions := 0;
     deletions := len beforeLines;
     diff := join [LF] (trimDiffLines diffLines) |}.

End Diff.


(** *** Exceptions *)

(** A computation that returns a value or throws an [Error] carrying a
    message. *)
Inductive Exn (A : Type) : Type :=
| Ok (a : A)
| Throw (message : jsstring).
Arguments Ok {A} a.
Arguments Throw {A} message.

(** *** POSIX paths (Node's [path.posix]) *)

Module PosixPath.

(** [normalizeString]: the segments between separators are visited left to
    right; empty segments and [.] are skipped, [..] removes the last kept
    segment unless there is none or it is itself [..], in which case [..]
    is kept when [allowAboveRoot].  [res] holds the kept segments, last
    one first. *)
Fixpoint normalizeString (allowAboveRoot : bool) (segs res : list jsstring) : list jsstring :=
  match segs with
  | [] => rev res
  | seg :: segs' =>
      if bool_decide (seg = []) || bool_decide (seg = str ".") then
        normalizeString allowAboveRoot segs' res
      else if bool_decide (seg = str "..") then
        match res with
        | top :: res' =>
            if bool_decide (top = str "..") then
              normalizeString allowAboveRoot segs'
                (if allowAboveRoot then str ".." :: res else res)
            else normalizeString allowAboveRoot segs' res'
        | [] =>
            normalizeString allowAboveRoot segs'
              (if allowAboveRoot then [str ".."] else [])
        end
      else normalizeString allowAboveRoot segs' (seg :: res)
  end.

Definition normalize (path : jsstring) : jsstring :=
  match path with
  | [] => str "."
  | _ =>
      let isAbsolute := startsWith path [SLASH] in
      let trailingSeparator := bool_decide (last path = Some SLASH) in
      let res := join [SLASH] (normalizeString (negb isAbsolute) (split_on SLASH path) []) in
      match res with
      | [] =>
          if isAbsolute then [SLASH]
          else if trailingSeparator then str "./" else str "."
      | _ =>
          let res' := if trailingSeparator then res ++ [SLASH] else res in
          if isAbsolute then SLASH :: res' else res'
      end
  end.

(** [path.posix.join(a, b)]: the non-empty arguments joined by a slash,
    then normalized. *)
Definition join2 (a b : jsstring) : jsstring :=
  match a, b with
  | [], [] => str "."
  | [], _ => normalize b
  | _, [] => normalize a
  | _, _ => normalize (a ++ [SLASH] ++ b)
  end.

End PosixPath.

(** *** Path normalizer (route.ts, lines 63-98) *)

(** [s.replace(/^\.\/+/, "")] *)
Fixpoint dropSlashes (s : jsstring) : jsstring :=
  match s with
  | c :: s' => if Ascii.eqb c SLASH then dropSlashes s' else s
  | [] => []
  end.

Definition stripDotSlashes (s : jsstring) : jsstring :=
  match s with
  | c :: d :: s' =>
      if Ascii.eqb c DOT && Ascii.eqb d SLASH then dropSlashes s' else s
  | _ => s
  end.

(** The argument is a string here, so the [typeof input !== "string"]
    guard of the source never fires. *)
Definition normalizeRelativeSandboxPath (input : jsstring) : Exn jsstring :=
  if includes input [NUL] then Throw (str "Path contains invalid characters")
  else
    let normalizedInput := trim (replace_backslashes input) in
    if negb (truthy normalizedInput) then Ok []
    else if startsWith normalizedInput [SLASH] then
      Throw (str "Absolute paths are not allowed")
    else
      let normalized := stripDotSlashes (PosixPath.normalize normalizedInput) in
      if bool_decide (normalized = str "..") || startsWith normalized (str "../")
      then Throw (str "Path traversal is not allowed")
      else Ok (if bool_decide (normalized = str ".") then [] else normalized).

Definition resolveProjectPath (projectDir relativePath : jsstring) : Exn jsstring :=
  let root := PosixPath.normalize projectDir in
  let fullPath :=
    if truthy relativePath
    then PosixPath.normalize (PosixPath.join2 root relativePath)
    else root in
  if negb (bool_decide (fullPath = root)) && negb (startsWith fullPath (root ++ [SLASH]))
  then Throw (str "Resolved path is outside project root")
  else Ok fullPath.

(** *** Edit proposal normalizer (route.ts, lines 228-266) *)

Definition MAX_APPLY_EDITS : Z := 20.

(** A property of a candidate as the code inspects it: absent, a string,
    the boolean [true], or any other value. *)
Inductive JsField :=
| FUndefined
| FString (s : jsstring)
| FTrue
| FOther.

(** An element of the candidate array.  Reading a property of [null] or
    [undefined] throws a [TypeError]; every other value answers each of
    the three property reads with some [JsField]. *)
Inductive Candidate :=
| CNullish
| CValue (path content delete : JsField).

Inductive NormalizedEdit :=
| DeleteEdit (path : jsstring)
| ContentEdit (path content : jsstring).

Definition editPath (e : NormalizedEdit) : jsstring :=
  match e with
  | DeleteEdit p => p
  | ContentEdit p _ => p
  end.

Fixpoint normalizeLoop (candidateEdits : list Candidate)
    (normalizedEdits : list NormalizedEdit) (seenPaths : gset jsstring)
    : Exn (list NormalizedEdit) :=
  match candidateEdits with
  | [] => Ok normalizedEdits
  | edit :: rest =>
      if (MAX_APPLY_EDITS <=? Z.of_nat (length normalizedEdits))%Z then Ok normalizedEdits
      else
        match edit with
        | CNullish => Throw (str "Cannot read properties of null (reading 'path')")
        | CValue path content delete =>
            let rawPath := match path with FString s => s | _ => [] end in
            let hasStringContent := match content with FString _ => true | _ => false end in
            let isDelete := match delete with FTrue => true | _ => false end in
            if negb (truthy rawPath) || (negb hasStringContent && negb isDelete)
            then normalizeLoop rest normalizedEdits seenPaths
            else
              match normalizeRelativeSandboxPath rawPath with
              | Throw _ => normalizeLoop rest normalizedEdits seenPaths
              | Ok normalizedPath =>
                  if negb (truthy normalizedPath) || bool_decide (normalizedPath ∈ seenPaths)
                  then normalizeLoop rest normalizedEdits seenPaths
                  else
                    let seenPaths' := {[normalizedPath]} ∪ seenPaths in
                    if isDelete then
                      normalizeLoop rest
                        (normalizedEdits ++ [DeleteEdit normalizedPath]) seenPaths'
                    else
                      normalizeLoop rest
                        (normalizedEdits ++
                           [ContentEdit normalizedPath
                              (match content with FString s => s | _ => [] end)])
                        seenPaths'
              end
        end
  end.

Definition normalizeCandidateEdits (candidateEdits : list Candidate)
    : Exn (list NormalizedEdit) :=
  normalizeLoop candidateEdits [] ∅.

(** *** SSE frame decoder (lib/client/sse.ts) *)

Module Sse.

Record SseParserState := mkSseParserState { buffer : jsstring }.

Definition createSseParserState : SseParserState := {| buffer := [] |}.

Definition normalizeChunk (chunk : jsstring) : jsstring := replace_crlf chunk.

Definition DELIMITER : jsstring := [LF; LF].

(** The [data:] lines of one raw event, each without its prefix and
    leading white space. *)
Definition dataLinesOf (rawEvent : jsstring) : list jsstring :=
  map (fun line => trimStart (slice_from line 5))
    (filter (fun line => startsWith line (str "data:") = true) (split_on LF rawEvent)).

(** One iteration of the [while (true)] loop of [consumeSseDataFrames];
    the loop state is the buffer and the frames collected so far. *)
Definition hasDelimiter (st : jsstring * list jsstring) : bool :=
  negb (indexOf st.1 DELIMITER =? -1)%Z.

Definition extractFrame (st : jsstring * list jsstring) : jsstring * list jsstring :=
  let delimiterIndex := indexOf st.1 DELIMITER in
  let rawEvent := slice st.1 0 delimiterIndex in
  let buffer' := slice_from st.1 (delimiterIndex + 2) in
  let dataLines := dataLinesOf rawEvent in
  (buffer', if (0 <? Z.of_nat (length dataLines))%Z
            then st.2 ++ [join [LF] dataLines] else st.2).

(** Every iteration removes at least two characters from the buffer, so
    its length bounds the number of iterations. *)
Definition consumeSseDataFrames (state : SseParserState) (chunk : jsstring)
    : SseParserState * list jsstring :=
  let buffer0 := buffer state ++ normalizeChunk chunk in
  let st := while (length buffer0) hasDelimiter extractFrame (buffer0, []) in
  ({| buffer := st.1 |}, st.2).

Definition flushSseDataFrames (state : SseParserState)
    : SseParserState * list jsstring :=
  if negb (truthy (trim (buffer state))) then ({| buffer := [] |}, [])
  else
    let dataLines := dataLinesOf (buffer state) in
    ({| buffer := [] |},
     if (0 <? Z.of_nat (length dataLines))%Z then [join [LF] dataLines] else []).

(** Feeding a list of chunks in order, then flushing. *)
Fixpoint feedAll (state : SseParserState) (chunks : list jsstring)
    : SseParserState * list jsstring :=
  match chunks with
  | [] => (state, [])
  | chunk :: rest =>
      let '(state1, frames1) := consumeSseDataFrames state chunk in
      let '(state2, frames2) := feedAll state1 rest in
      (state2, frames1 ++ frames2)
  end.

Definition decode (chunks : list jsstring) : list jsstring :=
  let '(state, frames) := feedAll createSseParserState chunks in
  frames ++ (flushSseDataFrames state).2.

End Sse.

(** *** Generation session (hooks/useGenerationSession.ts) *)

Module Lifecycle.
Inductive t :=
| idle | requesting | streaming | provisioning_preview | ready | failed | canceled.
#[global] Instance lifecycle_eq_dec : EqDecision t.
Proof. solve_decision. Defined.
End Lifecycle.

Module Stage.
Inductive t :=
| queued | creating_sandbox | generating_code | installing_deps
| starting_preview | ready.
#[global] Instance stage_eq_dec : EqDecision t.
Proof. solve_decision. Defined.

(** Position in the fixed ordering
    queued < creating_sandbox < generating_code < installing_deps
           < starting_preview < ready. *)
Definition index (s : t) : nat :=
  match s with
  | queued => 0
  | creating_sandbox => 1
  | generating_code => 2
  | installing_deps => 3
  | starting_preview => 4
  | ready => 5
  end.

Definition le (a b : t) : Prop := index a <= index b.
End Stage.

Module Session.

(** The fields of a parsed event the hook looks at.  [type] is [None] when
    the parsed value has no string [type]; the payload fields a message
    only carries along ([name], [input], [result]) are kept as [content]. *)
Record RawGenerationEvent := mkEvent {
  type : option jsstring;
  content : option jsstring;
  message : option jsstring;
  ev_previewUrl : option jsstring;
  ev_sandboxId : option jsstring
}.

(** [createdAt] (the wall clock) is left out. *)
Record GenerationMessage := mkMessage {
  event : RawGenerationEvent;
  id : jsstring
}.

Record GenerationSessionState := mkState {
  messages : list GenerationMessage;
  previewUrl : option jsstring;
  sandboxId : option jsstring;
  lifecycle : Lifecycle.t;
  stage : Stage.t;
  error : option jsstring;
  lastProgress : option jsstring;
  parseWarnings : Z
}.

Definition INITIAL_STATE : GenerationSessionState :=
  {| messages := [];
     previewUrl := None;
     sandboxId := None;
     lifecycle := Lifecycle.idle;
     stage := Stage.queued;
     error := None;
     lastProgress := None;
     parseWarnings := 0 |}.

(** [Boolean(v)] and [a || b] for an optional string: [null], [undefined]
    and the empty string are falsy. *)
Definition truthyOpt (v : option jsstring) : bool :=
  match v with
  | Some s => truthy s
  | None => false
  end.

Definition orElse (a b : option jsstring) : option jsstring :=
  if truthyOpt a then a else b.

Definition inferStageFromProgress (message : jsstring) (current : Stage.t) : Stage.t :=
  let text := toLowerCase message in
  if includes text (str "creating new daytona sandbox")
     || includes text (str "using existing sandbox")
     || includes text (str "sandbox created")
     || includes text (str "connected to sandbox")
  then Stage.creating_sandbox
  else if includes text (str "running vercel ai gateway generation")
     || includes text (str "parsing generated code")
     || includes text (str "writing")
     || includes text (str "generation output")
  then Stage.generating_code
  else if includes text (str "installing project dependencies")
     || includes text (str "dependencies installed")
     || includes text (str "npm install")
  then Stage.installing_deps
  else if includes text (str "starting development server")
     || includes text (str "waiting for server to start")
     || includes text (str "getting preview url")
     || includes text (str "preview url:")
  then Stage.starting_preview
  else current.

Definition createMessageId (counter : Z) : jsstring :=
  str "gen-msg-" ++ showZ counter.

(** The hook instance: the React state and the five refs.  An
    [AbortController] is a number; [aborted] holds the controllers whose
    [abort()] has been called, and [nextController] names the next one
    [new AbortController()] returns. *)
Record Hook := mkHook {
  state : GenerationSessionState;
  abortControllerRef : option nat;
  latestPromptRef : jsstring;
  parserStateRef : Sse.SseParserState;
  messageCounterRef : Z;
  requestIdRef : Z;
  aborted : gset nat;
  nextController : nat
}.

Definition initialHook : Hook :=
  {| state := INITIAL_STATE;
     abortControllerRef := None;
     latestPromptRef := [];
     parserStateRef := Sse.createSseParserState;
     messageCounterRef := 0;
     requestIdRef := 0;
     aborted := ∅;
     nextController := 0 |}.

(** [setState(f)] *)
Definition setState (f : GenerationSessionState -> GenerationSessionState)
    (h : Hook) : Hook :=
  {| state := f (state h);
     abortControllerRef := abortControllerRef h;
     latestPromptRef := latestPromptRef h;
     parserStateRef := parserStateRef h;
     messageCounterRef := messageCounterRef h;
     requestIdRef := requestIdRef h;
     aborted := aborted h;
     nextController := nextController h |}.

Definition setAbortControllerRef (c : option nat) (h : Hook) : Hook :=
  {| state := state h;
     abortControllerRef := c;
     latestPromptRef := latestPromptRef h;
     parserStateRef := parserStateRef h;
     messageCounterRef := messageCounterRef h;
     requestIdRef := requestIdRef h;
     aborted := aborted h;
     nextController := nextController h |}.

Definition setParserStateRef (p : Sse.SseParserState) (h : Hook) : Hook :=
  {| state := state h;
     abortControllerRef := abortControllerRef h;
     latestPromptRef := latestPromptRef h;
     parserStateRef := p;
     messageCounterRef := messageCounterRef h;
     requestIdRef := requestIdRef h;
     aborted := aborted h;
     nextController := nextController h |}.

(** [controller.abort()] *)
Definition abort (c : nat) (h : Hook) : Hook :=
  {| state := state h;
     abortControllerRef := abortControllerRef h;
     latestPromptRef := latestPromptRef h;
     parserStateRef := parserStateRef h;
     messageCounterRef := messageCounterRef h;
     requestIdRef := requestIdRef h;
     aborted := {[c]} ∪ aborted h;
     nextController := nextController h |}.

Definition withLifecycle (l : Lifecycle.t) (s : GenerationSessionState)
    : GenerationSessionState :=
  {| messages := messages s; previewUrl := previewUrl s; sandboxId := sandboxId s;
     lifecycle := l; stage := stage s; error := error s;
     lastProgress := lastProgress s; parseWarnings := parseWarnings s |}.

Definition appendMessage (message : RawGenerationEvent) (h : Hook) : Hook :=
  let counter := (messageCounterRef h + 1)%Z in
  let enriched := {| event := message; id := createMessageId counter |} in
  setState
    (fun prev =>
       {| messages := messages prev ++ [enriched];
          previewUrl := previewUrl prev; sandboxId := sandboxId prev;
          lifecycle := lifecycle prev; stage := stage prev; error := error prev;
          lastProgress := lastProgress prev; parseWarnings := parseWarnings prev |})
    {| state := state h;
       abortControllerRef := abortControllerRef h;
       latestPromptRef := latestPromptRef h;
       parserStateRef := parserStateRef h;
       messageCounterRef := counter;
       requestIdRef := requestIdRef h;
       aborted := aborted h;
       nextController := nextController h |}.

Definition cancel (h : Hook) : Hook :=
  match abortControllerRef h with
  | None => h
  | Some c =>
      setState (withLifecycle Lifecycle.canceled)
        (setAbortControllerRef None (abort c h))
  end.

Definition resetForRun (prompt : jsstring) (h : Hook) : Hook :=
  {| state := withLifecycle Lifecycle.requesting INITIAL_STATE;
     abortControllerRef := abortControllerRef h;
     latestPromptRef := prompt;
     parserStateRef := Sse.createSseParserState;
     messageCounterRef := messageCounterRef h;
     requestIdRef := requestIdRef h;
     aborted := aborted h;
     nextController := nextController h |}.

(** The local variables of one call of [start] that live across its
    [await]s. *)
Record Run := mkRun {
  requestId : Z;
  controller : nat;
  receivedDone : bool
}.

(** Where a call of [start] stands after a step: suspended at an [await],
    or returned. *)
Inductive Status :=
| AwaitFetch (r : Run)
| AwaitRead (r : Run)
| Returned.

(** What [JSON.parse(frame)] gives: a [SyntaxError], [null], or another
    value; [truthyValue] is [false] for [false], [0] and the empty string,
    whose property reads all give [undefined]. *)
Inductive Parsed :=
| ParseError
| PNull
| PValue (truthyValue : bool) (e : RawGenerationEvent).

(** What the awaited [fetch] settles to: a rejection, a response that is
    not [ok] (with the [error] field of its JSON body, if that can be
    read; the second [await] that reads it is folded into this step), or
    an [ok] response with or without a body reader. *)
Inductive FetchOutcome :=
| FetchRejected (message : option jsstring)
| ResponseNotOk (errorField : option jsstring)
| ResponseOk (hasBody : bool).

(** What an awaited [reader.read()] settles to. *)
Inductive ReadOutcome :=
| ReadRejected (message : option jsstring)
| ReadChunk (chunkText : jsstring)
| ReadDone.

Definition MSG_UNEXPECTED : jsstring := str "Generation failed unexpectedly".
Definition MSG_NO_PREVIEW : jsstring :=
  str "Generation finished but preview URL was not returned".
Definition MSG_ENDED_EARLY : jsstring :=
  str "Generation stream ended before preview was ready".

Section WithParser.

Variable JSON_parse : jsstring -> Parsed.

Definition failWith (errorMessage : option jsstring) (prev : GenerationSessionState)
    : GenerationSessionState :=
  {| messages := messages prev; previewUrl := previewUrl prev;
     sandboxId := sandboxId prev; lifecycle := Lifecycle.failed;
     stage := stage prev; error := errorMessage;
     lastProgress := lastProgress prev; parseWarnings := parseWarnings prev |}.

Definition onComplete (parsedEvent : RawGenerationEvent) (prev : GenerationSessionState)
    : GenerationSessionState :=
  {| messages := messages prev;
     previewUrl := orElse (ev_previewUrl parsedEvent) (previewUrl prev);
     sandboxId := orElse (ev_sandboxId parsedEvent) (sandboxId prev);
     lifecycle := Lifecycle.provisioning_preview;
     stage := Stage.starting_preview;
     error := error prev;
     lastProgress := lastProgress prev; parseWarnings := parseWarnings prev |}.

Definition onProgress (msg : jsstring) (prev : GenerationSessionState)
    : GenerationSessionState :=
  {| messages := messages prev; previewUrl := previewUrl prev;
     sandboxId := sandboxId prev; lifecycle := lifecycle prev;
     stage := inferStageFromProgress msg (stage prev);
     error := error prev;
     lastProgress := Some msg; parseWarnings := parseWarnings prev |}.

Definition countParseWarning (prev : GenerationSessionState) : GenerationSessionState :=
  {| messages := messages prev; previewUrl := previewUrl prev;
     sandboxId := sandboxId prev; lifecycle := lifecycle prev;
     stage := stage prev; error := error prev;
     lastProgress := lastProgress prev;
     parseWarnings := (parseWarnings prev + 1)%Z |}.

(** The final [setState] of [start], once the reader reported [done] and
    the trailing frames were handled. *)
Definition onStreamEnd (receivedDone : bool) (prev : GenerationSessionState)
    : GenerationSessionState :=
  if bool_decide (lifecycle prev = Lifecycle.failed)
     || bool_decide (lifecycle prev = Lifecycle.canceled)
  then prev
  else
    let hasPreview := truthyOpt (previewUrl prev) in
    {| messages := messages prev; previewUrl := previewUrl prev;
       sandboxId := sandboxId prev;
       lifecycle := if hasPreview then Lifecycle.ready else Lifecycle.failed;
       stage := if hasPreview then Stage.ready else stage prev;
       error :=
         if hasPreview then error prev
         else orElse (error prev)
                (Some (if receivedDone then MSG_NO_PREVIEW else MSG_ENDED_EARLY));
       lastProgress := lastProgress prev; parseWarnings := parseWarnings prev |}.

(** Body of [for (const frame of frames)] in the read loop.  The result
    is the hook, the [receivedDone] flag, and whether [start] returned. *)
Definition processFrame (frame : jsstring) (h : Hook) (receivedDone : bool)
    : Hook * bool * bool :=
  if bool_decide (frame = str "[DONE]") then (h, true, false)
  else
    match JSON_parse frame with
    | ParseError => (setState countParseWarning h, receivedDone, false)
    | PNull => (h, receivedDone, false)
    | PValue truthyValue parsedEvent =>
        match truthyValue, type parsedEvent with
        | true, Some ty =>
            if bool_decide (ty = str "error") then
              let errorMessage := orElse (message parsedEvent) (Some MSG_UNEXPECTED) in
              (setAbortControllerRef None
                 (appendMessage parsedEvent (setState (failWith errorMessage) h)),
               receivedDone, true)
            else if bool_decide (ty = str "complete") then
              (setState (onComplete parsedEvent) h, receivedDone, false)
            else
              let h1 :=
                if bool_decide (ty = str "progress") && truthyOpt (message parsedEvent)
                then setState (onProgress (default [] (message parsedEvent))) h
                else h in
              (appendMessage parsedEvent h1, receivedDone, false)
        | _, _ => (h, receivedDone, false)
        end
    end.

Fixpoint processFrames (frames : list jsstring) (h : Hook) (receivedDone : bool)
    : Hook * bool * bool :=
  match frames with
  | [] => (h, receivedDone, false)
  | frame :: rest =>
      let '(h1, rd1, returned) := processFrame frame h receivedDone in
      if returned then (h1, rd1, true) else processFrames rest h1 rd1
  end.

(** Body of the loop over the trailing frames; here the property reads
    sit inside the [try], so a parsed [null] ends in the [catch]. *)
Definition processTrailingFrame (frame : jsstring) (h : Hook) (receivedDone : bool)
    : Hook * bool * bool :=
  if bool_decide (frame = str "[DONE]") then (h, true, false)
  else
    match JSON_parse frame with
    | ParseError | PNull => (setState countParseWarning h, receivedDone, false)
    | PValue _ parsedEvent =>
        if bool_decide (type parsedEvent = Some (str "error")) then
          (setAbortControllerRef None
             (appendMessage parsedEvent
                (setState (failWith (orElse (message parsedEvent) (Some MSG_UNEXPECTED))) h)),
           receivedDone, true)
        else if bool_decide (type parsedEvent = Some (str "complete")) then
          (setState (onComplete parsedEvent) h, receivedDone, false)
        else (appendMessage parsedEvent h, receivedDone, false)
    end.

Fixpoint processTrailingFrames (frames : list jsstring) (h : Hook) (receivedDone : bool)
    : Hook * bool * bool :=
  match frames with
  | [] => (h, receivedDone, false)
  | frame :: rest =>
      let '(h1, rd1, returned) := processTrailingFrame frame h receivedDone in
      if returned then (h1, rd1, true) else processTrailingFrames rest h1 rd1
  end.

(** The [finally] block. *)
Definition finally (r : Run) (h : Hook) : Hook :=
  if bool_decide (abortControllerRef h = Some (controller r))
  then setAbortControllerRef None h else h.

(** The [catch] block, followed by [finally]. *)
Definition catch (r : Run) (errorMessage : option jsstring) (h : Hook) : Hook :=
  finally r
    (if bool_decide (controller r ∈ aborted h)
     then setState (withLifecycle Lifecycle.canceled) h
     else setState (failWith (orElse errorMessage (Some (str "An error occurred")))) h).

(** [start(prompt)] up to its first [await]. *)
Definition start (prompt : jsstring) (h : Hook) : Hook * Status :=
  let trimmedPrompt := trim prompt in
  if negb (truthy trimmedPrompt) then (h, Returned)
  else
    let h1 :=
      match abortControllerRef h with
      | Some c => setAbortControllerRef None (abort c h)
      | None => h
      end in
    let h2 := resetForRun trimmedPrompt h1 in
    let requestId := (requestIdRef h2 + 1)%Z in
    let controller := nextController h2 in
    ({| state := state h2;
        abortControllerRef := Some controller;
        latestPromptRef := latestPromptRef h2;
        parserStateRef := parserStateRef h2;
        messageCounterRef := messageCounterRef h2;
        requestIdRef := requestId;
        aborted := aborted h2;
        nextController := S controller |},
     AwaitFetch {| requestId := requestId; controller := controller;
                   receivedDone := false |}).

(** [start] from the point where the awaited [fetch] settles, up to the
    first [reader.read()]. *)
Definition resumeFetch (outcome : FetchOutcome) (r : Run) (h : Hook) : Hook * Status :=
  match outcome with
  | FetchRejected msg => (catch r msg h, Returned)
  | ResponseNotOk errorField =>
      if negb (bool_decide (requestId r = requestIdRef h)) then (finally r h, Returned)
      else (catch r (orElse errorField (Some (str "Failed to generate website"))) h,
            Returned)
  | ResponseOk hasBody =>
      if negb (bool_decide (requestId r = requestIdRef h)) then (finally r h, Returned)
      else if negb hasBody then (catch r (Some (str "No response body")) h, Returned)
      else
        (setState
           (fun prev =>
              {| messages := messages prev; previewUrl := previewUrl prev;
                 sandboxId := sandboxId prev; lifecycle := Lifecycle.streaming;
                 stage := Stage.queued; error := error prev;
                 lastProgress := lastProgress prev;
                 parseWarnings := parseWarnings prev |}) h,
         AwaitRead r)
  end.

(** [start] from the point where an awaited [reader.read()] settles, up to
    the next one or to the return. *)
Definition resumeRead (outcome : ReadOutcome) (r : Run) (h : Hook) : Hook * Status :=
  match outcome with
  | ReadRejected msg => (catch r msg h, Returned)
  | ReadChunk chunkText =>
      let '(parser', frames) := Sse.consumeSseDataFrames (parserStateRef h) chunkText in
      let '(h1, rd, returned) :=
        processFrames frames (setParserStateRef parser' h) (receivedDone r) in
      if returned then (finally r h1, Returned)
      else (h1, AwaitRead {| requestId := requestId r; controller := controller r;
                             receivedDone := rd |})
  | ReadDone =>
      let '(parser', trailingFrames) := Sse.flushSseDataFrames (parserStateRef h) in
      let '(h1, rd, returned) :=
        processTrailingFrames trailingFrames (setParserStateRef parser' h)
          (receivedDone r) in
      if returned then (finally r h1, Returned)
      else (finally r (setState (onStreamEnd rd) h1), Returned)
  end.

(** [retry()] *)
Definition retry (h : Hook) : Hook * Status :=
  let prompt := latestPromptRef h in
  if negb (truthy prompt) then (h, Returned) else start prompt h.

End WithParser.

End Session.

(** *** Checkpoint store (lib/client/sandbox-checkpoints.ts and the
    checkpoint state of the generate page) *)

Module Checkpoints.

Record SnapshotFile := mkSnapshotFile {
  path : jsstring;
  content : jsstring
}.

Record SandboxCheckpoint := mkCheckpoint {
  id : jsstring;
  label : jsstring;
  createdAt : Z;
  prompt : jsstring;
  files : list SnapshotFile;
  fileCount : Z;
  totalBytes : Z;
  truncated : bool
}.

Definition CHECKPOINT_PREFIX : jsstring := str "lovable:sandbox-checkpoints:".
Definition MAX_CHECKPOINTS : Z := 8.

Definition getCheckpointStorageKey (sandboxId : jsstring) : jsstring :=
  CHECKPOINT_PREFIX ++ sandboxId.

(** What [JSON.parse] makes of a stored item: a [SyntaxError], a value
    that is not an array, or an array whose entries either pass
    [isSandboxCheckpoint] ([Some]) or do not ([None]). *)
Inductive StoredItem :=
| Unparsable
| NotArray
| StoredArray (entries : list (option SandboxCheckpoint)).

(** [window.localStorage]; an empty string item is [Unparsable] text that
    [loadSandboxCheckpoints] never parses, so only present items matter.
    [setItemThrows] tells whether [setItem] fails (quota, privacy mode). *)
Record LocalStorage := mkLocalStorage {
  items : gmap jsstring StoredItem;
  setItemThrows : bool
}.

Definition loadSandboxCheckpoints (sandboxId : jsstring) (storage : LocalStorage)
    : list SandboxCheckpoint :=
  if negb (truthy sandboxId) then []
  else
    match items storage !! getCheckpointStorageKey sandboxId with
    | None => []
    | Some Unparsable => []
    | Some NotArray => []
    | Some (StoredArray parsed) =>
        slice (omap (fun entry => entry) parsed) 0 MAX_CHECKPOINTS
    end.

Definition persistSandboxCheckpoints (sandboxId : jsstring)
    (checkpoints : list SandboxCheckpoint) (storage : LocalStorage) : LocalStorage :=
  if negb (truthy sandboxId) then storage
  else if setItemThrows storage then storage
  else
    {| items :=
         <[getCheckpointStorageKey sandboxId :=
             StoredArray (map Some (slice checkpoints 0 MAX_CHECKPOINTS))]>
           (items storage);
       setItemThrows := setItemThrows storage |}.

(** The page keeps the list in React state and persists it from the state
    updater of [createCheckpointSnapshot]. *)
Record Page := mkPage {
  checkpoints : list SandboxCheckpoint;
  storage : LocalStorage
}.

Definition addCheckpoint (sandboxId : jsstring) (checkpoint : SandboxCheckpoint)
    (pg : Page) : Page :=
  let next := slice (checkpoint :: checkpoints pg) 0 8 in
  {| checkpoints := next;
     storage := persistSandboxCheckpoints sandboxId next (storage pg) |}.

(** The effect that runs when the sandbox id is set. *)
Definition loadPage (sandboxId : jsstring) (st : LocalStorage) : Page :=
  {| checkpoints := loadSandboxCheckpoints sandboxId st; storage := st |}.

(** Creating the given checkpoints one after the other, oldest first. *)
Definition addCheckpoints (sandboxId : jsstring) (created : list SandboxCheckpoint)
    (pg : Page) : Page :=
  foldl (fun pg checkpoint => addCheckpoint sandboxId checkpoint pg) pg created.

End Checkpoints.

(** *** Edit orchestration (route.ts, lines 310-366 and 583-685) *)

Module Orchestrator.

(** The shell commands the route sends to the sandbox, by what they do:
    [cat <path> 2>/dev/null], [mkdir -p <dir>],
    [printf %s <base64> | base64 -d > <path>] and
    [if [ -d <path> ]; then exit 3; fi; rm -f -- <path>]. *)
Inductive Command :=
| Cat (fullPath : jsstring)
| MkdirP (fullDirPath : jsstring)
| WriteFile (fullPath content : jsstring)
| RemoveFile (fullPath : jsstring).

Record CommandResult := mkCommandResult {
  exitCode : Z;
  result : jsstring
}.

Record FileEditPreview := mkPreview {
  path : jsstring;
  additions : Z;
  deletions : Z;
  changed : bool;
  isNewFile : bool;
  isDeleted : bool;
  diff : jsstring
}.

Inductive EditMode := preview | apply.

Inductive Response :=
| ErrorResponse (error : jsstring) (status : Z)
| PreviewResponse (summary : jsstring) (notes : list jsstring)
    (proposedEdits : list NormalizedEdit) (previews : list FileEditPreview)
    (contextFiles : list jsstring)
| ApplyResponse (summary : jsstring) (notes : list jsstring)
    (applied : list jsstring) (failed : list (jsstring * jsstring))
    (previews : list FileEditPreview) (contextFiles : list jsstring).

(** [path.posix.dirname] *)
Fixpoint dropNonSlashes (s : jsstring) : jsstring :=
  match s with
  | c :: s' => if Ascii.eqb c SLASH then s else dropNonSlashes s'
  | [] => []
  end.

Definition dirname (path : jsstring) : jsstring :=
  match path with
  | [] => str "."
  | first :: rest =>
      let hasRoot := Ascii.eqb first SLASH in
      match dropNonSlashes (dropSlashes (rev rest)) with
      | [] => if hasRoot then [SLASH] else str "."
      | _ :: before =>
          let end_ := S (length before) in
          if hasRoot && Nat.eqb end_ 1 then str "//" else take end_ path
      end
  end.

Section WithSandbox.

(** The sandbox is the remote collaborator: a state of unknown shape and
    a command executor that may change it, and that answers with a result
    or throws. *)
Context {Sandbox : Type}.
Variable executeCommand : Command -> Sandbox -> Sandbox * Exn CommandResult.
Variable projectDir : jsstring.

(** Computations that talk to the sandbox and may throw. *)
Definition M (A : Type) : Type := Sandbox -> Sandbox * Exn A.

Definition ret {A} (a : A) : M A := fun sb => (sb, Ok a).

Definition throw {A} (message : jsstring) : M A := fun sb => (sb, Throw message).

Definition bind {A B} (m : M A) (k : A -> M B) : M B :=
  fun sb =>
    match m sb with
    | (sb', Ok a) => k a sb'
    | (sb', Throw message) => (sb', Throw message)
    end.

Definition lift {A} (e : Exn A) : M A := fun sb => (sb, e).

(** [try { m } catch (error) { handler(error.message) }] *)
Definition tryCatch {A} (m : M A) (handler : jsstring -> M A) : M A :=
  fun sb =>
    match m sb with
    | (sb', Ok a) => (sb', Ok a)
    | (sb', Throw message) => handler message sb'
    end.

Notation "x <- m ;; k" := (bind m (fun x => k))
  (at level 100, m at next level, right associativity).

Definition readProjectFile (filePath : jsstring) : M (option jsstring) :=
  fullPath <- lift (resolveProjectPath projectDir filePath) ;;
  result <- executeCommand (Cat fullPath) ;;
  if negb (exitCode result =? 0)%Z then ret None
  else ret (Some (Orchestrator.result result)).

Definition writeProjectFile (filePath content : jsstring) : M unit :=
  fullPath <- lift (resolveProjectPath projectDir filePath) ;;
  let dirPath := dirname filePath in
  _ <- (if truthy dirPath && negb (bool_decide (dirPath = str "."))
        then fullDirPath <- lift (resolveProjectPath projectDir dirPath) ;;
             _ <- executeCommand (MkdirP fullDirPath) ;;
             ret tt
        else ret tt) ;;
  result <- executeCommand (WriteFile fullPath content) ;;
  if negb (exitCode result =? 0)%Z then throw (str "Failed to write " ++ filePath)
  else ret tt.

Definition deleteProjectFile (filePath : jsstring) : M unit :=
  fullPath <- lift (resolveProjectPath projectDir filePath) ;;
  result <- executeCommand (RemoveFile fullPath) ;;
  if negb (exitCode result =? 0)%Z then throw (str "Failed to delete " ++ filePath)
  else ret tt.

(** The loop of lines 590-621: previews and the effective edits. *)
Fixpoint previewLoop (normalizedEdits : list NormalizedEdit)
    (previews : list FileEditPreview) (effectiveEdits : list NormalizedEdit)
    : M (list FileEditPreview * list NormalizedEdit) :=
  match normalizedEdits with
  | [] => ret (previews, effectiveEdits)
  | edit :: rest =>
      previousContentOrNull <- readProjectFile (editPath edit) ;;
      let previousContent := default [] previousContentOrNull in
      let isDelete := match edit with DeleteEdit _ => true | _ => false end in
      if isDelete && bool_decide (previousContentOrNull = None)
      then previewLoop rest previews effectiveEdits
      else
        let isNewFile := bool_decide (previousContentOrNull = None) && negb isDelete in
        let diffInfo :=
          match edit with
          | DeleteEdit p => Diff.createDeletedFileDiff p previousContent
          | ContentEdit p c => Diff.createUnifiedDiff p previousContent c
          end in
        let previews' :=
          previews ++
            [{| path := editPath edit;
                additions := Diff.additions diffInfo;
                deletions := Diff.deletions diffInfo;
                changed := Diff.changed diffInfo || isNewFile;
                isNewFile := isNewFile;
                isDeleted := isDelete;
                diff := Diff.diff diffInfo |}] in
        if isDelete || Diff.changed diffInfo || isNewFile
        then previewLoop rest previews' (effectiveEdits ++ [edit])
        else previewLoop rest previews' effectiveEdits
  end.

(** The loop of lines 647-661: every edit under its own [try]. *)
Fixpoint applyLoop (effectiveEdits : list NormalizedEdit)
    (applied : list jsstring) (failed : list (jsstring * jsstring))
    : M (list jsstring * list (jsstring * jsstring)) :=
  match effectiveEdits with
  | [] => ret (applied, failed)
  | edit :: rest =>
      outcome <-
        tryCatch
          (_ <- match edit with
                | DeleteEdit p => deleteProjectFile p
                | ContentEdit p c => writeProjectFile p c
                end ;;
           ret (applied ++ [editPath edit], failed))
          (fun message =>
             ret (applied,
                  failed ++ [(editPath edit,
                              if truthy message then message else str "apply failed")])) ;;
      applyLoop rest outcome.1 outcome.2
  end.

Definition plural (n : nat) : jsstring :=
  if Nat.eqb n 1 then [] else str "s".

Definition showNat (n : nat) : jsstring := showZ (Z.of_nat n).

(** Lines 583-681, inside the [try] of [POST]. *)
Definition respondTry (mode : EditMode) (summary : jsstring) (notes : list jsstring)
    (contextFilePaths : list jsstring) (normalizedEdits : list NormalizedEdit)
    : M Response :=
  if Nat.eqb (length normalizedEdits) 0
  then ret (ErrorResponse (str "Model did not return any applicable file edits") 422)
  else
    pe <- previewLoop normalizedEdits [] [] ;;
    let previews := pe.1 in
    let effectiveEdits := pe.2 in
    if Nat.eqb (length effectiveEdits) 0
    then ret (ErrorResponse (str "No file changes detected from instruction") 422)
    else
      match mode with
      | preview =>
          ret (PreviewResponse
                 (if truthy summary then summary
                  else str "Prepared " ++ showNat (length effectiveEdits)
                       ++ str " change" ++ plural (length effectiveEdits))
                 notes effectiveEdits previews contextFilePaths)
      | apply =>
          af <- applyLoop effectiveEdits [] [] ;;
          let applied := af.1 in
          let failed := af.2 in
          if Nat.eqb (length applied) 0
          then ret (ErrorResponse (str "No edits were applied") 500)
          else
            ret (ApplyResponse
                   (if truthy summary then summary
                    else str "Applied " ++ showNat (length applied)
                         ++ str " file edit" ++ plural (length applied))
                   notes applied failed previews contextFilePaths)
      end.

(** The same with the [catch] of [POST] around it. *)
Definition respond (mode : EditMode) (summary : jsstring) (notes : list jsstring)
    (contextFilePaths : list jsstring) (normalizedEdits : list NormalizedEdit)
    (sb : Sandbox) : Sandbox * Response :=
  match respondTry mode summary notes contextFilePaths normalizedEdits sb with
  | (sb', Ok response) => (sb', response)
  | (sb', Throw message) =>
      (sb', ErrorResponse
              (if truthy message then message else str "Failed to apply sandbox edit")
              500)
  end.

(** Apply mode with prepared edits (lines 537-539): the edits the client
    sends back are normalized again. *)
Definition applyPrepared (proposedEditsInput : list Candidate) (sb : Sandbox)
    : Sandbox * Response :=
  match normalizeCandidateEdits proposedEditsInput with
  | Throw message =>
      (sb, ErrorResponse
             (if truthy message then message else str "Failed to apply sandbox edit")
             500)
  | Ok normalizedEdits =>
      respond apply
        (str "Applying " ++ showNat (length normalizedEdits) ++ str " prepared edit"
           ++ plural (length normalizedEdits))
        [] [] normalizedEdits sb
  end.

End WithSandbox.

(** A sandbox to run the route against: a file tree, and a set of paths
    the file system refuses to write or remove. *)
Record TestSandbox := mkTestSandbox {
  tree : gmap jsstring jsstring;
  readOnly : gset jsstring
}.

Definition testExecute (cmd : Command) (sb : TestSandbox)
    : TestSandbox * Exn CommandResult :=
  match cmd with
  | Cat fullPath =>
      match tree sb !! fullPath with
      | Some text => (sb, Ok {| exitCode := 0; result := text |})
      | None => (sb, Ok {| exitCode := 1; result := [] |})
      end
  | MkdirP _ => (sb, Ok {| exitCode := 0; result := [] |})
  | WriteFile fullPath text =>
      if bool_decide (fullPath ∈ readOnly sb)
      then (sb, Ok {| exitCode := 1; result := [] |})
      else ({| tree := <[fullPath := text]> (tree sb); readOnly := readOnly sb |},
            Ok {| exitCode := 0; result := [] |})
  | RemoveFile fullPath =>
      if bool_decide (fullPath ∈ readOnly sb)
      then (sb, Ok {| exitCode := 1; result := [] |})
      else ({| tree := delete fullPath (tree sb); readOnly := readOnly sb |},
            Ok {| exitCode := 0; result := [] |})
  end.

Definition testProjectDir : jsstring := str "/home/daytona/website-project".

End Orchestrator.

(** *** Reference definitions the properties are stated against *)

Module DiffSpec.
Import Diff.

(** The hunk of a diff whose two sides have the same lines: the two file
    headers, the hunk header, and the last lines of the text as context. *)
Definition contextOnlyHunk (filePath : jsstring) (lines : list jsstring) : list jsstring :=
  let preStart := Z.max 0 (len lines - 3) in
  let preContext := slice lines preStart (len lines) in
  [ str "--- a/" ++ filePath;
    str "+++ b/" ++ filePath;
    str "@@ -" ++ showZ (preStart + 1) ++ str "," ++ showZ (len preContext)
      ++ str " +" ++ showZ (preStart + 1) ++ str "," ++ showZ (len preContext)
      ++ str " @@" ]
  ++ map (fun line => str " " ++ line) preContext.

End DiffSpec.

Module OrchestratorSpec.
Import Orchestrator.

(** An edit that changes nothing: new content identical to the remote
    content of an existing file, or the deletion of a file that does not
    exist.  [remote] is the remote content, [None] for a missing file. *)
Definition isNoOp (remote : option jsstring) (edit : NormalizedEdit) : bool :=
  match edit, remote with
  | ContentEdit _ c, Some previous => bool_decide (previous = c)
  | DeleteEdit _, None => true
  | _, _ => false
  end.

(** The preview of an edit against the remote content; none for the
    deletion of a missing file. *)
Definition previewFor (remote : option jsstring) (edit : NormalizedEdit)
    : option FileEditPreview :=
  match edit, remote with
  | DeleteEdit _, None => None
  | DeleteEdit p, Some previous =>
      let d := Diff.createDeletedFileDiff p previous in
      Some {| path := p; additions := Diff.additions d; deletions := Diff.deletions d;
              changed := Diff.changed d; isNewFile := false; isDeleted := true;
              diff := Diff.diff d |}
  | ContentEdit p c, None =>
      let d := Diff.createUnifiedDiff p [] c in
      Some {| path := p; additions := Diff.additions d; deletions := Diff.deletions d;
              changed := true; isNewFile := true; isDeleted := false;
              diff := Diff.diff d |}
  | ContentEdit p c, Some previous =>
      let d := Diff.createUnifiedDiff p previous c in
      Some {| path := p; additions := Diff.additions d; deletions := Diff.deletions d;
              changed := Diff.changed d; isNewFile := false; isDeleted := false;
              diff := Diff.diff d |}
  end.

Section WithSandbox.

Context {Sandbox : Type}.
Variable executeCommand : Command -> Sandbox -> Sandbox * Exn CommandResult.
Variable projectDir : jsstring.

(** The write or removal an edit asks for. *)
Definition applyEdit (edit : NormalizedEdit) : M (Sandbox := Sandbox) unit :=
  match edit with
  | DeleteEdit p => deleteProjectFile executeCommand projectDir p
  | ContentEdit p c => writeProjectFile executeCommand projectDir p c
  end.

(** Every edit is run in turn on the sandbox the previous ones left
    behind; the outcome of each is its path and, if it threw, the reason
    the route records. *)
Fixpoint applyOutcomes (edits : list NormalizedEdit) (sb : Sandbox)
    : list (jsstring * option jsstring) :=
  match edits with
  | [] => []
  | edit :: rest =>
      match applyEdit edit sb with
      | (sb', Ok _) => (editPath edit, None) :: applyOutcomes rest sb'
      | (sb', Throw message) =>
          (editPath edit, Some (if truthy message then message else str "apply failed"))
          :: applyOutcomes rest sb'
      end
  end.

(** [remote] describes what reading the files of [edits] gives on [sb]:
    every read answers, and leaves the sandbox as it is. *)
Definition readsAs (remote : jsstring -> option jsstring) (sb : Sandbox)
    (edits : list NormalizedEdit) : Prop :=
  forall e, e ∈ edits ->
    readProjectFile executeCommand projectDir (editPath e) sb
    = (sb, Ok (remote (editPath e))).

Fixpoint sandboxAfter (edits : list NormalizedEdit) (sb : Sandbox) : Sandbox :=
  match edits with
  | [] => sb
  | edit :: rest => sandboxAfter rest (applyEdit edit sb).1
  end.

End WithSandbox.

Definition succeededPaths (outcomes : list (jsstring * option jsstring)) : list jsstring :=
  omap (fun o => match o.2 with None => Some o.1 | Some _ => None end) outcomes.

Definition failures (outcomes : list (jsstring * option jsstring))
    : list (jsstring * jsstring) :=
  omap (fun o => match o.2 with Some reason => Some (o.1, reason) | None => None end)
    outcomes.

End OrchestratorSpec.

Module SessionSpec.
Import Session.

(** The stage of the first keyword group a progress message matches, the
    groups being tried in the order creating_sandbox, generating_code,
    installing_deps, starting_preview. *)
Definition matchedStage (message : jsstring) : option Stage.t :=
  let text := toLowerCase message in
  if includes text (str "creating new daytona sandbox")
     || includes text (str "using existing sandbox")
     || includes text (str "sandbox created")
     || includes text (str "connected to sandbox")
  then Some Stage.creating_sandbox
  else if includes text (str "running vercel ai gateway generation")
     || includes text (str "parsing generated code")
     || includes text (str "writing")
     || includes text (str "generation output")
  then Some Stage.generating_code
  else if includes text (str "installing project dependencies")
     || includes text (str "dependencies installed")
     || includes text (str "npm install")
  then Some Stage.installing_deps
  else if includes text (str "starting development server")
     || includes text (str "waiting for server to start")
     || includes text (str "getting preview url")
     || includes text (str "preview url:")
  then Some Stage.starting_preview
  else None.

(** The stages the classifier derives from a sequence of progress
    messages, each from the stage derived before it. *)
Fixpoint stageTrace (current : Stage.t) (messages : list jsstring) : list Stage.t :=
  match messages with
  | [] => []
  | message :: rest =>
      let next := inferStageFromProgress message current in
      next :: stageTrace next rest
  end.

Definition nondecreasing (stages : list Stage.t) : Prop :=
  Sorted Stage.le stages.

(** Whether the sentinel is among the given frames. *)
Definition hasDone (frames : list jsstring) : bool :=
  existsb (fun frame => bool_decide (frame = str "[DONE]")) frames.

(** A session in the middle of reading: no error recorded, lifecycle
    [streaming] or [provisioning_preview]. *)
Definition reading (s : GenerationSessionState) : Prop :=
  error s = None
  /\ (lifecycle s = Lifecycle.streaming \/ lifecycle s = Lifecycle.provisioning_preview).

Section WithParser.

Variable JSON_parse : jsstring -> Parsed.

(** The hook and the [receivedDone] flag at the final [setState] of
    [start], once [reader.read()] reported the end of the stream; [None]
    when [start] returns from the loop over the trailing frames. *)
Definition beforeStreamEnd (r : Run) (h : Hook) : option (Hook * bool) :=
  let '(parser', trailingFrames) := Sse.flushSseDataFrames (parserStateRef h) in
  let '(h1, rd, returned) :=
    processTrailingFrames JSON_parse trailingFrames (setParserStateRef parser' h)
      (receivedDone r) in
  if returned then None else Some (h1, rd).

(** One run reading the given chunks, one [reader.read()] after the
    other, for as long as [start] has not returned. *)
Fixpoint feedChunks (chunks : list jsstring) (r : Run) (h : Hook) : Hook * Status :=
  match chunks with
  | [] => (h, AwaitRead r)
  | chunk :: rest =>
      match resumeRead JSON_parse (ReadChunk chunk) r h with
      | (h', AwaitRead r') => feedChunks rest r' h'
      | other => other
      end
  end.

End WithParser.

End SessionSpec.

Module NormalizerSpec.

(** What one candidate contributes on its own: the normalized edit, if its
    path is a non-empty string that normalizes to a non-empty path and it
    carries string content or the delete flag. *)
Definition accepted (c : Candidate) : option NormalizedEdit :=
  match c with
  | CValue (FString rawPath) content delete =>
      match normalizeRelativeSandboxPath rawPath with
      | Ok (ch :: p) =>
          match delete, content with
          | FTrue, _ => Some (DeleteEdit (ch :: p))
          | _, FString s => Some (ContentEdit (ch :: p) s)
          | _, _ => None
          end
      | _ => None
      end
  | _ => None
  end.

(** Keeping, of the edits with the same path, only the first; [seen] are
    the paths already taken. *)
Fixpoint dedupe (seen : gset jsstring) (edits : list NormalizedEdit)
    : list NormalizedEdit :=
  match edits with
  | [] => []
  | e :: rest =>
      if decide (editPath e ∈ seen) then dedupe seen rest
      else e :: dedupe ({[editPath e]} ∪ seen) rest
  end.

(** A path with no null character, not absolute, not empty, and without a
    [..] segment. *)
Definition cleanPath (p : jsstring) : Prop :=
  p <> [] /\ (NUL ∉ p) /\ head p <> Some SLASH /\ (str ".." ∉ split_on SLASH p).

(** A segment of the input that normalization keeps as it is. *)
Definition keptSegment (segs : list jsstring) (seg : jsstring) : Prop :=
  seg ∈ segs /\ seg <> [] /\ seg <> str "." /\ seg <> str "..".

(** The raw paths the normalizer refuses: a null character, an absolute
    path (after backslashes are turned into slashes and white space is
    trimmed), or a normalized form that is [..] or starts with [../]. *)
Definition refusedPath (rawPath : jsstring) : bool :=
  includes rawPath [NUL]
  || (let normalizedInput := trim (replace_backslashes rawPath) in
      startsWith normalizedInput [SLASH]
      || (truthy normalizedInput
          && (let normalized := PosixPath.normalize normalizedInput in
              bool_decide (normalized = str "..") || startsWith normalized (str "../")))).

Definition hasRefusedPath (c : Candidate) : Prop :=
  exists rawPath content delete,
    c = CValue (FString rawPath) content delete /\ refusedPath rawPath = true.

End NormalizerSpec.

(** *** Concrete inputs used by the examples *)

Module Examples.
Import Orchestrator.

(** Candidates: an edit, an escaping path, the same path as the first
    written differently, and a deletion. *)
Definition candidates : list Candidate :=
  [ CValue (FString (str "src/app.ts")) (FString (str "one")) FUndefined;
    CValue (FString (str "../secret")) (FString (str "two")) FUndefined;
    CValue (FString (str "./src//app.ts")) (FString (str "three")) FUndefined;
    CValue (FString (str "old.ts")) FUndefined FTrue ].

(** A candidate whose path has a [..] segment that stays inside the
    project. *)
Definition innerDotDot : list Candidate :=
  [ CValue (FString (str "a/../b")) (FString (str "x")) FUndefined ].

Definition inProject (p : string) : jsstring :=
  testProjectDir ++ [SLASH] ++ str p.

(** A project with one file that cannot be written. *)
Definition lockedSandbox : TestSandbox :=
  {| tree := {[ inProject "a.ts" := str "x" ]};
     readOnly := {[ inProject "a.ts" ]} |}.

Definition emptySandbox : TestSandbox :=
  {| tree := ∅; readOnly := ∅ |}.

(** A project whose file [notes.txt] has CRLF line ends. *)
Definition crlfText : jsstring := str "a" ++ [CR; LF] ++ str "b".
Definition lfText : jsstring := str "a" ++ [LF] ++ str "b".

Definition crlfSandbox : TestSandbox :=
  {| tree := {[ inProject "notes.txt" := crlfText ]}; readOnly := ∅ |}.

(** What reading gives in a test sandbox. *)
Definition remoteOf (sb : TestSandbox) (p : jsstring) : option jsstring :=
  tree sb !! (testProjectDir ++ [SLASH] ++ p).

Definition previewsOf (edits : list NormalizedEdit) (sb : TestSandbox)
    : list FileEditPreview :=
  match (previewLoop testExecute testProjectDir edits [] [] sb).2 with
  | Ok pe => pe.1
  | Throw _ => []
  end.

(** A stream with CRLF line ends, whole and cut in the middle of the
    second CRLF. *)
Definition crlfStream : jsstring :=
  str "data: a" ++ [CR; LF; CR; LF] ++ str "data: b" ++ [CR; LF; CR; LF].

Definition crlfChunks : list jsstring :=
  [ str "data: a" ++ [CR; LF; CR];
    [LF] ++ str "data: b" ++ [CR; LF; CR; LF] ].

(** Progress lines of the generation script, the second one reporting on
    an earlier step. *)
Definition progressLines : list jsstring :=
  [ str "10. Starting development server in background...";
    str "Warning: npm install had issues" ].

(** Progress lines of the generation script in the order it prints
    them. *)
Definition scriptLines : list jsstring :=
  [ str "1. Creating new Daytona sandbox...";
    str "2. Setting up project directory...";
    str "7. Running Vercel AI Gateway generation...";
    str "9. Installing project dependencies...";
    str "10. Starting development server in background...";
    str "11. Getting preview URL..." ].

(** A stream that only carries the sentinel. *)
Definition doneChunks : list jsstring := [ str "data: [DONE]" ++ [LF; LF] ].

(** The run started by the first [start] of a fresh hook. *)
Definition firstRun : Session.Run :=
  {| Session.requestId := 1; Session.controller := 0; Session.receivedDone := false |}.

(** A parser that rejects every frame. *)
Definition rejectAll (frame : jsstring) : Session.Parsed := Session.ParseError.

End Examples.

Module SseSpec.
Import Sse.

(** The extraction loop of [consumeSseDataFrames] on a buffer, with the
    frames collected before. *)
Definition run (buffer : jsstring) (frames : list jsstring) : jsstring * list jsstring :=
  while (length buffer) hasDelimiter extractFrame (buffer, frames).

(** No chunk ends in a carriage return, so no CRLF pair is cut by a chunk
    boundary. *)
Definition noCutCRLF (chunks : list jsstring) : Prop :=
  Forall (fun chunk => last chunk <> Some CR) chunks.

End SseSpec.

(** *** SSE frames as the generation routes write them
    (app/api/generate-daytona/route.ts, app/api/generate/route.ts) *)

Module SseWriter.

(** [`data: ${payload}\n\n`]; the payload is [JSON.stringify(...)] of an
    event object, or the sentinel [[DONE]]. *)
Definition dataFrame (payload : jsstring) : jsstring :=
  str "data: " ++ payload ++ [LF; LF].

(** What the writer has sent once the given payloads were written. *)
Definition written (payloads : list jsstring) : jsstring :=
  concat (map dataFrame payloads).

(** A payload on one line that does not begin with white space, as the
    output of [JSON.stringify] on an object and the sentinel are. *)
Definition onOneLine (payload : jsstring) : Prop :=
  (LF ∉ payload) /\ (CR ∉ payload) /\ trimStart payload = payload.

End SseWriter.

(** *** Rate limiter (lib/server/rate-limit.ts) *)

Module RateLimit.

Record RateLimitOptions := mkOptions {
  limit : Z;
  windowMs : Z
}.

Record RateLimitResult := mkResult {
  limited : bool;
  resultLimit : Z;
  remaining : Z;
  resultResetAt : Z
}.

Record Bucket := mkBucket {
  count : Z;
  resetAt : Z
}.

(** The module-level [buckets] map.  Counts, limits and times (in
    milliseconds) are integers. *)
Abbreviation Buckets := (gmap jsstring Bucket).

Definition MAX_BUCKETS : Z := 5000.

Definition cleanupBuckets (now : Z) (buckets : Buckets) : Buckets :=
  if (Z.of_nat (size buckets) <=? MAX_BUCKETS)%Z then buckets
  else filter (fun entry => ~ (resetAt entry.2 <= now)%Z) buckets.

(** [now] is what [Date.now()] returns during the call. *)
Definition rateLimit (key : jsstring) (options : RateLimitOptions) (now : Z)
    (buckets : Buckets) : Buckets * RateLimitResult :=
  let buckets := cleanupBuckets now buckets in
  let fresh :=
    let resetAt := (now + windowMs options)%Z in
    (<[key := {| count := 1; resetAt := resetAt |}]> buckets,
     {| limited := false;
        resultLimit := limit options;
        remaining := (limit options - 1)%Z;
        resultResetAt := resetAt |}) in
  match buckets !! key with
  | None => fresh
  | Some existing =>
      if (resetAt existing <=? now)%Z then fresh
      else if (limit options <=? count existing)%Z then
        (buckets,
         {| limited := true;
            resultLimit := limit options;
            remaining := 0;
            resultResetAt := resetAt existing |})
      else
        let count' := (count existing + 1)%Z in
        (<[key := {| count := count'; resetAt := resetAt existing |}]> buckets,
         {| limited := false;
            resultLimit := limit options;
            remaining := Z.max (limit options - count') 0;
            resultResetAt := resetAt existing |})
  end.

End RateLimit.

Module RateLimitSpec.
Import RateLimit.

(** One request reaching the limiter. *)
Record Call := mkCall {
  key : jsstring;
  options : RateLimitOptions;
  now : Z
}.

(** The calls served one after the other on the shared map. *)
Fixpoint serve (calls : list Call) (buckets : Buckets)
    : Buckets * list RateLimitResult :=
  match calls with
  | [] => (buckets, [])
  | call :: rest =>
      let '(buckets1, result) := rateLimit (key call) (options call) (now call) buckets in
      let '(buckets2, results) := serve rest buckets1 in
      (buckets2, result :: results)
  end.

(** The answers given to the calls of one key, in order. *)
Fixpoint answersFor (k : jsstring) (calls : list Call) (results : list RateLimitResult)
    : list RateLimitResult :=
  match calls, results with
  | call :: calls', result :: results' =>
      if decide (key call = k) then result :: answersFor k calls' results'
      else answersFor k calls' results'
  | _, _ => []
  end.

(** The bucket of a key that still counts at a given time. *)
Definition live (t : Z) (buckets : Buckets) (k : jsstring) : option Bucket :=
  match buckets !! k with
  | Some bucket => if (resetAt bucket <=? t)%Z then None else Some bucket
  | None => None
  end.

(** The answer to the [i]-th call of a window that ends at [windowEnd],
    under a limit of [l]. *)
Definition quotaAnswer (l windowEnd : Z) (i : nat) : RateLimitResult :=
  {| limited := (l <? Z.of_nat i)%Z;
     resultLimit := l;
     remaining := Z.max (l - Z.of_nat i) 0;
     resultResetAt := windowEnd |}.

End RateLimitSpec.

(** *** Edit route: quoting, model answers and edit context
    (route.ts, lines 59-61, 110-126, 368-384 and 541-572) *)

Module EditContext.
Import Orchestrator.

Definition QUOTE : ascii := "039"%char.
Definition DQUOTE : ascii := "034"%char.

(** [value.replace(/'/g, `'"'"'`)] between two single quotes. *)
Definition shellQuote (value : jsstring) : jsstring :=
  [QUOTE]
  ++ concat (map (fun c => if Ascii.eqb c QUOTE
                           then [QUOTE; DQUOTE; QUOTE; DQUOTE; QUOTE]
                           else [c]) value)
  ++ [QUOTE].

Definition looksBinary (content : jsstring) : bool := includes content [NUL].

(** [s.lastIndexOf(sub)]: [found] is the last match before position [i]. *)
Fixpoint lastIndexOf_from (s sub : jsstring) (i found : Z) : Z :=
  let found' := if startsWith s sub then i else found in
  match s with
  | [] => found'
  | _ :: s' => lastIndexOf_from s' sub (i + 1)%Z found'
  end.

Definition lastIndexOf (s sub : jsstring) : Z := lastIndexOf_from s sub 0 (-1).

Section WithJson.

(** [JSON.parse]: the parsed value, or a [SyntaxError]. *)
Context {Value : Type}.
Variable JSON_parse : jsstring -> Exn Value.

Definition extractJsonObject (raw : jsstring) : Exn Value :=
  match JSON_parse raw with
  | Ok value => Ok value
  | Throw _ =>
      let firstBrace := indexOf raw (str "{") in
      let lastBrace := lastIndexOf raw (str "}") in
      if (firstBrace =? -1)%Z || (lastBrace =? -1)%Z || (lastBrace <=? firstBrace)%Z
      then Throw (str "Model response was not valid JSON")
      else JSON_parse (slice raw firstBrace (lastBrace + 1))
  end.

End WithJson.

Fixpoint uniquePathsLoop (input : list jsstring) (seen : gset jsstring)
    (result : list jsstring) : list jsstring :=
  match input with
  | [] => result
  | rawPath :: rest =>
      match normalizeRelativeSandboxPath rawPath with
      | Ok normalized =>
          if negb (truthy normalized) || bool_decide (normalized ∈ seen)
          then uniquePathsLoop rest seen result
          else uniquePathsLoop rest ({[normalized]} ∪ seen) (result ++ [normalized])
      | Throw _ => uniquePathsLoop rest seen result
      end
  end.

Definition uniquePaths (input : list jsstring) : list jsstring :=
  uniquePathsLoop input ∅ [].

Definition MAX_CONTEXT_FILES : Z := 14.
Definition MAX_CONTEXT_CHARS : Z := 140000.
Definition MAX_FILE_CHARS : Z := 30000.

Record AIEditFile := mkAIEditFile {
  path : jsstring;
  content : jsstring
}.

(** Lines 542-544. *)
Definition selectPaths (requestedPaths allFiles : list jsstring) : list jsstring :=
  slice (uniquePaths (if (0 <? Z.of_nat (length requestedPaths))%Z
                      then requestedPaths else allFiles))
    0 MAX_CONTEXT_FILES.

(** Lines 557-560. *)
Definition boundContent (content : jsstring) : jsstring :=
  if (MAX_FILE_CHARS <? Z.of_nat (length content))%Z
  then slice content 0 MAX_FILE_CHARS ++ [LF] ++ str "/* truncated */"
  else content.

Section WithSandbox.

Context {Sandbox : Type}.
Variable executeCommand : Command -> Sandbox -> Sandbox * Exn CommandResult.
Variable projectDir : jsstring.

Notation "x <- m ;; k" := (bind m (fun x => k))
  (at level 100, m at next level, right associativity).

(** The loop of lines 553-568; the [break] ends it with the files
    gathered so far. *)
Fixpoint contextLoop (selectedPaths : list jsstring) (contextFiles : list AIEditFile)
    (contextChars : Z) : M (Sandbox := Sandbox) (list AIEditFile) :=
  match selectedPaths with
  | [] => ret contextFiles
  | filePath :: rest =>
      content <- readProjectFile executeCommand projectDir filePath ;;
      match content with
      | None => contextLoop rest contextFiles contextChars
      | Some content =>
          if looksBinary content then contextLoop rest contextFiles contextChars
          else
            let boundedContent := boundContent content in
            if (MAX_CONTEXT_CHARS <? contextChars + Z.of_nat (length boundedContent))%Z
            then ret contextFiles
            else
              contextLoop rest
                (contextFiles ++ [{| path := filePath; content := boundedContent |}])
                (contextChars + Z.of_nat (length boundedContent))%Z
      end
  end.

End WithSandbox.

End EditContext.

Module ShellSpec.
Import EditContext.

(** How a POSIX shell reads a word made of quoted pieces: between single
    quotes every character stands for itself; between double quotes every
    character but the dollar sign, the backquote and the backslash does.
    [None] when the text is anything else than such a word. *)
Inductive Quoting := Bare | InSingle | InDouble.

Fixpoint unquote (q : Quoting) (s : jsstring) : option jsstring :=
  match s with
  | [] => match q with Bare => Some [] | _ => None end
  | c :: s' =>
      match q with
      | Bare =>
          if Ascii.eqb c QUOTE then unquote InSingle s'
          else if Ascii.eqb c DQUOTE then unquote InDouble s'
          else None
      | InSingle =>
          if Ascii.eqb c QUOTE then unquote Bare s'
          else option_map (cons c) (unquote InSingle s')
      | InDouble =>
          if Ascii.eqb c DQUOTE then unquote Bare s'
          else if Ascii.eqb c "$"%char || Ascii.eqb c "`"%char || Ascii.eqb c BACKSLASH
          then None
          else option_map (cons c) (unquote InDouble s')
      end
  end.

End ShellSpec.

Module EditContextSpec.
Import EditContext.

(** The characters of the file contents handed to the model. *)
Definition totalChars (files : list AIEditFile) : Z :=
  foldr (fun file total => (Z.of_nat (length (content file)) + total)%Z) 0%Z files.

End EditContextSpec.

(** *** Paths in normal form *)

Module PathSpec.

(** A path segment that normalization keeps as it is. *)
Definition plainSegment (seg : jsstring) : Prop :=
  seg <> [] /\ seg <> str "." /\ seg <> str ".." /\ (SLASH ∉ seg).

(** The absolute path [/s1/.../sn]. *)
Definition absolutePath (segs : list jsstring) : jsstring :=
  SLASH :: join [SLASH] segs.

(** The form of a normalized relative path: plain segments joined by
    slashes, with or without a closing slash. *)
Definition normalizedPath (p : jsstring) : Prop :=
  exists ns t,
    ns <> [] /\ Forall plainSegment ns /\ (t = [] \/ t = [SLASH])
    /\ p = join [SLASH] ns ++ t.

(** A path below the directory [/r1/.../rn]: the directory followed by
    one or more plain segments, with or without a closing slash. *)
Definition below (rs : list jsstring) (path : jsstring) : Prop :=
  exists segs t,
    segs <> [] /\ Forall plainSegment segs /\ (t = [] \/ t = [SLASH])
    /\ path = absolutePath (rs ++ segs) ++ t.

End PathSpec.

(** *** The commands a run of the edit route sends *)

Module CommandLog.
Import Orchestrator.

(** The path a command works on. *)
Definition commandPath (cmd : Command) : jsstring :=
  match cmd with
  | Cat fullPath => fullPath
  | MkdirP fullDirPath => fullDirPath
  | WriteFile fullPath _ => fullPath
  | RemoveFile fullPath => fullPath
  end.

(** An executor that also records every command it is given. *)
Definition logged {Sandbox : Type}
    (executeCommand : Command -> Sandbox -> Sandbox * Exn CommandResult)
    (cmd : Command) (st : Sandbox * list Command)
    : (Sandbox * list Command) * Exn CommandResult :=
  let '(sb', outcome) := executeCommand cmd st.1 in
  ((sb', st.2 ++ [cmd]), outcome).

(** Every command recorded so far works on a path below [/r1/.../rn]. *)
Definition logBelow {Sandbox : Type} (rs : list jsstring)
    (st : Sandbox * list Command) : Prop :=
  Forall (fun cmd => PathSpec.below rs (commandPath cmd)) st.2.

(** A computation that keeps it so. *)
Definition keeps {Sandbox A : Type} (rs : list jsstring)
    (m : M (Sandbox := Sandbox * list Command) A) : Prop :=
  forall st, logBelow rs st -> logBelow rs (m st).1.

(** A computation on the recording executor that does what the given
    computation does on the plain one. *)
Definition mirrors {Sandbox A : Type}
    (recorded : M (Sandbox := Sandbox * list Command) A) (plain : M (Sandbox := Sandbox) A)
    : Prop :=
  forall st, plain st.1 = ((recorded st).1.1, (recorded st).2).

End CommandLog.

(** *** File routes (app/api/sandbox/[sandboxId]/files/route.ts): listing
    the tree, reading, writing and deleting one file *)

Module FilesRoute.
Import Orchestrator.

(** The shell commands of the route, by what they do:
    [ls -F <path> 2>/dev/null], [cat <path> 2>/dev/null], [mkdir -p <dir>],
    [printf %s <base64> | base64 -d > <path>] and [rm -rf -- <path>]. *)
Inductive Command :=
| ListDir (fullPath : jsstring)
| CatFile (fullPath : jsstring)
| MakeDir (fullDirPath : jsstring)
| WriteTo (fullPath content : jsstring)
| RemoveTree (fullPath : jsstring).

Inductive NodeType := file | folder.

(** [children] and [isLoaded] are [None] where the source leaves them
    [undefined]. *)
#[local] Unset Elimination Schemes.
Inductive FileNode :=
| mkFileNode (name path : jsstring) (type : NodeType)
    (children : option (list FileNode)) (isLoaded : option bool).
#[local] Set Elimination Schemes.

Definition name (node : FileNode) : jsstring :=
  match node with mkFileNode name _ _ _ _ => name end.
Definition path (node : FileNode) : jsstring :=
  match node with mkFileNode _ path _ _ _ => path end.
Definition type (node : FileNode) : NodeType :=
  match node with mkFileNode _ _ type _ _ => type end.
Definition children (node : FileNode) : option (list FileNode) :=
  match node with mkFileNode _ _ _ children _ => children end.
Definition isLoaded (node : FileNode) : option bool :=
  match node with mkFileNode _ _ _ _ isLoaded => isLoaded end.

Definition DEFAULT_TREE_DEPTH : nat := 5.

Inductive Response :=
| JsonError (error : jsstring) (status : Z)
| Listing (files : list FileNode) (path : jsstring) (depth : nat) (includeHidden : bool)
| Tree (files : list FileNode)
| FileContent (path content : jsstring)
| Success (path : jsstring).

(** What [req.json()] gives: it throws, or it gives a value whose [path]
    and [content] properties read as the two fields. *)
Inductive Body :=
| BodyThrows (message : jsstring)
| BodyValue (path content : JsField).

(** The test of the [catch] blocks of [PUT] and [DELETE]. *)
Definition isPathError (message : jsstring) : bool :=
  includes message (str "Path traversal")
  || includes message (str "Absolute paths")
  || includes message (str "outside project root")
  || includes message (str "invalid characters").

Definition onError (fallback message : jsstring) : Response :=
  if isPathError message then JsonError message 400
  else JsonError (if truthy message then message else fallback) 500.

Definition endsWith (s suffix : jsstring) : bool :=
  startsWith (rev s) (rev suffix).

(** The loop of [parseFileList] over the lines. *)
Fixpoint parseLines (lines : list jsstring) (basePath : jsstring)
    (includeHidden foldersLoaded : bool) : list FileNode :=
  match lines with
  | [] => []
  | line :: rest =>
      if negb includeHidden
         && (startsWith line (str ".") || bool_decide (line = str "node_modules")
             || bool_decide (line = str ".next") || bool_decide (line = str ".git"))
      then parseLines rest basePath includeHidden foldersLoaded
      else
        let isDirectory := endsWith line (str "/") in
        let name := if isDirectory then slice line 0 (-1) else line in
        let nodePath := if truthy basePath then basePath ++ str "/" ++ name else name in
        mkFileNode name nodePath (if isDirectory then folder else file)
          (if isDirectory && foldersLoaded then Some [] else None)
          (if isDirectory then Some foldersLoaded else None)
        :: parseLines rest basePath includeHidden foldersLoaded
  end.

Definition parseFileList (output basePath : jsstring) (includeHidden foldersLoaded : bool)
    : list FileNode :=
  let lines := filter (fun line => truthy line = true) (split_on LF (trim output)) in
  parseLines lines basePath includeHidden foldersLoaded.

Section WithSandbox.

Context {Sandbox : Type}.
Variable executeCommand : Command -> Sandbox -> Sandbox * Exn CommandResult.

(** What [getSandboxContext] gives: it throws, finds no sandbox, or finds
    the sandbox and its project directory. *)
Variable sandboxContext : Exn (option jsstring).

Notation "x <- m ;; k" := (bind m (fun x => k))
  (at level 100, m at next level, right associativity).

(** [listDirectory]: the output of [ls -F], whatever its exit code. *)
Definition listDirectory (fullPath : jsstring) : M (Sandbox := Sandbox) jsstring :=
  result <- executeCommand (ListDir fullPath) ;;
  ret (Orchestrator.result result).

(** The loop of [getFilesRecursively] over the nodes, [listFolder] being
    the recursive call for one folder. *)
Fixpoint loadChildren (listFolder : jsstring -> M (Sandbox := Sandbox) (list FileNode))
    (nodes : list FileNode) : M (Sandbox := Sandbox) (list FileNode) :=
  match nodes with
  | [] => ret []
  | node :: rest =>
      node' <- match type node with
               | folder =>
                   loaded <- listFolder (path node) ;;
                   ret (mkFileNode (name node) (path node) folder (Some loaded) (Some true))
               | file => ret node
               end ;;
      rest' <- loadChildren listFolder rest ;;
      ret (node' :: rest')
  end.

(** [remainingDepth] is a natural number: the route passes a depth
    clamped to 0..8, or one of the defaults 0 and 5. *)
Fixpoint getFilesRecursively (projectDir : jsstring) (remainingDepth : nat)
    (currentPath : jsstring) (includeHidden : bool)
    : M (Sandbox := Sandbox) (list FileNode) :=
  fullPath <- lift (resolveProjectPath projectDir currentPath) ;;
  tryCatch
    (output <- listDirectory fullPath ;;
     match remainingDepth with
     | O => ret (parseFileList output currentPath includeHidden false)
     | S depth =>
         loadChildren
           (fun folderPath => getFilesRecursively projectDir depth folderPath includeHidden)
           (parseFileList output currentPath includeHidden true)
     end)
    (fun _ => ret []).

(** [GET]: [filePathParam] is [None] when the request has no [path]
    parameter; [depth] is what [parseDepthParam] returned. *)
Definition getTry (filePathParam : option jsstring) (listMode includeHidden : bool)
    (depth : nat) : M (Sandbox := Sandbox) Response :=
  context <- lift sandboxContext ;;
  match context with
  | None => ret (JsonError (str "Sandbox not found") 404)
  | Some projectDir =>
      if listMode then
        folderPath <- lift (if truthy (default [] filePathParam)
                            then normalizeRelativeSandboxPath (default [] filePathParam)
                            else Ok []) ;;
        files <- getFilesRecursively projectDir depth folderPath includeHidden ;;
        ret (Listing files folderPath depth includeHidden)
      else if truthy (default [] filePathParam) then
        filePath <- lift (normalizeRelativeSandboxPath (default [] filePathParam)) ;;
        if negb (truthy filePath) then ret (JsonError (str "Path is required") 400)
        else
          fullPath <- lift (resolveProjectPath projectDir filePath) ;;
          result <- executeCommand (CatFile fullPath) ;;
          if negb (exitCode result =? 0)%Z then ret (JsonError (str "File not found") 404)
          else ret (FileContent filePath (Orchestrator.result result))
      else
        files <- getFilesRecursively projectDir DEFAULT_TREE_DEPTH [] includeHidden ;;
        ret (Tree files)
  end.

Definition GET (filePathParam : option jsstring) (listMode includeHidden : bool)
    (depth : nat) (sb : Sandbox) : Sandbox * Response :=
  match getTry filePathParam listMode includeHidden depth sb with
  | (sb', Ok response) => (sb', response)
  | (sb', Throw message) =>
      (sb', JsonError
              (if truthy message then message else str "Failed to access sandbox files")
              500)
  end.

Definition putTry (body : Body) : M (Sandbox := Sandbox) Response :=
  match body with
  | BodyThrows message => throw message
  | BodyValue (FString filePathParam) (FString content) =>
      filePath <- lift (normalizeRelativeSandboxPath filePathParam) ;;
      if negb (truthy filePath) then ret (JsonError (str "Path is required") 400)
      else
        context <- lift sandboxContext ;;
        match context with
        | None => ret (JsonError (str "Sandbox not found") 404)
        | Some projectDir =>
            fullPath <- lift (resolveProjectPath projectDir filePath) ;;
            let dirPath := dirname filePath in
            _ <- (if truthy dirPath && negb (bool_decide (dirPath = str "."))
                  then fullDirPath <- lift (resolveProjectPath projectDir dirPath) ;;
                       _ <- executeCommand (MakeDir fullDirPath) ;;
                       ret tt
                  else ret tt) ;;
            result <- executeCommand (WriteTo fullPath content) ;;
            if negb (exitCode result =? 0)%Z then throw (str "Failed to write file")
            else ret (Success filePath)
        end
  | BodyValue _ _ => ret (JsonError (str "Path and string content are required") 400)
  end.

Definition PUT (body : Body) (sb : Sandbox) : Sandbox * Response :=
  match putTry body sb with
  | (sb', Ok response) => (sb', response)
  | (sb', Throw message) => (sb', onError (str "Failed to write file") message)
  end.

(** [filePathParam] is [None] when the request has no [path] parameter. *)
Definition deleteTry (filePathParam : option jsstring) : M (Sandbox := Sandbox) Response :=
  match filePathParam with
  | None => ret (JsonError (str "Path is required") 400)
  | Some filePathParam =>
      if negb (truthy filePathParam) then ret (JsonError (str "Path is required") 400)
      else
        filePath <- lift (normalizeRelativeSandboxPath filePathParam) ;;
        if negb (truthy filePath)
        then ret (JsonError (str "Deleting project root is not allowed") 400)
        else
          context <- lift sandboxContext ;;
          match context with
          | None => ret (JsonError (str "Sandbox not found") 404)
          | Some projectDir =>
              fullPath <- lift (resolveProjectPath projectDir filePath) ;;
              result <- executeCommand (RemoveTree fullPath) ;;
              if negb (exitCode result =? 0)%Z then throw (str "Failed to delete file")
              else ret (Success filePath)
          end
  end.

Definition DELETE (filePathParam : option jsstring) (sb : Sandbox) : Sandbox * Response :=
  match deleteTry filePathParam sb with
  | (sb', Ok response) => (sb', response)
  | (sb', Throw message) => (sb', onError (str "Failed to delete file") message)
  end.

End WithSandbox.

End FilesRoute.

Module FilesRouteSpec.
Import Orchestrator FilesRoute.

(** A listing made with [depth] levels to go below it: without
    [includeHidden] no name begins with a dot; a file has no children; a
    folder has children only when there are levels to go, and they are
    again such a listing, one level lower. *)
Fixpoint listing (includeHidden : bool) (depth : nat) (nodes : list FileNode) : Prop :=
  match depth with
  | O =>
      Forall (fun node =>
                (includeHidden = false -> startsWith (name node) (str ".") = false)
                /\ children node = None) nodes
  | S depth' =>
      Forall (fun node =>
                (includeHidden = false -> startsWith (name node) (str ".") = false)
                /\ match type node, children node with
                   | file, None => True
                   | folder, Some loaded => listing includeHidden depth' loaded
                   | _, _ => False
                   end) nodes
  end.

(** How [DELETE] answers once its one command has run. *)
Definition removalAnswer (filePath : jsstring) (outcome : Exn CommandResult) : Response :=
  match outcome with
  | Ok result =>
      if (exitCode result =? 0)%Z then Success filePath
      else JsonError (str "Failed to delete file") 500
  | Throw message => onError (str "Failed to delete file") message
  end.

End FilesRouteSpec.

(** *** Histories of the generation session *)

Module SessionRuns.
Import Session.

(** What can happen to the hook: a call of [start], [cancel] or [retry],
    or the awaited [fetch] or [reader.read()] of some run settling. *)
Inductive Action :=
| CallStart (prompt : jsstring)
| CallCancel
| CallRetry
| FetchSettles (outcome : FetchOutcome) (r : Run)
| ReadSettles (outcome : ReadOutcome) (r : Run).

(** The ids of the messages shown are those of distinct counter values
    not above the counter. *)
Definition numbered (h : Hook) : Prop :=
  NoDup (map id (messages (state h)))
  /\ Forall (fun m => exists k, id m = createMessageId k /\ (k <= messageCounterRef h)%Z)
       (messages (state h)).

(** A step that only appends messages and never lowers the counters. *)
Definition extends (h h' : Hook) : Prop :=
  messages (state h) `prefix_of` messages (state h')
  /\ (parseWarnings (state h) <= parseWarnings (state h'))%Z
  /\ (messageCounterRef h <= messageCounterRef h')%Z.

(** A preview URL is set. *)
Definition hasPreview (h : Hook) : Prop := truthyOpt (previewUrl (state h)) = true.

Section WithParser.

Variable JSON_parse : jsstring -> Parsed.

Definition act (a : Action) (h : Hook) : Hook :=
  match a with
  | CallStart prompt => (start prompt h).1
  | CallCancel => cancel h
  | CallRetry => (retry h).1
  | FetchSettles outcome r => (resumeFetch outcome r h).1
  | ReadSettles outcome r => (resumeRead JSON_parse outcome r h).1
  end.

(** The hook after a history of actions, from its initial state. *)
Definition after (actions : list Action) : Hook :=
  foldl (fun h a => act a h) initialHook actions.

(** A frame the hook reads as an [error] event. *)
Definition isErrorEvent (frame : jsstring) : bool :=
  negb (bool_decide (frame = str "[DONE]"))
  && match JSON_parse frame with
     | PValue true e => bool_decide (type e = Some (str "error"))
     | _ => false
     end.

(** A frame the hook reads as a [complete] event that carries a preview
    URL. *)
Definition announcesPreview (frame : jsstring) : bool :=
  negb (bool_decide (frame = str "[DONE]"))
  && match JSON_parse frame with
     | PValue true e =>
         bool_decide (type e = Some (str "complete")) && truthyOpt (ev_previewUrl e)
     | _ => false
     end.

End WithParser.

End SessionRuns.

(** *** Snapshots of the project files
    (lib/client/sandbox-checkpoints.ts, lines 138-170) *)

Module Snapshot.
Import Checkpoints.

(** [encoder.encode(content).length]: the UTF-8 length of a string whose
    code units are below 256. *)
Definition utf8Length (content : jsstring) : Z :=
  foldr (fun c total => ((if Nat.ltb (nat_of_ascii c) 128 then 1 else 2) + total)%Z)
    0%Z content.

(** The response to the request for one file: not [ok], or [ok] with a
    body whose [content] is a string or something else. *)
Inductive FileResponse :=
| NotOk
| OkResponse (content : option jsstring).

Record Collected := mkCollected {
  files : list SnapshotFile;
  totalBytes : Z;
  truncated : bool;
  totalFiles : Z
}.

Section WithFetch.

(** The server behind [fetchImpl], answering the file requests one after
    the other. *)
Context {Server : Type}.
Variable fetchFile : jsstring -> Server -> Server * FileResponse.

(** The loop of lines 144-163; the result is the files, the byte total
    and the [truncated] flag. *)
Fixpoint collectLoop (maxBytes : Z) (targetPaths : list jsstring)
    (files : list SnapshotFile) (totalBytes : Z) (truncated : bool) (sv : Server)
    : Server * (list SnapshotFile * Z * bool) :=
  match targetPaths with
  | [] => (sv, (files, totalBytes, truncated))
  | path :: rest =>
      match fetchFile path sv with
      | (sv', NotOk) => collectLoop maxBytes rest files totalBytes truncated sv'
      | (sv', OkResponse fileData) =>
          let content := default [] fileData in
          let fileBytes := utf8Length content in
          if (maxBytes <? totalBytes + fileBytes)%Z
          then (sv', (files, totalBytes, true))
          else collectLoop maxBytes rest
                 (files ++ [{| path := path; content := content |}])
                 (totalBytes + fileBytes)%Z truncated sv'
      end
  end.

(** [collectProjectFilesFromSandbox] from line 138 on, [allPaths] being
    the sorted paths of the listed files. *)
Definition collectFromPaths (allPaths : list jsstring) (maxFiles maxBytes : Z)
    (sv : Server) : Server * Collected :=
  let targetPaths := slice allPaths 0 maxFiles in
  let truncated := (Z.of_nat (length targetPaths) <? Z.of_nat (length allPaths))%Z in
  let '(sv', (files, totalBytes, truncated')) :=
    collectLoop maxBytes targetPaths [] 0 truncated sv in
  (sv', {| files := files; totalBytes := totalBytes; truncated := truncated';
           totalFiles := Z.of_nat (length allPaths) |}).

End WithFetch.

End Snapshot.

Module SnapshotSpec.
Import Checkpoints Snapshot.

Section WithFetch.

Context {Server : Type}.
Variable fetchFile : jsstring -> Server -> Server * FileResponse.

(** Every file whose request is answered [ok], the requests being made
    in order. *)
Fixpoint answered (paths : list jsstring) (sv : Server) : list SnapshotFile :=
  match paths with
  | [] => []
  | path :: rest =>
      match fetchFile path sv with
      | (sv', NotOk) => answered rest sv'
      | (sv', OkResponse fileData) =>
          {| path := path; content := default [] fileData |} :: answered rest sv'
      end
  end.

End WithFetch.

Definition bytesOf (files : list SnapshotFile) : Z :=
  foldr (fun file total => (utf8Length (content file) + total)%Z) 0%Z files.

End SnapshotSpec.

(** *** Run history of the generate page (app/generate/page.tsx): the
    [runHistory] state and its three writers, the mount effect
    (lines 299-313), [runPrompt] (lines 732-745) and the update after an
    applied edit (lines 1146-1151) *)

Module RunHistory.

(** The [runHistory] state and the [hasStartedRef] flag of the mount
    effect. *)
Record Page := mkPage {
  runHistory : list jsstring;
  hasStartedRef : bool
}.

Definition initialPage : Page :=
  {| runHistory := []; hasStartedRef := false |}.

(** [[entry, ...prev.filter((item) => item !== entry)].slice(0, 6)]: the
    updater of lines 740 and 1146. *)
Definition pushRunHistory (entry : jsstring) (prev : list jsstring) : list jsstring :=
  slice (entry :: filter (fun item => item <> entry) prev) 0 6.

(** The mount effect, which also runs again whenever the [prompt] query
    parameter changes. *)
Definition onMount (initialPrompt : jsstring) (pg : Page) : Page :=
  if negb (truthy initialPrompt) then pg
  else if hasStartedRef pg then pg
  else {| runHistory := [initialPrompt]; hasStartedRef := true |}.

(** [runPrompt(nextPrompt)], [isBusy] being [generation.isBusy] at the
    call. *)
Definition runPrompt (nextPrompt : jsstring) (isBusy : bool) (pg : Page) : Page :=
  let trimmed := trim nextPrompt in
  if negb (truthy trimmed) || isBusy then pg
  else {| runHistory := pushRunHistory trimmed (runHistory pg);
          hasStartedRef := hasStartedRef pg |}.

(** The update of the apply handler once the edit route has answered
    [ok]; [instruction] is [pendingEditPlan.instruction]. *)
Definition onEditApplied (instruction : jsstring) (pg : Page) : Page :=
  {| runHistory := pushRunHistory instruction (runHistory pg);
     hasStartedRef := hasStartedRef pg |}.

(** What happens to the history, in the order it happens. *)
Inductive Event :=
| Mounted (initialPrompt : jsstring)
| PromptRun (nextPrompt : jsstring) (isBusy : bool)
| EditApplied (instruction : jsstring).

Definition step (e : Event) (pg : Page) : Page :=
  match e with
  | Mounted initialPrompt => onMount initialPrompt pg
  | PromptRun nextPrompt isBusy => runPrompt nextPrompt isBusy pg
  | EditApplied instruction => onEditApplied instruction pg
  end.

Definition pageAfter (events : list Event) : Page :=
  foldl (fun pg e => step e pg) initialPage events.

End RunHistory.

Module RunHistorySpec.
Import RunHistory.

(** The entry an event is about: the initial prompt, the prompt without
    its surrounding white space, or the instruction of the edit. *)
Definition entryOf (e : Event) : jsstring :=
  match e with
  | Mounted initialPrompt => initialPrompt
  | PromptRun nextPrompt _ => trim nextPrompt
  | EditApplied instruction => instruction
  end.

(** Whether the event writes the history: the first mount with a prompt,
    a prompt that is not blank run while no generation is busy, and every
    applied edit. *)
Definition writes (e : Event) (pg : Page) : bool :=
  match e with
  | Mounted initialPrompt => truthy initialPrompt && negb (hasStartedRef pg)
  | PromptRun nextPrompt isBusy => truthy (trim nextPrompt) && negb isBusy
  | EditApplied _ => true
  end.

End RunHistorySpec.

(** *** More concrete inputs used by the examples *)

Module Fixtures.
Import Orchestrator.

(** A stream without carriage returns, cut inside the blank line. *)
Definition plainChunks : list jsstring :=
  [ str "data: a" ++ [LF]; [LF] ++ str "data: b" ++ [LF; LF] ].

(** Two payloads as a route writes them, and the written text cut at
    arbitrary places. *)
Definition payloads : list jsstring := [ str "{progress}"; str "{complete}"; str "[DONE]" ].

Definition writtenChunks : list jsstring :=
  [ str "data: {prog";
    str "ress}" ++ [LF];
    [LF] ++ str "data: {complete}" ++ [LF; LF] ++ str "data: [DO";
    str "NE]" ++ [LF; LF] ].

(** A parser that knows three frames: a progress event, a complete event
    with a preview URL, and an error event. *)
Definition knownFrames (frame : jsstring) : Session.Parsed :=
  if bool_decide (frame = str "{progress}") then
    Session.PValue true
      {| Session.type := Some (str "progress"); Session.content := None;
         Session.message := Some (str "Installing project dependencies");
         Session.ev_previewUrl := None; Session.ev_sandboxId := None |}
  else if bool_decide (frame = str "{complete}") then
    Session.PValue true
      {| Session.type := Some (str "complete"); Session.content := None;
         Session.message := None;
         Session.ev_previewUrl := Some (str "https://preview.example");
         Session.ev_sandboxId := Some (str "sb-1") |}
  else if bool_decide (frame = str "{error}") then
    Session.PValue true
      {| Session.type := Some (str "error"); Session.content := None;
         Session.message := Some (str "Process exited with code 1");
         Session.ev_previewUrl := None; Session.ev_sandboxId := None |}
  else Session.ParseError.

Definition errorEvent : Session.RawGenerationEvent :=
  {| Session.type := Some (str "error"); Session.content := None;
     Session.message := Some (str "Process exited with code 1");
     Session.ev_previewUrl := None; Session.ev_sandboxId := None |}.

(** Old and new lines of a file in which the two middle lines change. *)
Definition oldLines : list jsstring := [ str "a"; str "b"; str "c"; str "d" ].
Definition newLines : list jsstring := [ str "a"; str "x"; str "y"; str "z"; str "d" ].

Definition oldText : jsstring := join [LF] oldLines.
Definition newText : jsstring := join [LF] newLines.

(** Calls reaching the rate limiter within one minute. *)
Definition editKey : jsstring := str "sandbox-edit:203.0.113.7".
Definition otherKey : jsstring := str "generate:203.0.113.7".
Definition twoPerMinute : RateLimit.RateLimitOptions :=
  {| RateLimit.limit := 2; RateLimit.windowMs := 60000 |}.

Definition laterCalls : list RateLimitSpec.Call :=
  [ {| RateLimitSpec.key := editKey; RateLimitSpec.options := twoPerMinute;
       RateLimitSpec.now := 2000 |};
    {| RateLimitSpec.key := otherKey; RateLimitSpec.options := twoPerMinute;
       RateLimitSpec.now := 3000 |};
    {| RateLimitSpec.key := editKey; RateLimitSpec.options := twoPerMinute;
       RateLimitSpec.now := 4000 |} ].

(** The segments of the project directory of a sandbox. *)
Definition projectSegments : list jsstring :=
  [ str "home"; str "daytona"; str "website-project" ].

(** Requested paths: a file, the same file written differently, and a
    path that leaves the project. *)
Definition requested : list jsstring :=
  [ str "notes.txt"; str "./notes.txt"; str "../secret" ].

(** A sandbox for the file routes: a file tree on which every command
    succeeds. *)
Definition treeExecute (cmd : FilesRoute.Command) (tree : gmap jsstring jsstring)
    : gmap jsstring jsstring * Exn CommandResult :=
  match cmd with
  | FilesRoute.ListDir _ => (tree, Ok {| exitCode := 0; result := [] |})
  | FilesRoute.CatFile fullPath =>
      match tree !! fullPath with
      | Some text => (tree, Ok {| exitCode := 0; result := text |})
      | None => (tree, Ok {| exitCode := 1; result := [] |})
      end
  | FilesRoute.MakeDir _ => (tree, Ok {| exitCode := 0; result := [] |})
  | FilesRoute.WriteTo fullPath text =>
      (<[fullPath := text]> tree, Ok {| exitCode := 0; result := [] |})
  | FilesRoute.RemoveTree fullPath =>
      (delete fullPath tree, Ok {| exitCode := 0; result := [] |})
  end.

Definition oneFileTree : gmap jsstring jsstring :=
  {[ str "/home/daytona/website-project/src/old.ts" := str "x" ]}.

(** A server that answers every file request with the path as content,
    except for [b.ts]. *)
Definition echoFetch (path : jsstring) (served : nat) : nat * Snapshot.FileResponse :=
  (S served,
   if bool_decide (path = str "b.ts") then Snapshot.NotOk
   else Snapshot.OkResponse (Some path)).

Definition listedPaths : list jsstring := [ str "a.ts"; str "b.ts"; str "c.ts" ].

Definition someCheckpoint : Checkpoints.SandboxCheckpoint :=
  {| Checkpoints.id := str "checkpoint-1";
     Checkpoints.label := str "Before apply";
     Checkpoints.createdAt := 1;
     Checkpoints.prompt := str "build a site";
     Checkpoints.files := [];
     Checkpoints.fileCount := 0;
     Checkpoints.totalBytes := 0;
     Checkpoints.truncated := false |}.

Definition emptyStorage : Checkpoints.LocalStorage :=
  {| Checkpoints.items := ∅; Checkpoints.setItemThrows := false |}.

End Fixtures.

(** ** Part II: properties *)

(** *** Arrays and strings *)

Lemma slice_prefix {A} (l : list A) (n : Z) :
  (0 <= n)%Z -> slice l 0 n = take (Z.to_nat n) l.
Proof.
  intros Hn. unfold slice, rel_index. simpl.
  destruct (Z.ltb_spec n 0); [lia|].
  replace (Z.to_nat (Z.min 0 (Z.of_nat (length l)))) with 0%nat by lia.
  rewrite drop_0.
  destruct (Z.le_ge_cases n (Z.of_nat (length l))) as [H'|H'].
  - f_equal. lia.
  - rewrite !take_ge; [done|lia|lia].
Qed.

Lemma slice_length_le {A} (l : list A) (a b : Z) :
  (0 <= a <= b)%Z -> (Z.of_nat (length (slice l a b)) <= b - a)%Z.
Proof.
  intros H. unfold slice. rewrite length_take. unfold rel_index.
  destruct (Z.ltb_spec a 0); [lia|]. destruct (Z.ltb_spec b 0); lia.
Qed.

Lemma slice_beyond {A} (l : list A) (a b : Z) :
  (Z.of_nat (length l) <= a)%Z -> (0 <= b)%Z -> slice l a b = [].
Proof.
  intros Ha Hb. unfold slice, rel_index.
  destruct (Z.ltb_spec a 0); [lia|]. destruct (Z.ltb_spec b 0); [lia|].
  rewrite drop_ge by lia. by rewrite take_nil.
Qed.

Lemma take_app_take {A} (a b : list A) (n : nat) :
  take n (a ++ take n b) = take n (a ++ b).
Proof.
  rewrite !take_app. f_equal. rewrite take_take. f_equal. lia.
Qed.

Lemma omap_cons {A B} (f : A -> option B) (x : A) (l : list A) :
  omap f (x :: l) = match f x with Some y => y :: omap f l | None => omap f l end.
Proof. done. Qed.

Lemma startsWith_nil (s : jsstring) : startsWith s [] = true.
Proof. by destruct s. Qed.

(** *** Checkpoint store *)

Module CheckpointFacts.
Import Checkpoints.

Lemma load_length (sandboxId : jsstring) (st : LocalStorage) :
  length (loadSandboxCheckpoints sandboxId st) <= 8.
Proof.
  unfold loadSandboxCheckpoints.
  destruct (negb (truthy sandboxId)); [simpl; lia|].
  destruct (items st !! _) as [[| |parsed]|]; try (simpl; lia).
  rewrite slice_prefix by done. rewrite length_take.
  change (Z.to_nat MAX_CHECKPOINTS) with 8. lia.
Qed.

Lemma addCheckpoint_checkpoints sandboxId c pg :
  checkpoints (addCheckpoint sandboxId c pg) = take 8 (c :: checkpoints pg).
Proof. unfold addCheckpoint. simpl. by rewrite slice_prefix. Qed.

Lemma addCheckpoints_checkpoints sandboxId created pg :
  length (checkpoints pg) <= 8 ->
  checkpoints (addCheckpoints sandboxId created pg)
  = take 8 (rev created ++ checkpoints pg).
Proof.
  unfold addCheckpoints. revert pg.
  induction created as [|c cs IH]; intros pg Hlen; simpl.
  - by rewrite take_ge.
  - rewrite IH.
    + rewrite addCheckpoint_checkpoints, take_app_take.
      by rewrite <- app_assoc.
    + rewrite addCheckpoint_checkpoints, length_take. lia.
Qed.

Lemma persist_load sandboxId cps st :
  truthy sandboxId = true -> setItemThrows st = false ->
  loadSandboxCheckpoints sandboxId (persistSandboxCheckpoints sandboxId cps st)
  = take 8 cps.
Proof.
  intros Hid Hset. unfold loadSandboxCheckpoints, persistSandboxCheckpoints.
  rewrite Hid, Hset. simpl. rewrite lookup_insert_eq.
  rewrite !slice_prefix by done.
  change (Z.to_nat MAX_CHECKPOINTS) with 8.
  assert (Hom : forall l : list SandboxCheckpoint,
             omap (fun entry => entry) (map Some l) = l).
  { induction l as [|x l IHl]; [done|]. simpl. f_equal. exact IHl. }
  rewrite Hom, take_take. f_equal.
Qed.

Lemma addCheckpoints_storage sandboxId created c pg :
  truthy sandboxId = true -> setItemThrows (storage pg) = false ->
  let pg' := addCheckpoints sandboxId (created ++ [c]) pg in
  setItemThrows (storage pg') = false /\
  loadSandboxCheckpoints sandboxId (storage pg') = checkpoints pg'.
Proof.
  intros Hid Hset pg'. subst pg'.
  unfold addCheckpoints. rewrite foldl_app. cbn [foldl].
  set (pg1 := foldl _ pg created).
  assert (H1 : setItemThrows (storage pg1) = false).
  { subst pg1. revert pg Hset. induction created as [|x xs IH]; intros pg Hset.
    - done.
    - cbn [foldl]. apply IH. unfold addCheckpoint, persistSandboxCheckpoints.
      cbn [storage]. rewrite Hid, Hset. done. }
  split.
  - unfold addCheckpoint, persistSandboxCheckpoints. cbn [storage].
    by rewrite Hid, H1.
  - rewrite addCheckpoint_checkpoints.
    unfold addCheckpoint. cbn [storage].
    rewrite persist_load by done. rewrite slice_prefix by done.
    by rewrite take_take.
Qed.

(** C8.  Whatever the local storage holds when the page loads its list,
    and whatever checkpoints are then created for that sandbox (oldest
    first in [created]): the list never has more than 8 entries; it is the
    first 8 of the created checkpoints, newest first, followed by the
    loaded ones; once 8 or more were created it is exactly the 8 newest,
    newest first; loading never returns more than 8 entries; and after at
    least one creation with a working [setItem], loading returns the very
    list the page holds. *)
Theorem checkpoint_cap (sandboxId : jsstring) (st : LocalStorage)
    (created : list SandboxCheckpoint) :
  let pg := addCheckpoints sandboxId created (loadPage sandboxId st) in
  length (checkpoints pg) <= 8
  /\ checkpoints pg = take 8 (rev created ++ loadSandboxCheckpoints sandboxId st)
  /\ (8 <= length created -> checkpoints pg = take 8 (rev created))
  /\ length (loadSandboxCheckpoints sandboxId (storage pg)) <= 8
  /\ (truthy sandboxId = true -> setItemThrows st = false -> created <> [] ->
      loadSandboxCheckpoints sandboxId (storage pg) = checkpoints pg).
Proof.
  intros pg.
  assert (Hpg : checkpoints pg
                = take 8 (rev created ++ loadSandboxCheckpoints sandboxId st)).
  { subst pg. rewrite addCheckpoints_checkpoints; [done|]. apply load_length. }
  split; [rewrite Hpg, length_take; lia|].
  split; [done|].
  split.
  { intros H8. rewrite Hpg, take_app.
    replace (8 - length (rev created)) with 0 by (rewrite length_rev; lia).
    by rewrite take_0, app_nil_r. }
  split; [apply load_length|].
  intros Hid Hset Hne.
  destruct (exists_last Hne) as (cs & c & ->).
  subst pg. by apply addCheckpoints_storage.
Qed.

End CheckpointFacts.

(** *** Loops *)

Lemma while_stop {S} (fuel : nat) (cond : S -> bool) (body : S -> S) (s : S) :
  cond s = false -> while fuel cond body s = s.
Proof. intros H. destruct fuel; simpl; [done|]. by rewrite H. Qed.

Lemma while_step {S} (fuel : nat) (cond : S -> bool) (body : S -> S) (s : S) :
  cond s = true ->
  while (Datatypes.S fuel) cond body s = while fuel cond body (body s).
Proof. intros H. simpl. by rewrite H. Qed.

(** *** Diff engine *)

Module DiffFacts.
Import Diff DiffSpec.

Lemma prefix_cond_same (l : list jsstring) (i : Z) :
  (0 <= i < len l)%Z -> prefix_cond l l i = true.
Proof.
  intros H. unfold prefix_cond.
  rewrite bool_decide_true by done.
  destruct (Z.ltb_spec i (len l)); [done|lia].
Qed.

Lemma prefix_cond_end (l l' : list jsstring) : prefix_cond l l' (len l) = false.
Proof. unfold prefix_cond. by rewrite Z.ltb_irrefl. Qed.

Lemma scan_prefix_from (l : list jsstring) (fuel : nat) (i : Z) :
  (0 <= i)%Z -> (i + Z.of_nat fuel = len l)%Z ->
  while fuel (prefix_cond l l) Z.succ i = len l.
Proof.
  revert i. induction fuel as [|fuel IH]; intros i Hi Hsum.
  - simpl. lia.
  - rewrite while_step by (apply prefix_cond_same; lia).
    apply IH; lia.
Qed.

(** On equal line arrays the first loop runs to the end: the loop
    condition is false at the value it returns. *)
Lemma scan_prefix_same (l : list jsstring) :
  scan_prefix l l = len l /\ prefix_cond l l (scan_prefix l l) = false.
Proof.
  assert (H : scan_prefix l l = len l).
  { unfold scan_prefix. apply scan_prefix_from; unfold len; lia. }
  split; [done|]. rewrite H. apply prefix_cond_end.
Qed.

Lemma scan_suffix_same (l : list jsstring) :
  scan_suffix l l (len l) = (len l - 1, len l - 1)%Z
  /\ suffix_cond l l (len l) (scan_suffix l l (len l)) = false.
Proof.
  assert (Hc : suffix_cond l l (len l) (len l - 1, len l - 1)%Z = false).
  { unfold suffix_cond. simpl. destruct (Z.leb_spec (len l) (len l - 1)); [lia|done]. }
  unfold scan_suffix. by rewrite while_stop.
Qed.

Lemma trimDiffLines_short (lines : list jsstring) :
  (len lines <= MAX_DIFF_LINES)%Z -> trimDiffLines lines = lines.
Proof.
  intros H. unfold trimDiffLines.
  destruct (Z.leb_spec (len lines) MAX_DIFF_LINES); [done|lia].
Qed.

Lemma createUnifiedDiff_same_lines (filePath previousContent nextContent : jsstring) :
  previousContent <> nextContent ->
  normalizeLineEndings previousContent = normalizeLineEndings nextContent ->
  createUnifiedDiff filePath previousContent nextContent
  = {| changed := true; additions := 0; deletions := 0;
       diff := join [LF]
                 (contextOnlyHunk filePath
                    (split_on LF (normalizeLineEndings previousContent))) |}.
Proof.
  intros Hne Hnorm. unfold createUnifiedDiff.
  rewrite bool_decide_false by done. rewrite <- Hnorm.
  set (lines := split_on LF (normalizeLineEndings previousContent)).
  destruct (scan_prefix_same lines) as [-> _].
  destruct (scan_suffix_same lines) as [-> _].
  assert (Hrem : removedLines lines (len lines) (len lines - 1) = []).
  { unfold removedLines. destruct (Z.leb_spec (len lines) (len lines - 1)); [lia|done]. }
  assert (Hadd : addedLines lines (len lines) (len lines - 1) = []).
  { unfold addedLines. destruct (Z.leb_spec (len lines) (len lines - 1)); [lia|done]. }
  rewrite Hrem, Hadd.
  assert (Hpost : slice lines (Z.max (len lines - 1 + 1) (len lines))
                    (Z.max (len lines - 1 + 1) (len lines) + DIFF_CONTEXT_LINES) = []).
  { apply slice_beyond; unfold len, DIFF_CONTEXT_LINES; lia. }
  rewrite Hpost. cbn [map len length app].
  rewrite !Z.add_0_r, !app_nil_r.
  change (Z.max 0 (len lines - DIFF_CONTEXT_LINES)) with (Z.max 0 (len lines - 3)).
  set (pre := slice lines _ _).
  assert (Hpre : (len pre <= 3)%Z).
  { subst pre. unfold len.
    pose proof (slice_length_le lines (Z.max 0 (Z.of_nat (length lines) - 3))
                  (Z.of_nat (length lines))). lia. }
  rewrite trimDiffLines_short; [done|].
  unfold len in *. cbn [length]. rewrite length_map.
  unfold MAX_DIFF_LINES. lia.
Qed.

(** C9.  Diffing a text against itself reports no change: [changed] is
    false and both counters are zero, for every path and every text, the
    empty one included. *)
Theorem diff_identity (filePath x : jsstring) :
  changed (createUnifiedDiff filePath x x) = false
  /\ additions (createUnifiedDiff filePath x x) = 0%Z
  /\ deletions (createUnifiedDiff filePath x x) = 0%Z.
Proof.
  unfold createUnifiedDiff. by rewrite bool_decide_true.
Qed.

End DiffFacts.

(** *** Edit orchestration *)

Module OrchestratorFacts.
Import Orchestrator OrchestratorSpec.

Lemma createUnifiedDiff_changed (filePath previous next : jsstring) :
  Diff.changed (Diff.createUnifiedDiff filePath previous next)
  = negb (bool_decide (previous = next)).
Proof.
  unfold Diff.createUnifiedDiff.
  destruct (bool_decide (previous = next)); [done|].
  by destruct (Diff.scan_suffix _ _ _).
Qed.

Section WithSandbox.

Context {Sandbox : Type}.
Variable executeCommand : Command -> Sandbox -> Sandbox * Exn CommandResult.
Variable projectDir : jsstring.

Local Abbreviation readProjectFile := (readProjectFile executeCommand projectDir).
Local Abbreviation previewLoop := (previewLoop executeCommand projectDir).
Local Abbreviation applyLoop := (applyLoop executeCommand projectDir).
Local Abbreviation readsAs := (readsAs executeCommand projectDir).
Local Abbreviation applyEdit := (applyEdit executeCommand projectDir).
Local Abbreviation applyOutcomes := (applyOutcomes executeCommand projectDir).
Local Abbreviation sandboxAfter := (sandboxAfter executeCommand projectDir).
Local Abbreviation respond := (respond executeCommand projectDir).
Local Abbreviation respondTry := (respondTry executeCommand projectDir).

Lemma previewLoop_filter remote sb edits pv eff :
  readsAs remote sb edits ->
  previewLoop edits pv eff sb
  = (sb, Ok (pv ++ omap (fun e => previewFor (remote (editPath e)) e) edits,
             eff ++ filter (fun e => isNoOp (remote (editPath e)) e = false) edits)).
Proof.
  revert pv eff. induction edits as [|e rest IH]; intros pv eff Hreads.
  - simpl. unfold ret. by rewrite !app_nil_r.
  - assert (Hrest : readsAs remote sb rest).
    { intros e' He'. apply Hreads. by right. }
    assert (He : readProjectFile (editPath e) sb = (sb, Ok (remote (editPath e)))).
    { apply Hreads. by left. }
    cbn [Orchestrator.previewLoop]. unfold bind at 1. rewrite He.
    rewrite filter_cons, omap_cons.
    destruct e as [p|p c]; destruct (remote _) as [previous|] eqn:Hr;
      cbn [editPath] in *; rewrite ?Hr;
      cbn [isNoOp previewFor default from_option id andb orb negb].
    + rewrite bool_decide_false by done. cbn [andb orb].
      rewrite IH by done. rewrite decide_True by done.
      rewrite orb_false_r. by rewrite <- !app_assoc.
    + rewrite bool_decide_true by done. cbn [andb].
      rewrite IH by done. by rewrite decide_False by done.
    + rewrite (bool_decide_false (Some previous = None)) by done. cbn [andb orb].
      rewrite !orb_false_r, createUnifiedDiff_changed.
      destruct (bool_decide (previous = c)) eqn:Hpc; cbn [negb].
      * rewrite IH by done. rewrite decide_False by done.
        by rewrite <- !app_assoc.
      * rewrite IH by done. rewrite decide_True by done.
        by rewrite <- !app_assoc.
    + rewrite (bool_decide_true (None = None)) by done. cbn [andb orb].
      rewrite !orb_true_r. rewrite IH by done. rewrite decide_True by done.
      by rewrite <- !app_assoc.
Qed.

Lemma applyLoop_outcomes edits applied failed sb :
  applyLoop edits applied failed sb
  = (sandboxAfter edits sb,
     Ok (applied ++ succeededPaths (applyOutcomes edits sb),
         failed ++ failures (applyOutcomes edits sb))).
Proof.
  revert applied failed sb. induction edits as [|e rest IH]; intros applied failed sb.
  - simpl. unfold ret, succeededPaths, failures. simpl. by rewrite !app_nil_r.
  - cbn [Orchestrator.applyLoop OrchestratorSpec.applyOutcomes
         OrchestratorSpec.sandboxAfter].
    unfold bind at 1, tryCatch, bind at 1.
    change (match e with
            | DeleteEdit p => deleteProjectFile executeCommand projectDir p
            | ContentEdit p c => writeProjectFile executeCommand projectDir p c
            end) with (applyEdit e).
    destruct (applyEdit e sb) as [sb' [[]|message]]; unfold ret; cbn [fst snd].
    + rewrite IH. unfold succeededPaths, failures. rewrite !omap_cons. cbn [fst snd].
      by rewrite <- !app_assoc.
    + rewrite IH. unfold succeededPaths, failures. rewrite !omap_cons. cbn [fst snd].
      by rewrite <- !app_assoc.
Qed.

Lemma applyOutcomes_paths edits sb :
  (applyOutcomes edits sb).*1 = map editPath edits.
Proof.
  revert sb. induction edits as [|e rest IH]; intros sb; [done|].
  cbn [OrchestratorSpec.applyOutcomes].
  destruct (applyEdit e sb) as [sb' [[]|message]]; cbn; by rewrite IH.
Qed.

Lemma applyOutcomes_app edits1 edits2 sb :
  applyOutcomes (edits1 ++ edits2) sb
  = applyOutcomes edits1 sb ++ applyOutcomes edits2 (sandboxAfter edits1 sb).
Proof.
  revert sb. induction edits1 as [|e rest IH]; intros sb; [done|].
  cbn [app OrchestratorSpec.applyOutcomes OrchestratorSpec.sandboxAfter].
  destruct (applyEdit e sb) as [sb' [[]|message]]; cbn [fst]; by rewrite IH.
Qed.

Lemma outcomes_partition (outcomes : list (jsstring * option jsstring)) :
  length (succeededPaths outcomes) + length (failures outcomes) = length outcomes.
Proof.
  unfold succeededPaths, failures.
  induction outcomes as [|[p [reason|]] rest IH]; [done| |];
    rewrite !omap_cons; cbn [fst snd length]; lia.
Qed.

Lemma respond_apply summary notes ctx edits sb sb1 previews effective :
  previewLoop edits [] [] sb = (sb1, Ok (previews, effective)) ->
  effective <> [] ->
  respond apply summary notes ctx edits sb
  = (sandboxAfter effective sb1,
     let applied := succeededPaths (applyOutcomes effective sb1) in
     let failed := failures (applyOutcomes effective sb1) in
     if Nat.eqb (length applied) 0
     then ErrorResponse (str "No edits were applied") 500
     else ApplyResponse
            (if truthy summary then summary
             else str "Applied " ++ showNat (length applied)
                  ++ str " file edit" ++ plural (length applied))
            notes applied failed previews ctx).
Proof.
  intros Hpv Hne. unfold Orchestrator.respond, Orchestrator.respondTry.
  destruct edits as [|e rest].
  { simpl in Hpv. unfold ret in Hpv. congruence. }
  cbn [length Nat.eqb]. unfold bind at 1. rewrite Hpv. cbn [fst snd].
  destruct effective as [|e' rest']; [done|].
  cbn [length Nat.eqb]. unfold bind at 1.
  rewrite applyLoop_outcomes. cbn [fst snd app].
  by destruct (length (succeededPaths _) =? 0)%nat.
Qed.

(** C4, as the route implements it.  Once the preview loop has produced a
    non-empty effective set, apply mode runs every effective edit, each on
    the sandbox its predecessors left, whether or not they failed: there
    is one outcome per edit, in order, and every edit ends up either in
    [applied] or, with a reason, in [failed].  If at least one edit
    succeeded the response carries both lists; if none did, the response
    is the error "No edits were applied" with status 500. *)
Theorem batch_apply_report summary notes ctx edits sb sb1 previews effective :
  previewLoop edits [] [] sb = (sb1, Ok (previews, effective)) ->
  effective <> [] ->
  let outcomes := applyOutcomes effective sb1 in
  let applied := succeededPaths outcomes in
  let failed := failures outcomes in
  outcomes.*1 = map editPath effective
  /\ length applied + length failed = length effective
  /\ (applied <> [] ->
      exists s, respond apply summary notes ctx edits sb
                = (sandboxAfter effective sb1,
                   ApplyResponse s notes applied failed previews ctx))
  /\ (applied = [] ->
      respond apply summary notes ctx edits sb
      = (sandboxAfter effective sb1, ErrorResponse (str "No edits were applied") 500)).
Proof.
  intros Hpv Hne outcomes applied failed.
  pose proof (respond_apply summary notes ctx _ _ _ _ _ Hpv Hne) as Hresp.
  cbn zeta in Hresp. fold outcomes applied failed in Hresp.
  split; [apply applyOutcomes_paths|].
  split.
  { subst applied failed. rewrite outcomes_partition. subst outcomes.
    by rewrite <- (length_fmap fst), applyOutcomes_paths, length_map. }
  split.
  - intros Happ. destruct applied as [|a rest] eqn:E; [done|].
    cbn [length Nat.eqb] in Hresp. eauto.
  - intros Happ. rewrite Happ in Hresp. exact Hresp.
Qed.

(** C5.  Let [remote] be what reading the files of the normalized edits
    gives.  The preview loop completes without touching the sandbox and
    its effective set is exactly the edits that are not no-ops: a content
    edit equal to the remote content of an existing file is left out, so
    is the deletion of a file that does not exist.  When nothing is left
    the route answers with a 422 error response and the sandbox is as it
    was, in preview and in apply mode alike. *)
Theorem noop_edits_filtered mode summary notes ctx remote sb edits :
  readsAs remote sb edits ->
  let effective := filter (fun e => isNoOp (remote (editPath e)) e = false) edits in
  (exists previews, previewLoop edits [] [] sb = (sb, Ok (previews, effective)))
  /\ (forall p c, remote p = Some c -> ContentEdit p c ∉ effective)
  /\ (forall p, remote p = None -> DeleteEdit p ∉ effective)
  /\ (effective = [] ->
      respond mode summary notes ctx edits sb
      = (sb, ErrorResponse
               (if Nat.eqb (length edits) 0
                then str "Model did not return any applicable file edits"
                else str "No file changes detected from instruction") 422)).
Proof.
  intros Hreads effective.
  pose proof (previewLoop_filter remote sb edits [] [] Hreads) as Hpv.
  cbn [app] in Hpv. fold effective in Hpv.
  split; [eauto|].
  split.
  { intros p c Hr Hin. apply list_elem_of_filter in Hin as [Hno _].
    cbn [editPath] in Hno. rewrite Hr in Hno. cbn in Hno.
    by rewrite bool_decide_true in Hno. }
  split.
  { intros p Hr Hin. apply list_elem_of_filter in Hin as [Hno _].
    cbn [editPath] in Hno. rewrite Hr in Hno. done. }
  intros Hempty. unfold Orchestrator.respond, Orchestrator.respondTry.
  destruct (length edits =? 0)%nat eqn:Hlen; [done|].
  unfold bind at 1. rewrite Hpv. cbn [fst snd]. rewrite Hempty. done.
Qed.

(** The apply loop over a list in two parts. *)
Lemma applyLoop_app edits1 edits2 applied failed sb :
  applyLoop (edits1 ++ edits2) applied failed sb
  = match applyLoop edits1 applied failed sb with
    | (sb', Ok af) => applyLoop edits2 af.1 af.2 sb'
    | (sb', Throw message) => (sb', Throw message)
    end.
Proof.
  revert applied failed sb.
  induction edits1 as [|e rest IH]; intros applied failed sb; [done|].
  cbn [app Orchestrator.applyLoop]. unfold bind at 1 3.
  destruct (tryCatch _ _ sb) as [sb' [outcome|message]]; [apply IH|done].
Qed.

(** A file that can be read has a path that resolves. *)
Lemma readProjectFile_resolves filePath sb sb' content :
  readProjectFile filePath sb = (sb', Ok content) ->
  exists fullPath, resolveProjectPath projectDir filePath = Ok fullPath.
Proof.
  unfold Orchestrator.readProjectFile, bind at 1, lift.
  destruct (resolveProjectPath projectDir filePath) as [fullPath|message]; [eauto|done].
Qed.

(** What a write has done when it returns, and why it throws when it
    does. *)
Lemma writeProjectFile_outcome filePath content fullPath sb :
  resolveProjectPath projectDir filePath = Ok fullPath ->
  match writeProjectFile executeCommand projectDir filePath content sb with
  | (sb', Ok _) =>
      exists s r,
        (s = sb \/ exists fullDirPath made,
                     executeCommand (MkdirP fullDirPath) sb = (s, Ok made))
        /\ executeCommand (WriteFile fullPath content) s = (sb', Ok r)
        /\ exitCode r = 0%Z
  | (sb', Throw message) =>
      (exists s r, executeCommand (WriteFile fullPath content) s = (sb', Ok r)
                   /\ exitCode r <> 0%Z
                   /\ message = str "Failed to write " ++ filePath)
      \/ (exists s, executeCommand (WriteFile fullPath content) s = (sb', Throw message))
      \/ (exists fullDirPath,
            executeCommand (MkdirP fullDirPath) sb = (sb', Throw message))
      \/ (sb' = sb /\ resolveProjectPath projectDir (dirname filePath) = Throw message)
  end.
Proof.
  intros Hres. unfold Orchestrator.writeProjectFile. unfold bind at 1, lift.
  rewrite Hres. unfold bind at 1.
  assert (Hwrite : forall s,
            (s = sb \/ exists fullDirPath made,
                         executeCommand (MkdirP fullDirPath) sb = (s, Ok made)) ->
            match
              bind (executeCommand (WriteFile fullPath content))
                (fun result =>
                   if negb (exitCode result =? 0)%Z
                   then throw (str "Failed to write " ++ filePath) else ret tt) s
            with
            | (sb', Ok _) =>
                exists s r,
                  (s = sb \/ exists fullDirPath made,
                               executeCommand (MkdirP fullDirPath) sb = (s, Ok made))
                  /\ executeCommand (WriteFile fullPath content) s = (sb', Ok r)
                  /\ exitCode r = 0%Z
            | (sb', Throw message) =>
                (exists s r, executeCommand (WriteFile fullPath content) s = (sb', Ok r)
                             /\ exitCode r <> 0%Z
                             /\ message = str "Failed to write " ++ filePath)
                \/ (exists s, executeCommand (WriteFile fullPath content) s
                              = (sb', Throw message))
                \/ (exists fullDirPath,
                      executeCommand (MkdirP fullDirPath) sb = (sb', Throw message))
                \/ (sb' = sb
                    /\ resolveProjectPath projectDir (dirname filePath) = Throw message)
            end).
  { intros s Hs. unfold bind.
    destruct (executeCommand (WriteFile fullPath content) s) as [sb' [r|message]] eqn:Hrun.
    - destruct (Z.eqb_spec (exitCode r) 0) as [Hzero|Hnonzero]; cbn [negb].
      + exists s, r. done.
      + left. exists s, r. done.
    - right. left. by exists s. }
  destruct (truthy (dirname filePath) && negb (bool_decide (dirname filePath = str "."))).
  - unfold bind at 1, lift.
    destruct (resolveProjectPath projectDir (dirname filePath)) as [fullDirPath|message].
    + unfold bind at 1.
      destruct (executeCommand (MkdirP fullDirPath) sb) as [s [made|message]] eqn:Hmk.
      * apply Hwrite. right. by exists fullDirPath, made.
      * right. right. left. by exists fullDirPath.
    + right. right. right. done.
  - apply Hwrite. by left.
Qed.

(** Apply mode from the result of its two loops. *)
Lemma respond_apply_loop summary notes ctx edits sb sb1 previews effective
    sb2 applied failed :
  previewLoop edits [] [] sb = (sb1, Ok (previews, effective)) ->
  effective <> [] ->
  applyLoop effective [] [] sb1 = (sb2, Ok (applied, failed)) ->
  (applied = [] /\
   respond apply summary notes ctx edits sb
   = (sb2, ErrorResponse (str "No edits were applied") 500))
  \/ (exists s,
        applied <> [] /\
        respond apply summary notes ctx edits sb
        = (sb2, ApplyResponse s notes applied failed previews ctx)).
Proof.
  intros Hpv Hne Hloop.
  assert (Hresp : respond apply summary notes ctx edits sb
                  = (sb2,
                     if Nat.eqb (length applied) 0
                     then ErrorResponse (str "No edits were applied") 500
                     else ApplyResponse
                            (if truthy summary then summary
                             else str "Applied " ++ showNat (length applied)
                                  ++ str " file edit" ++ plural (length applied))
                            notes applied failed previews ctx)).
  { unfold Orchestrator.respond, Orchestrator.respondTry.
    destruct edits as [|e rest].
    { simpl in Hpv. unfold ret in Hpv. congruence. }
    cbn [length Nat.eqb]. unfold bind at 1. rewrite Hpv. cbn [fst snd].
    destruct effective as [|e' rest']; [done|].
    cbn [length Nat.eqb]. unfold bind at 1. rewrite Hloop. cbn [fst snd].
    by destruct (length applied =? 0)%nat. }
  destruct applied as [|a applied']; cbn [length Nat.eqb] in Hresp; [by left|].
  right. eexists. split; [done|]. exact Hresp.
Qed.

(** C10.  Two texts that differ as strings but have the same lines once
    CRLF is read as LF: the diff engine reports a change with zero
    additions and zero deletions, and its hunk is the three header lines
    followed by context lines only, each starting with a space.  If such
    a text is the new content of an existing file, the edit passes the
    no-op filter, and apply mode, once its loop has gone through the
    effective edits before this one, calls the write of this edit on the
    sandbox they left.  When that write returns, the sandbox has answered
    the write command, given the full path of the file and the new text,
    with exit code 0, after the [mkdir -p] if there was one; the path is
    among the applied paths and the response is the apply report.  When
    it throws, the write command answered another exit code or threw, or
    creating the directory threw, or the directory did not resolve; the
    path is among the failed ones with the reason, and the response is
    the apply report or, if nothing at all was applied, the error
    "No edits were applied". *)
Theorem crlf_only_edit_is_applied filePath previous next :
  previous <> next ->
  Diff.normalizeLineEndings previous = Diff.normalizeLineEndings next ->
  Diff.createUnifiedDiff filePath previous next
  = {| Diff.changed := true; Diff.additions := 0; Diff.deletions := 0;
       Diff.diff :=
         join [LF]
           (DiffSpec.contextOnlyHunk filePath
              (split_on LF (Diff.normalizeLineEndings previous))) |}
  /\ Forall (fun line => startsWith line (str " ") = true)
       (drop 3 (DiffSpec.contextOnlyHunk filePath
                  (split_on LF (Diff.normalizeLineEndings previous))))
  /\ forall remote sb edits summary notes ctx,
       readsAs remote sb edits ->
       remote filePath = Some previous ->
       ContentEdit filePath next ∈ edits ->
       exists previews effective before after fullPath sb1 applied1 failed1,
         previewLoop edits [] [] sb = (sb, Ok (previews, effective))
         /\ effective = before ++ ContentEdit filePath next :: after
         /\ resolveProjectPath projectDir filePath = Ok fullPath
         /\ applyLoop before [] [] sb = (sb1, Ok (applied1, failed1))
         /\ match writeProjectFile executeCommand projectDir filePath next sb1 with
            | (sb2, Ok _) =>
                (exists s r,
                   (s = sb1 \/ exists fullDirPath made,
                                 executeCommand (MkdirP fullDirPath) sb1 = (s, Ok made))
                   /\ executeCommand (WriteFile fullPath next) s = (sb2, Ok r)
                   /\ exitCode r = 0%Z)
                /\ exists sb3 applied failed s,
                     applyLoop effective [] [] sb = (sb3, Ok (applied, failed))
                     /\ applyLoop after (applied1 ++ [filePath]) failed1 sb2
                        = (sb3, Ok (applied, failed))
                     /\ filePath ∈ applied
                     /\ respond apply summary notes ctx edits sb
                        = (sb3, ApplyResponse s notes applied failed previews ctx)
            | (sb2, Throw message) =>
                let reason := if truthy message then message else str "apply failed" in
                ((exists s r, executeCommand (WriteFile fullPath next) s = (sb2, Ok r)
                              /\ exitCode r <> 0%Z
                              /\ message = str "Failed to write " ++ filePath)
                 \/ (exists s, executeCommand (WriteFile fullPath next) s
                               = (sb2, Throw message))
                 \/ (exists fullDirPath,
                       executeCommand (MkdirP fullDirPath) sb1 = (sb2, Throw message))
                 \/ (sb2 = sb1
                     /\ resolveProjectPath projectDir (dirname filePath) = Throw message))
                /\ exists sb3 applied failed,
                     applyLoop effective [] [] sb = (sb3, Ok (applied, failed))
                     /\ applyLoop after applied1 (failed1 ++ [(filePath, reason)]) sb2
                        = (sb3, Ok (applied, failed))
                     /\ (filePath, reason) ∈ failed
                     /\ ((applied = [] /\
                          respond apply summary notes ctx edits sb
                          = (sb3, ErrorResponse (str "No edits were applied") 500))
                         \/ exists s,
                              applied <> [] /\
                              respond apply summary notes ctx edits sb
                              = (sb3, ApplyResponse s notes applied failed previews ctx))
            end.
Proof.
  intros Hne Hnorm.
  split; [by apply DiffFacts.createUnifiedDiff_same_lines|].
  split.
  { unfold DiffSpec.contextOnlyHunk. cbn [drop app].
    apply Forall_forall. intros line Hline.
    apply list_elem_of_fmap in Hline as (l & -> & _).
    cbn. apply startsWith_nil. }
  intros remote sb edits summary notes ctx Hreads Hremote Hin.
  pose proof (previewLoop_filter remote sb edits [] [] Hreads) as Hpv.
  cbn [app] in Hpv.
  set (effective := filter _ edits) in Hpv.
  assert (Heff : ContentEdit filePath next ∈ effective).
  { apply list_elem_of_filter. split; [|done].
    cbn [editPath]. rewrite Hremote. cbn. by rewrite bool_decide_false. }
  apply list_elem_of_split in Heff as (before & after & Heff).
  destruct (readProjectFile_resolves filePath sb sb (remote filePath) (Hreads _ Hin))
    as [fullPath Hres].
  assert (Hnonempty : effective <> []).
  { rewrite Heff. by destruct before. }
  pose proof (applyLoop_outcomes before [] [] sb) as Hbefore. cbn [app] in Hbefore.
  set (sb1 := sandboxAfter before sb) in Hbefore.
  set (applied1 := succeededPaths (applyOutcomes before sb)) in Hbefore.
  set (failed1 := failures (applyOutcomes before sb)) in Hbefore.
  exists (omap (fun e => previewFor (remote (editPath e)) e) edits), effective,
    before, after, fullPath, sb1, applied1, failed1.
  split; [done|]. split; [done|]. split; [done|]. split; [done|].
  pose proof (writeProjectFile_outcome filePath next fullPath sb1 Hres) as Hout.
  assert (Hloop : applyLoop effective [] [] sb
                  = match writeProjectFile executeCommand projectDir filePath next sb1 with
                    | (sb2, Ok _) => applyLoop after (applied1 ++ [filePath]) failed1 sb2
                    | (sb2, Throw message) =>
                        applyLoop after applied1
                          (failed1 ++ [(filePath,
                                        if truthy message then message
                                        else str "apply failed")]) sb2
                    end).
  { rewrite Heff, applyLoop_app, Hbefore. cbn [fst snd Orchestrator.applyLoop].
    unfold bind at 1, tryCatch, bind at 1.
    by destruct (writeProjectFile executeCommand projectDir filePath next sb1)
      as [sb2 [[]|message]]. }
  destruct (writeProjectFile executeCommand projectDir filePath next sb1)
    as [sb2 [[]|message]].
  - split; [exact Hout|].
    pose proof (applyLoop_outcomes after (applied1 ++ [filePath]) failed1 sb2) as Hafter.
    rewrite Hafter in Hloop.
    destruct (respond_apply_loop summary notes ctx edits sb sb _ effective _ _ _
                Hpv Hnonempty Hloop) as [[Hnil _]|(s & _ & Hresp)].
    { by destruct applied1. }
    eexists _, _, _, s. split; [exact Hloop|]. split; [exact Hafter|].
    split; [|exact Hresp].
    apply elem_of_app. left. apply elem_of_app. right. by apply list_elem_of_singleton.
  - cbn zeta. split; [exact Hout|].
    set (reason := if truthy message then message else str "apply failed") in *.
    pose proof (applyLoop_outcomes after applied1 (failed1 ++ [(filePath, reason)]) sb2)
      as Hafter.
    rewrite Hafter in Hloop.
    eexists _, _, _. split; [exact Hloop|]. split; [exact Hafter|].
    split.
    { apply elem_of_app. left. apply elem_of_app. right. by apply list_elem_of_singleton. }
    exact (respond_apply_loop summary notes ctx edits sb sb _ effective _ _ _
             Hpv Hnonempty Hloop).
Qed.

End WithSandbox.
End OrchestratorFacts.

(** *** Generation session *)

Module SessionFacts.
Import Session SessionSpec.

Lemma inferStage_matched (message : jsstring) (current : Stage.t) :
  inferStageFromProgress message current = default current (matchedStage message).
Proof.
  unfold inferStageFromProgress, matchedStage.
  repeat (match goal with |- context [if ?b then _ else _] => destruct b end; try done).
Qed.

#[local] Instance stage_le_trans : Transitive Stage.le.
Proof. unfold Stage.le. intros a b c. lia. Qed.

Lemma stageTrace_sorted (messages : list jsstring) (current : Stage.t) :
  StronglySorted Stage.le (omap matchedStage messages) ->
  Forall (Stage.le current) (omap matchedStage messages) ->
  StronglySorted Stage.le (current :: stageTrace current messages).
Proof.
  revert current. induction messages as [|m rest IH]; intros current Hsorted Hle.
  - repeat constructor.
  - cbn [stageTrace]. rewrite inferStage_matched.
    rewrite omap_cons in Hsorted, Hle.
    destruct (matchedStage m) as [s|] eqn:Hm; cbn [default from_option id].
    + apply StronglySorted_inv in Hsorted as [Hrest Hs].
      apply Forall_cons in Hle as [Hcs Hcrest].
      specialize (IH s Hrest Hs).
      constructor; [exact IH|].
      apply StronglySorted_inv in IH as [_ Hall].
      constructor; [done|].
      eapply Forall_impl; [exact Hall|]. intros x Hx. by etrans.
    + specialize (IH current Hsorted Hle).
      constructor; [exact IH|].
      constructor; [unfold Stage.le; lia|].
      by apply StronglySorted_inv in IH as [_ Hall].
Qed.

(** C2, as the classifier implements it.  The derived stage is the stage
    of the first keyword group the message matches, whatever the current
    stage is, and the current stage when no group matches.  So the stages
    derived from a sequence of messages, starting from [queued], never
    decrease provided the stages the messages match are themselves in
    non-decreasing order. *)
Theorem stage_trace_follows_matches (messages : list jsstring) :
  (forall message current,
      inferStageFromProgress message current
      = default current (matchedStage message))
  /\ (nondecreasing (omap matchedStage messages) ->
      nondecreasing (Stage.queued :: stageTrace Stage.queued messages)).
Proof.
  split; [apply inferStage_matched|].
  intros Hsorted. apply StronglySorted_Sorted. apply stageTrace_sorted.
  - by apply Sorted_StronglySorted; [apply stage_le_trans|].
  - apply Forall_forall. intros s _. unfold Stage.le. simpl. lia.
Qed.

Section WithParser.

Variable JSON_parse : jsstring -> Parsed.

Local Abbreviation processFrame := (processFrame JSON_parse).
Local Abbreviation processFrames := (processFrames JSON_parse).
Local Abbreviation processTrailingFrame := (processTrailingFrame JSON_parse).
Local Abbreviation processTrailingFrames := (processTrailingFrames JSON_parse).
Local Abbreviation resumeRead := (resumeRead JSON_parse).
Local Abbreviation feedChunks := (feedChunks JSON_parse).
Local Abbreviation beforeStreamEnd := (beforeStreamEnd JSON_parse).

Lemma reading_onComplete e s : reading s -> reading (onComplete e s).
Proof. intros [He _]. split; [done|by right]. Qed.

Lemma processFrame_continue frame h rd h' rd' :
  processFrame frame h rd = (h', rd', false) ->
  parserStateRef h' = parserStateRef h
  /\ rd' = rd || bool_decide (frame = str "[DONE]")
  /\ (reading (state h) -> reading (state h')).
Proof.
  unfold Session.processFrame.
  destruct (bool_decide (frame = str "[DONE]")) eqn:Hdone.
  { intros [= <- <-]. by rewrite orb_true_r. }
  rewrite orb_false_r.
  destruct (JSON_parse frame) as [| |[] e]; try (intros [= <- <-]; done).
  destruct (type e) as [ty|]; [|intros [= <- <-]; done].
  destruct (bool_decide (ty = str "error")); [done|].
  destruct (bool_decide (ty = str "complete")).
  { intros [= <- <-]. split; [done|]. split; [done|]. apply reading_onComplete. }
  match goal with |- context [appendMessage e ?x] => set (h1 := x) end.
  assert (H1 : parserStateRef h1 = parserStateRef h
               /\ (reading (state h) -> reading (state h1))).
  { subst h1. destruct (_ && _); [|done]. split; [done|]. by intros []. }
  destruct H1 as [Hp1 Hr1].
  intros [= <- <-]. cbn [appendMessage setState parserStateRef state].
  split; [done|]. split; [done|]. intros Hr. apply Hr1 in Hr as []. by split.
Qed.

Lemma processFrames_continue frames h rd h' rd' :
  processFrames frames h rd = (h', rd', false) ->
  parserStateRef h' = parserStateRef h
  /\ rd' = rd || hasDone frames
  /\ (reading (state h) -> reading (state h')).
Proof.
  revert h rd. induction frames as [|frame rest IH]; intros h rd.
  - simpl. intros [= <- <-]. by rewrite orb_false_r.
  - cbn [Session.processFrames].
    destruct (processFrame frame h rd) as [[h1 rd1] returned] eqn:H1.
    destruct returned; [done|]. intros Hrest.
    apply processFrame_continue in H1 as (Hp1 & Hrd1 & Hs1).
    apply IH in Hrest as (Hp & Hrd & Hs).
    split; [congruence|]. split; [|auto].
    rewrite Hrd, Hrd1. cbn [hasDone existsb]. by rewrite orb_assoc.
Qed.

Lemma processTrailingFrame_continue frame h rd h' rd' :
  processTrailingFrame frame h rd = (h', rd', false) ->
  rd' = rd || bool_decide (frame = str "[DONE]")
  /\ (reading (state h) -> reading (state h')).
Proof.
  unfold Session.processTrailingFrame.
  destruct (bool_decide (frame = str "[DONE]")) eqn:Hdone.
  { intros [= <- <-]. by rewrite orb_true_r. }
  rewrite orb_false_r.
  destruct (JSON_parse frame) as [| |t e]; try (intros [= <- <-]; done).
  destruct (bool_decide (type e = Some (str "error"))); [done|].
  destruct (bool_decide (type e = Some (str "complete"))).
  { intros [= <- <-]. split; [done|]. apply reading_onComplete. }
  intros [= <- <-]. split; [done|]. by intros [].
Qed.

Lemma processTrailingFrames_continue frames h rd h' rd' :
  processTrailingFrames frames h rd = (h', rd', false) ->
  rd' = rd || hasDone frames
  /\ (reading (state h) -> reading (state h')).
Proof.
  revert h rd. induction frames as [|frame rest IH]; intros h rd.
  - simpl. intros [= <- <-]. by rewrite orb_false_r.
  - cbn [Session.processTrailingFrames].
    destruct (processTrailingFrame frame h rd) as [[h1 rd1] returned] eqn:H1.
    destruct returned; [done|]. intros Hrest.
    apply processTrailingFrame_continue in H1 as (Hrd1 & Hs1).
    apply IH in Hrest as (Hrd & Hs).
    split; [|auto].
    rewrite Hrd, Hrd1. cbn [hasDone existsb]. by rewrite orb_assoc.
Qed.

Lemma feedChunks_continue chunks r h h' r' :
  feedChunks chunks r h = (h', AwaitRead r') ->
  parserStateRef h' = (Sse.feedAll (parserStateRef h) chunks).1
  /\ receivedDone r' = receivedDone r || hasDone (Sse.feedAll (parserStateRef h) chunks).2
  /\ (reading (state h) -> reading (state h')).
Proof.
  revert r h. induction chunks as [|chunk rest IH]; intros r h.
  - simpl. intros [= <- <-]. by rewrite orb_false_r.
  - cbn [SessionSpec.feedChunks Sse.feedAll]. unfold Session.resumeRead.
    destruct (Sse.consumeSseDataFrames (parserStateRef h) chunk) as [parser1 frames1].
    destruct (processFrames frames1 (setParserStateRef parser1 h) (receivedDone r))
      as [[h1 rd1] returned] eqn:H1.
    destruct returned; [done|]. intros Hrest.
    apply processFrames_continue in H1 as (Hp1 & Hrd1 & Hs1).
    apply IH in Hrest as (Hp & Hrd & Hs). cbn [receivedDone] in Hrd.
    cbn [parserStateRef setParserStateRef state] in Hp1, Hs1.
    rewrite Hp1 in Hp, Hrd.
    destruct (Sse.feedAll parser1 rest) as [parser2 frames2].
    cbn [fst snd] in *.
    split; [done|]. split; [|auto].
    rewrite Hrd, Hrd1. unfold hasDone. by rewrite existsb_app, orb_assoc.
Qed.

Lemma resumeRead_done r h :
  resumeRead ReadDone r h
  = match beforeStreamEnd r h with
    | Some (h1, rd) => (finally r (setState (onStreamEnd rd) h1), Returned)
    | None =>
        (finally r
           (processTrailingFrames (Sse.flushSseDataFrames (parserStateRef h)).2
              (setParserStateRef (Sse.flushSseDataFrames (parserStateRef h)).1 h)
              (receivedDone r)).1.1,
         Returned)
    end.
Proof.
  unfold Session.resumeRead, SessionSpec.beforeStreamEnd.
  destruct (Sse.flushSseDataFrames (parserStateRef h)) as [parser' trailing].
  cbn [fst snd].
  destruct (processTrailingFrames trailing _ _) as [[h1 rd] returned].
  by destruct returned.
Qed.

Lemma finally_state r h : state (finally r h) = state h.
Proof. unfold finally. by destruct (bool_decide _). Qed.

(** The final state update on any session. *)
Lemma onStreamEnd_cases rd s :
  (lifecycle s = Lifecycle.failed \/ lifecycle s = Lifecycle.canceled ->
   onStreamEnd rd s = s)
  /\ (lifecycle s <> Lifecycle.failed -> lifecycle s <> Lifecycle.canceled ->
      lifecycle (onStreamEnd rd s)
      = (if truthyOpt (previewUrl s) then Lifecycle.ready else Lifecycle.failed)
      /\ error (onStreamEnd rd s)
         = (if truthyOpt (previewUrl s) then error s
            else if truthyOpt (error s) then error s
            else Some (if rd then MSG_NO_PREVIEW else MSG_ENDED_EARLY))).
Proof.
  unfold onStreamEnd. split.
  - intros [-> | ->]; done.
  - intros Hfailed Hcanceled.
    rewrite bool_decide_false by done. rewrite bool_decide_false by done.
    cbn [orb lifecycle error]. done.
Qed.

(** One run on its own, up to the end of its stream: no error is
    recorded and the lifecycle is [streaming] or [provisioning_preview]
    when [start] reaches its final state update, and the flag tells
    whether the sentinel was among the decoded frames. *)
Lemma single_run_reading prompt h0 h1 r chunks h2 r2 h3 rd :
  start prompt h0 = (h1, AwaitFetch r) ->
  feedChunks chunks r (resumeFetch (ResponseOk true) r h1).1 = (h2, AwaitRead r2) ->
  beforeStreamEnd r2 h2 = Some (h3, rd) ->
  reading (state h3) /\ rd = hasDone (Sse.decode chunks).
Proof.
  intros Hstart Hfeed Hend.
  unfold start in Hstart.
  destruct (negb (truthy (trim prompt))); [done|].
  injection Hstart as <- <-.
  unfold resumeFetch in Hfeed. cbn [requestId requestIdRef] in Hfeed.
  rewrite bool_decide_true in Hfeed by done. cbn [negb fst] in Hfeed.
  apply feedChunks_continue in Hfeed as (Hparser & Hrd & Hreading).
  cbn [parserStateRef setState resetForRun receivedDone orb state] in Hparser, Hrd, Hreading.
  assert (Hr2 : reading (state h2)).
  { apply Hreading. split; [done|by left]. }
  unfold SessionSpec.beforeStreamEnd in Hend.
  destruct (Sse.flushSseDataFrames (parserStateRef h2)) as [parser' trailing] eqn:Hflush.
  destruct (processTrailingFrames trailing _ _) as [[h3' rd'] returned] eqn:Htrail.
  destruct returned; [done|]. injection Hend as -> ->.
  apply processTrailingFrames_continue in Htrail as (Hrd' & Hreading').
  split; [by apply Hreading'|].
  rewrite Hrd', Hrd. unfold Sse.decode.
  rewrite Hparser in Hflush.
  destruct (Sse.feedAll Sse.createSseParserState chunks) as [st frames].
  cbn [fst snd] in *. rewrite Hflush. cbn [snd].
  unfold hasDone. by rewrite existsb_app.
Qed.

(** C6, as the hook implements it.  A call of [start] whose reader
    reports the end of the stream reaches its final state update, on
    whatever session the hook holds by then.  A lifecycle that is failed
    or canceled is left as it is.  Otherwise the lifecycle becomes
    [ready] if a preview URL was recorded and [failed] if not; in the
    failed case an error message that is already recorded is kept, and
    when none is recorded the error is one message when the [[DONE]]
    sentinel was received and a different one when it was not.  In a run
    that goes from its [start] to the end of its stream on its own, the
    lifecycle at that point is [streaming] or [provisioning_preview], no
    error message is recorded, and the sentinel was received exactly when
    it is among the decoded frames. *)
Theorem stream_end_resolution r h h3 rd :
  beforeStreamEnd r h = Some (h3, rd) ->
  let final := state (resumeRead ReadDone r h).1 in
  (lifecycle (state h3) = Lifecycle.failed \/ lifecycle (state h3) = Lifecycle.canceled ->
   final = state h3)
  /\ (lifecycle (state h3) <> Lifecycle.failed ->
      lifecycle (state h3) <> Lifecycle.canceled ->
      lifecycle final
      = (if truthyOpt (previewUrl (state h3)) then Lifecycle.ready else Lifecycle.failed)
      /\ (truthyOpt (previewUrl (state h3)) = false ->
          error final
          = (if truthyOpt (error (state h3)) then error (state h3)
             else Some (if rd then MSG_NO_PREVIEW else MSG_ENDED_EARLY))))
  /\ MSG_NO_PREVIEW <> MSG_ENDED_EARLY
  /\ (forall prompt h0 h1 r0 chunks,
        start prompt h0 = (h1, AwaitFetch r0) ->
        feedChunks chunks r0 (resumeFetch (ResponseOk true) r0 h1).1 = (h, AwaitRead r) ->
        reading (state h3) /\ rd = hasDone (Sse.decode chunks)).
Proof.
  intros Hend final.
  assert (Hfinal : final = onStreamEnd rd (state h3)).
  { subst final. rewrite resumeRead_done, Hend. cbn [fst]. rewrite finally_state. done. }
  destruct (onStreamEnd_cases rd (state h3)) as [Hkept Hresolved].
  split; [intros Hguard; rewrite Hfinal; by apply Hkept|].
  split.
  { intros Hfailed Hcanceled. rewrite Hfinal.
    destruct (Hresolved Hfailed Hcanceled) as [Hlife Herr].
    split; [exact Hlife|]. intros Hnone. rewrite Herr, Hnone. done. }
  split; [vm_compute; congruence|].
  intros prompt h0 h1 r0 chunks Hstart Hfeed.
  exact (single_run_reading prompt h0 h1 r0 chunks h r h3 rd Hstart Hfeed Hend).
Qed.

End WithParser.

End SessionFacts.

(** *** Path normalizer *)

Module PathFacts.
Import PosixPath.

Lemma ascii_eqb_decide (a b : ascii) : Ascii.eqb a b = bool_decide (a = b).
Proof.
  destruct (Ascii.eqb_spec a b).
  - by rewrite bool_decide_true.
  - by rewrite bool_decide_false.
Qed.

(** Characters survive the string operations of the normalizer only if
    they were there before. *)
Lemma elem_of_trimStart (x : ascii) (s : jsstring) : x ∈ trimStart s -> x ∈ s.
Proof.
  induction s as [|c s IH]; simpl; [done|].
  destruct (isWhiteSpace c); [|done]. intros H. right. auto.
Qed.

Lemma elem_of_trim (x : ascii) (s : jsstring) : x ∈ trim s -> x ∈ s.
Proof.
  unfold trim, trimEnd. intros H.
  apply elem_of_trimStart. apply list_elem_of_In, in_rev, list_elem_of_In.
  apply elem_of_trimStart. by apply list_elem_of_In, in_rev, list_elem_of_In.
Qed.

Lemma elem_of_replace_backslashes (x : ascii) (s : jsstring) :
  x ∈ replace_backslashes s -> x ∈ s \/ x = SLASH.
Proof.
  unfold replace_backslashes. intros H.
  apply list_elem_of_fmap in H as (c & -> & Hc).
  destruct (Ascii.eqb c BACKSLASH); [by right|by left].
Qed.

Lemma split_on_cons (sep c : ascii) (s : jsstring) :
  split_on sep (c :: s)
  = if Ascii.eqb c sep then [] :: split_on sep s
    else match split_on sep s with
         | cur :: rest => (c :: cur) :: rest
         | [] => [[c]]
         end.
Proof. done. Qed.

Lemma split_on_nonempty (sep : ascii) (s : jsstring) : split_on sep s <> [].
Proof.
  destruct s as [|c s]; simpl; [done|].
  destruct (Ascii.eqb c sep); [done|]. by destruct (split_on sep s).
Qed.

Lemma elem_of_split_on (sep x : ascii) (s seg : jsstring) :
  seg ∈ split_on sep s -> x ∈ seg -> x ∈ s /\ x <> sep.
Proof.
  revert seg. induction s as [|c s IH]; intros seg Hseg Hx.
  - simpl in Hseg. apply list_elem_of_singleton in Hseg as ->. by apply elem_of_nil in Hx.
  - rewrite split_on_cons in Hseg.
    destruct (Ascii.eqb_spec c sep) as [->|Hc].
    + apply elem_of_cons in Hseg as [->|Hseg]; [by apply elem_of_nil in Hx|].
      destruct (IH _ Hseg Hx). split; [by right|done].
    + pose proof (split_on_nonempty sep s) as Hne.
      destruct (split_on sep s) as [|cur rest]; [done|].
      apply elem_of_cons in Hseg as [->|Hseg].
      * apply elem_of_cons in Hx as [->|Hx]; [split; [by left|done]|].
        destruct (IH cur ltac:(by left) Hx). split; [by right|done].
      * destruct (IH seg ltac:(by right) Hx). split; [by right|done].
Qed.

Lemma elem_of_join (x : ascii) (sep : jsstring) (parts : list jsstring) :
  x ∈ join sep parts -> x ∈ sep \/ exists part, part ∈ parts /\ x ∈ part.
Proof.
  induction parts as [|p rest IH]; simpl.
  - intros H. by apply elem_of_nil in H.
  - destruct rest as [|q rest'].
    + intros H. right. exists p. split; [by left|done].
    + rewrite !elem_of_app. intros [H|[H|H]].
      * right. exists p. split; [by left|done].
      * by left.
      * destruct (IH H) as [?|(part & Hp & Hx)]; [by left|].
        right. exists part. split; [by right|done].
Qed.

(** Splitting what [join] produced gives the parts back, as long as no
    part holds the separator. *)
Lemma split_on_app_sep (sep : ascii) (p s : jsstring) :
  sep ∉ p -> split_on sep (p ++ sep :: s) = p :: split_on sep s.
Proof.
  induction p as [|c p IH]; intros Hp.
  - simpl. by rewrite Ascii.eqb_refl.
  - cbn [app]. rewrite split_on_cons.
    destruct (Ascii.eqb_spec c sep) as [->|Hc].
    + exfalso. apply Hp. by left.
    + rewrite IH; [done|]. intros H. apply Hp. by right.
Qed.

Lemma split_on_plain (sep : ascii) (p : jsstring) :
  sep ∉ p -> split_on sep p = [p].
Proof.
  induction p as [|c p IH]; intros Hp; [done|].
  rewrite split_on_cons.
  destruct (Ascii.eqb_spec c sep) as [->|Hc].
  - exfalso. apply Hp. by left.
  - rewrite IH; [done|]. intros H. apply Hp. by right.
Qed.

Lemma split_on_join (sep : ascii) (parts : list jsstring) :
  parts <> [] -> Forall (fun p => sep ∉ p) parts ->
  split_on sep (join [sep] parts) = parts.
Proof.
  induction parts as [|p rest IH]; intros Hne Hall; [done|].
  apply Forall_cons in Hall as [Hp Hrest].
  destruct rest as [|q rest'].
  - simpl. by apply split_on_plain.
  - change (join [sep] (p :: q :: rest')) with (p ++ sep :: join [sep] (q :: rest')).
    rewrite split_on_app_sep by done. f_equal. by apply IH.
Qed.

Lemma split_on_join_trailing (sep : ascii) (parts : list jsstring) :
  parts <> [] -> Forall (fun p => sep ∉ p) parts ->
  split_on sep (join [sep] parts ++ [sep]) = parts ++ [[]].
Proof.
  induction parts as [|p rest IH]; intros Hne Hall; [done|].
  apply Forall_cons in Hall as [Hp Hrest].
  destruct rest as [|q rest'].
  - simpl. by rewrite split_on_app_sep.
  - change (join [sep] (p :: q :: rest')) with (p ++ sep :: join [sep] (q :: rest')).
    rewrite <- app_assoc. cbn [app].
    rewrite split_on_app_sep by done. cbn [app]. f_equal. by apply IH.
Qed.

Import NormalizerSpec.

Lemma rev_replicate {A} (k : nat) (x : A) : rev (replicate k x) = replicate k x.
Proof.
  induction k as [|k IH]; [done|].
  cbn [replicate rev]. rewrite IH.
  clear IH. induction k as [|k IH]; [done|]. cbn [replicate app]. by rewrite IH.
Qed.

(** [normalizeString] with [allowAboveRoot]: the result is some [..]
    segments followed by kept segments of the input. *)
Lemma normalizeString_form (segs0 segs res ns : list jsstring) (k : nat) :
  (forall s, s ∈ segs -> s ∈ segs0) ->
  res = ns ++ replicate k (str "..") ->
  Forall (keptSegment segs0) ns ->
  exists ns' k',
    normalizeString true segs res = replicate k' (str "..") ++ ns'
    /\ Forall (keptSegment segs0) ns'.
Proof.
  revert res ns k. induction segs as [|seg segs IH]; intros res ns k Hsub Hres Hns.
  - exists (rev ns), k. cbn [normalizeString]. subst res.
    rewrite rev_app_distr, rev_replicate. split; [done|].
    apply Forall_forall. intros x Hx.
    apply list_elem_of_In, in_rev, list_elem_of_In in Hx.
    by eapply Forall_forall in Hns.
  - assert (Hsub' : forall s, s ∈ segs -> s ∈ segs0).
    { intros s Hs. apply Hsub. by right. }
    cbn [normalizeString].
    destruct (bool_decide (seg = [])) eqn:E1; cbn [orb].
    { by eapply IH. }
    destruct (bool_decide (seg = str ".")) eqn:E2; cbn [orb].
    { by eapply IH. }
    apply bool_decide_eq_false in E1, E2.
    destruct (bool_decide (seg = str "..")) eqn:E3.
    + destruct res as [|top res'].
      * apply (IH _ [] 1%nat); [done|done|constructor].
      * destruct (bool_decide (top = str "..")) eqn:E4.
        -- apply bool_decide_eq_true in E4. subst top.
           destruct ns as [|n ns1].
           ++ apply (IH _ [] (S k)); [done| |constructor].
              cbn [app] in Hres. rewrite Hres. done.
           ++ exfalso. cbn [app] in Hres. injection Hres as <- _.
              apply Forall_cons in Hns as [(_ & _ & _ & Hn) _]. done.
        -- apply bool_decide_eq_false in E4.
           destruct ns as [|n ns1].
           ++ exfalso. cbn [app] in Hres. destruct k as [|k]; [done|].
              cbn [replicate] in Hres. injection Hres as -> _. done.
           ++ cbn [app] in Hres. injection Hres as -> ->.
              apply Forall_cons in Hns as [_ Hns1].
              by apply (IH _ ns1 k).
    + apply bool_decide_eq_false in E3.
      apply (IH _ (seg :: ns) k); [done|by rewrite Hres|].
      constructor; [|done]. split; [apply Hsub; by left|done].
Qed.

Lemma keptSegment_no_slash (s : jsstring) (seg : jsstring) :
  keptSegment (split_on SLASH s) seg -> SLASH ∉ seg.
Proof.
  intros (Hin & _) Hx. by destruct (elem_of_split_on SLASH SLASH s seg Hin Hx).
Qed.

Lemma stripDotSlashes_kept (s : jsstring) (seg rest : jsstring) :
  keptSegment (split_on SLASH s) seg ->
  (rest = [] \/ exists rest', rest = SLASH :: rest') ->
  stripDotSlashes (seg ++ rest) = seg ++ rest.
Proof.
  intros Hk Hrest. pose proof (keptSegment_no_slash _ _ Hk) as Hns.
  destruct Hk as (_ & Hne & Hdot & _).
  destruct seg as [|c [|d seg']]; [done| |].
  - destruct Hrest as [->|(rest' & ->)]; [done|].
    cbn [app stripDotSlashes].
    destruct (Ascii.eqb_spec c DOT) as [->|Hc]; [done|done].
  - cbn [app stripDotSlashes].
    destruct (Ascii.eqb_spec d SLASH) as [->|Hd]; [|by rewrite andb_false_r].
    exfalso. apply Hns. right. by left.
Qed.

Lemma indexOf_from_single (x : ascii) (s : jsstring) (i : Z) :
  (0 <= i)%Z -> indexOf_from s [x] i = (-1)%Z -> x ∉ s.
Proof.
  revert i. induction s as [|c s IH]; intros i Hi; simpl.
  - intros _ H. by apply elem_of_nil in H.
  - destruct (Ascii.eqb_spec x c) as [->|Hxc]; cbn [andb].
    + rewrite startsWith_nil. lia.
    + intros H Hin. apply elem_of_cons in Hin as [?|Hin]; [done|].
      revert Hin. apply (IH (i + 1)%Z); [lia|done].
Qed.

Lemma includes_single (x : ascii) (s : jsstring) :
  includes s [x] = false -> x ∉ s.
Proof.
  unfold includes, indexOf. intros H. apply negb_false_iff, Z.eqb_eq in H.
  by apply (indexOf_from_single x s 0).
Qed.

Lemma join_cons_form (sep : jsstring) (p : jsstring) (rest : list jsstring) :
  join sep (p :: rest) = p ++ (match rest with [] => [] | _ => sep ++ join sep rest end).
Proof. destruct rest; simpl; [by rewrite app_nil_r|done]. Qed.

(** [path.posix.normalize] on a non-empty relative path. *)
Lemma normalize_relative (ni : jsstring) :
  ni <> [] -> startsWith ni [SLASH] = false ->
  exists ns k,
    Forall (keptSegment (split_on SLASH ni)) ns
    /\ PosixPath.normalize ni
       = match join [SLASH] (replicate k (str "..") ++ ns) with
         | [] => if bool_decide (last ni = Some SLASH) then str "./" else str "."
         | _ => join [SLASH] (replicate k (str "..") ++ ns)
                ++ (if bool_decide (last ni = Some SLASH) then [SLASH] else [])
         end.
Proof.
  intros Hne Habs.
  destruct (normalizeString_form (split_on SLASH ni) (split_on SLASH ni) [] [] 0)
    as (ns & k & Hform & Hkept); [done|done|constructor|].
  exists ns, k. split; [done|].
  unfold PosixPath.normalize. destruct ni as [|c0 ni'] eqn:Eni; [done|].
  rewrite <- Eni in *. rewrite Habs. cbn [negb]. rewrite Hform.
  destruct (join [SLASH] _) as [|j0 J]; [done|].
  destruct (bool_decide (last ni = Some SLASH)); [done|by rewrite app_nil_r].
Qed.

(** Every non-empty path the normalizer returns is clean. *)
Lemma normalizeRelativeSandboxPath_clean (rawPath p : jsstring) :
  normalizeRelativeSandboxPath rawPath = Ok p -> p <> [] -> cleanPath p.
Proof.
  unfold normalizeRelativeSandboxPath.
  destruct (includes rawPath [NUL]) eqn:Hnul; [done|].
  apply includes_single in Hnul.
  set (ni := trim (replace_backslashes rawPath)).
  assert (Hchars : forall x, x ∈ ni -> x ∈ rawPath \/ x = SLASH).
  { intros x Hx. apply elem_of_trim in Hx. by apply elem_of_replace_backslashes. }
  destruct (truthy ni) eqn:Hni; cbn [negb]; [|by intros [= <-]].
  destruct (startsWith ni [SLASH]) eqn:Habs; [done|].
  destruct (normalize_relative ni) as (ns & k & Hkept & ->); [by destruct ni|done|].
  set (t := if bool_decide (last ni = Some SLASH) then [SLASH] else []).
  assert (Ht : t = [] \/ t = [SLASH]).
  { subst t. destruct (bool_decide _); auto. }
  destruct k as [|k].
  - cbn [replicate app]. destruct ns as [|s1 more].
    + (* nothing is kept: the result is [.] or [./] *)
      cbn [join]. destruct (bool_decide (last ni = Some SLASH)); cbn; by intros [= <-].
    + (* kept segments only *)
      apply Forall_cons in Hkept as [Hs1 Hmore].
      pose proof (keptSegment_no_slash _ _ Hs1) as Hs1slash.
      assert (Hall : Forall (fun q => SLASH ∉ q) (s1 :: more)).
      { constructor; [done|]. eapply Forall_impl; [exact Hmore|].
        intros q Hq. by eapply keptSegment_no_slash. }
      assert (HJ : join [SLASH] (s1 :: more) <> []).
      { rewrite join_cons_form. destruct Hs1 as (_ & ? & _). by destruct s1. }
      destruct (join [SLASH] (s1 :: more)) as [|j0 J] eqn:EJ; [done|].
      rewrite <- EJ. clear HJ.
      assert (Hstrip : stripDotSlashes (join [SLASH] (s1 :: more) ++ t)
                       = join [SLASH] (s1 :: more) ++ t).
      { rewrite join_cons_form, <- app_assoc.
        apply (stripDotSlashes_kept ni); [done|].
        destruct more as [|m more']; [|right; eauto].
        destruct Ht as [->| ->]; [by left|right; by exists []]. }
      rewrite Hstrip.
      destruct (_ || _); [done|].
      destruct (bool_decide (_ = str ".")); [by intros [= <-]|].
      intros Heq _.
      replace p with (join [SLASH] (s1 :: more) ++ t) by congruence. clear Heq.
      split; [by rewrite EJ|].
      split.
      { intros Hx. apply elem_of_app in Hx as [Hx|Hx].
        - apply elem_of_join in Hx as [Hx|(part & Hpart & Hx)].
          + by apply list_elem_of_singleton in Hx.
          + assert (Hk : keptSegment (split_on SLASH ni) part).
            { apply elem_of_cons in Hpart as [->|Hpart]; [done|].
              by eapply Forall_forall in Hmore. }
            destruct Hk as (Hin & _).
            destruct (elem_of_split_on SLASH NUL ni part Hin Hx) as [Hx' _].
            by destruct (Hchars _ Hx').
        - destruct Ht as [Ht| Ht]; rewrite Ht in Hx.
          + by apply elem_of_nil in Hx.
          + by apply list_elem_of_singleton in Hx. }
      split.
      { rewrite join_cons_form, <- app_assoc.
        destruct Hs1 as (_ & Hne1 & _). destruct s1 as [|a s1']; [done|].
        cbn. intros [= ->]. apply Hs1slash. by left. }
      assert (Hnodots : str ".." ∉ s1 :: more).
      { intros Hin. apply elem_of_cons in Hin as [Heq|Hin].
        - destruct Hs1 as (_ & _ & _ & ?). done.
        - eapply Forall_forall in Hmore; [|exact Hin].
          destruct Hmore as (_ & _ & _ & ?). done. }
      destruct Ht as [Ht|Ht]; rewrite Ht.
      * rewrite app_nil_r, split_on_join by done. done.
      * rewrite split_on_join_trailing by done.
        intros Hin. apply elem_of_app in Hin as [Hin|Hin]; [done|].
        by apply list_elem_of_singleton in Hin.
  - (* a leading [..]: the path is refused *)
    cbn [replicate app]. rewrite join_cons_form.
    set (tail := match replicate k (str "..") ++ ns with
                 | [] => []
                 | _ => [SLASH] ++ join [SLASH] (replicate k (str "..") ++ ns)
                 end).
    assert (Hrest : tail ++ t = [] \/ exists u, tail ++ t = SLASH :: u).
    { subst tail. destruct (replicate k (str "..") ++ ns).
      - destruct Ht as [->| ->]; [by left|right; by exists []].
      - right. eauto. }
    change (str "..") with [DOT; DOT]. cbn [app].
    assert (Hs : stripDotSlashes (DOT :: DOT :: tail ++ t) = DOT :: DOT :: tail ++ t)
      by reflexivity.
    rewrite Hs. destruct Hrest as [->|(u & ->)].
    + by rewrite bool_decide_true.
    + assert (Hsw : startsWith (DOT :: DOT :: SLASH :: u) (str "../") = true)
        by (by destruct u).
      by rewrite Hsw, orb_true_r.
Qed.

End PathFacts.

(** *** Edit proposal normalizer *)

Module NormalizerFacts.
Import NormalizerSpec.

(** One turn of the loop, in terms of what the candidate contributes. *)
Lemma normalizeLoop_step (path content delete : JsField) (rest : list Candidate)
    (acc : list NormalizedEdit) (seen : gset jsstring) :
  (Z.of_nat (length acc) < MAX_APPLY_EDITS)%Z ->
  normalizeLoop (CValue path content delete :: rest) acc seen
  = match accepted (CValue path content delete) with
    | None => normalizeLoop rest acc seen
    | Some e =>
        if decide (editPath e ∈ seen) then normalizeLoop rest acc seen
        else normalizeLoop rest (acc ++ [e]) ({[editPath e]} ∪ seen)
    end.
Proof.
  intros Hlen. cbn [normalizeLoop accepted].
  destruct (Z.leb_spec MAX_APPLY_EDITS (Z.of_nat (length acc))); [lia|].
  destruct path as [|rawPath| |]; cbn [truthy negb orb]; try done.
  destruct rawPath as [|c0 raw']; [done|]. cbn [truthy negb orb].
  set (rawPath := c0 :: raw').
  destruct (normalizeRelativeSandboxPath rawPath) as [[|ch p]|message] eqn:Hnorm.
  - (* empty normalized path *)
    by destruct content, delete.
  - destruct delete; destruct content; cbn [negb andb orb truthy editPath];
      try done;
      (destruct (decide (ch :: p ∈ seen));
       [rewrite bool_decide_true by done|rewrite bool_decide_false by done]; done).
  - by destruct content, delete.
Qed.

Lemma normalizeLoop_spec (l : list Candidate) (acc : list NormalizedEdit)
    (seen : gset jsstring) :
  Forall (fun c => c <> CNullish) l ->
  length acc <= 20 ->
  normalizeLoop l acc seen
  = Ok (acc ++ take (20 - length acc) (dedupe seen (omap accepted l))).
Proof.
  revert acc seen. induction l as [|c l IH]; intros acc seen Hall Hlen.
  - cbn. by rewrite take_nil, app_nil_r.
  - apply Forall_cons in Hall as [Hc Hall].
    destruct (decide (length acc = 20)) as [H20|H20].
    + cbn [normalizeLoop].
      destruct (Z.leb_spec MAX_APPLY_EDITS (Z.of_nat (length acc))) as [_|Hlt];
        [|unfold MAX_APPLY_EDITS in Hlt; lia].
      rewrite H20. by rewrite take_0, app_nil_r.
    + destruct c as [|path content delete]; [done|].
      rewrite normalizeLoop_step by (unfold MAX_APPLY_EDITS; lia).
      rewrite omap_cons.
      destruct (accepted (CValue path content delete)) as [e|]; [|by apply IH].
      cbn [dedupe]. destruct (decide (editPath e ∈ seen)); [by apply IH|].
      rewrite IH; [|done|rewrite length_app; cbn [length]; lia].
      rewrite length_app. cbn [length].
      replace (20 - length acc) with (S (20 - (length acc + 1))) by lia.
      cbn [take]. by rewrite <- app_assoc.
Qed.

Lemma dedupe_elem (seen : gset jsstring) (es : list NormalizedEdit) (e : NormalizedEdit) :
  e ∈ dedupe seen es -> e ∈ es /\ editPath e ∉ seen.
Proof.
  revert seen. induction es as [|x rest IH]; intros seen; cbn [dedupe].
  - intros H. by apply elem_of_nil in H.
  - destruct (decide (editPath x ∈ seen)) as [Hin|Hnin].
    + intros H. destruct (IH _ H). split; [by right|done].
    + intros H. apply elem_of_cons in H as [->|H]; [split; [by left|done]|].
      destruct (IH _ H) as [? Hns]. split; [by right|].
      intros Hs. apply Hns. apply elem_of_union. by right.
Qed.

Lemma dedupe_NoDup (seen : gset jsstring) (es : list NormalizedEdit) :
  NoDup (map editPath (dedupe seen es)).
Proof.
  revert seen. induction es as [|x rest IH]; intros seen; cbn [dedupe].
  - constructor.
  - destruct (decide (editPath x ∈ seen)); [apply IH|].
    cbn [map]. constructor; [|apply IH].
    intros Hin. apply list_elem_of_fmap in Hin as (e & Heq & He).
    apply dedupe_elem in He as [_ Hns]. set_solver.
Qed.

Lemma dedupe_first (seen : gset jsstring) (es : list NormalizedEdit) (e : NormalizedEdit) :
  e ∈ dedupe seen es ->
  exists l1 l2, es = l1 ++ e :: l2 /\ editPath e ∉ map editPath l1.
Proof.
  revert seen. induction es as [|x rest IH]; intros seen; cbn [dedupe].
  - intros H. by apply elem_of_nil in H.
  - destruct (decide (editPath x ∈ seen)) as [Hin|Hnin].
    + intros H. pose proof (dedupe_elem _ _ _ H) as [_ Hns].
      destruct (IH _ H) as (l1 & l2 & -> & Hl1).
      exists (x :: l1), l2. split; [done|].
      cbn [map]. intros Hx. apply elem_of_cons in Hx as [Hx|Hx]; [|done].
      apply Hns. by rewrite Hx.
    + intros H. apply elem_of_cons in H as [->|H].
      * exists [], rest. split; [done|]. cbn. apply not_elem_of_nil.
      * pose proof (dedupe_elem _ _ _ H) as [_ Hns].
        destruct (IH _ H) as (l1 & l2 & -> & Hl1).
        exists (x :: l1), l2. split; [done|].
        cbn [map]. intros Hx. apply elem_of_cons in Hx as [Hx|Hx]; [|done].
        set_solver.
Qed.

Lemma omap_split {A B} (f : A -> option B) (l : list A) (l1 l2 : list B) (y : B) :
  omap f l = l1 ++ y :: l2 ->
  exists before x after,
    l = before ++ x :: after /\ f x = Some y /\ omap f before = l1.
Proof.
  revert l1. induction l as [|a l IH]; intros l1.
  - cbn. by destruct l1.
  - rewrite omap_cons. destruct (f a) as [b|] eqn:Hfa.
    + destruct l1 as [|b1 l1'].
      * cbn [app]. intros [= -> Hrest]. exists [], a, l. by split.
      * cbn [app]. intros [= -> Hrest].
        destruct (IH _ Hrest) as (before & x & after & -> & Hx & Hb).
        exists (a :: before), x, after. split; [done|]. split; [done|].
        rewrite omap_cons, Hfa. by rewrite Hb.
    + intros Hrest.
      destruct (IH _ Hrest) as (before & x & after & -> & Hx & Hb).
      exists (a :: before), x, after. split; [done|]. split; [done|].
      by rewrite omap_cons, Hfa.
Qed.

Lemma accepted_clean (c : Candidate) (e : NormalizedEdit) :
  accepted c = Some e -> cleanPath (editPath e).
Proof.
  destruct c as [|path content delete]; [done|]. cbn [accepted].
  destruct path as [|rawPath| |]; try done.
  destruct (normalizeRelativeSandboxPath rawPath) as [[|ch p]|message] eqn:Hnorm;
    try done.
  pose proof (PathFacts.normalizeRelativeSandboxPath_clean _ _ Hnorm ltac:(done)) as Hclean.
  destruct delete, content; intros [= <-]; done.
Qed.

Lemma refused_not_accepted (c : Candidate) : hasRefusedPath c -> accepted c = None.
Proof.
  intros (rawPath & content & delete & -> & Href). cbn [accepted].
  unfold refusedPath in Href. unfold normalizeRelativeSandboxPath.
  destruct (includes rawPath [NUL]); [done|]. cbn [orb] in Href.
  set (ni := trim (replace_backslashes rawPath)) in *.
  destruct (truthy ni) eqn:Hni; cbn [negb].
  - destruct (startsWith ni [SLASH]); [done|]. cbn [orb andb] in Href.
    set (n := PosixPath.normalize ni) in *.
    assert (Hstrip : stripDotSlashes n = n).
    { apply orb_true_iff in Href as [Heq|Hsw].
      - apply bool_decide_eq_true in Heq. by rewrite Heq.
      - destruct n as [|a [|b n']]; try done.
        change (str "../") with [DOT; DOT; SLASH] in Hsw. cbn [startsWith] in Hsw.
        apply andb_true_iff in Hsw as [_ Hsw].
        apply andb_true_iff in Hsw as [Hb _].
        apply Ascii.eqb_eq in Hb. subst b.
        cbn [stripDotSlashes]. by rewrite andb_false_r. }
    rewrite Hstrip, Href. done.
  - destruct ni; [|done]. done.
Qed.

(** C1, as the normalizer implements it.  For a candidate array without
    [null] or [undefined] elements the normalizer does not throw.  Its
    output is the first 20 of the accepted candidates after removing
    repeated paths.  Every path in the output is non-empty, free of null
    characters, not absolute, and has no [..] segment.  No two output
    entries share a path, and each output entry is what the first
    accepted candidate with that path contributes.  A candidate whose raw
    path holds a null character, is absolute, or normalizes to [..] or to
    something under [../] leaves no trace: the output is the same without
    it. *)
Theorem normalizer_safety (l : list Candidate) :
  Forall (fun c => c <> CNullish) l ->
  exists out,
    normalizeCandidateEdits l = Ok out
    /\ out = take 20 (dedupe ∅ (omap accepted l))
    /\ (forall e, e ∈ out -> cleanPath (editPath e))
    /\ NoDup (map editPath out)
    /\ (forall e, e ∈ out ->
        exists before c after,
          l = before ++ c :: after
          /\ accepted c = Some e
          /\ forall c' e', c' ∈ before -> accepted c' = Some e' ->
                           editPath e' <> editPath e)
    /\ (forall before c after,
          l = before ++ c :: after -> hasRefusedPath c ->
          normalizeCandidateEdits (before ++ after) = Ok out).
Proof.
  intros Hall. exists (take 20 (dedupe ∅ (omap accepted l))).
  assert (Hrun : forall l', Forall (fun c => c <> CNullish) l' ->
            normalizeCandidateEdits l' = Ok (take 20 (dedupe ∅ (omap accepted l')))).
  { intros l' Hl'. unfold normalizeCandidateEdits.
    rewrite normalizeLoop_spec by (done || (cbn; lia)). done. }
  split; [by apply Hrun|]. split; [done|].
  assert (Hin : forall e, e ∈ take 20 (dedupe ∅ (omap accepted l)) ->
                          e ∈ dedupe ∅ (omap accepted l)).
  { intros e He. by eapply (subseteq_take 20). }
  split.
  { intros e He. apply Hin, dedupe_elem in He as [He _].
    apply list_elem_of_omap in He as (c & _ & Hc). by eapply accepted_clean. }
  split.
  { pose proof (dedupe_NoDup ∅ (omap accepted l)) as Hnd.
    rewrite <- (take_drop 20 (dedupe ∅ (omap accepted l))) in Hnd.
    rewrite map_app in Hnd. apply NoDup_app in Hnd as [Hnd _].
    exact Hnd. }
  split.
  { intros e He. apply Hin, dedupe_first in He as (l1 & l2 & Heq & Hfirst).
    apply omap_split in Heq as (before & c & after & -> & Hc & Hb).
    exists before, c, after. split; [done|]. split; [done|].
    intros c' e' Hc' Hacc Hpath. apply Hfirst. rewrite <- Hpath, <- Hb.
    apply list_elem_of_fmap. exists e'. split; [done|].
    apply list_elem_of_omap. eauto. }
  intros before c after -> Href.
  rewrite Hrun.
  - rewrite !omap_app, omap_cons, (refused_not_accepted c Href). done.
  - apply Forall_app in Hall as [Hb Ha]. apply Forall_cons in Ha as [_ Ha].
    by apply Forall_app.
Qed.

End NormalizerFacts.

(** *** Loops run to their end *)

Module LoopFacts.
Import Diff.

Lemma prefix_loop_ends (b a : list jsstring) (fuel : nat) (start : Z) :
  (len b - start <= Z.of_nat fuel)%Z ->
  prefix_cond b a (while fuel (prefix_cond b a) Z.succ start) = false.
Proof.
  revert start. induction fuel as [|fuel IH]; intros start Hfuel.
  - cbn [while]. unfold prefix_cond.
    destruct (Z.ltb_spec start (len b)); [lia|done].
  - cbn [while]. destruct (prefix_cond b a start) eqn:Hc; [|done].
    apply IH. lia.
Qed.

Lemma prefix_loop_nonneg (b a : list jsstring) (fuel : nat) (start : Z) :
  (0 <= start)%Z -> (0 <= while fuel (prefix_cond b a) Z.succ start)%Z.
Proof.
  revert start. induction fuel as [|fuel IH]; intros start Hs; cbn [while]; [done|].
  destruct (prefix_cond b a start); [|done]. apply IH. lia.
Qed.

(** The first loop of [createUnifiedDiff] stops because its condition
    fails, not because the unrolling ran out. *)
Lemma scan_prefix_ends (b a : list jsstring) :
  prefix_cond b a (scan_prefix b a) = false /\ (0 <= scan_prefix b a)%Z.
Proof.
  split.
  - apply prefix_loop_ends. unfold len. lia.
  - by apply prefix_loop_nonneg.
Qed.

Lemma suffix_loop_ends (b a : list jsstring) (start : Z) (fuel : nat) (ends : Z * Z) :
  (ends.1 - start + 1 <= Z.of_nat fuel)%Z ->
  suffix_cond b a start
    (while fuel (suffix_cond b a start) (fun e => (e.1 - 1, e.2 - 1)%Z) ends) = false.
Proof.
  revert ends. induction fuel as [|fuel IH]; intros ends Hfuel.
  - cbn [while]. unfold suffix_cond.
    destruct (Z.leb_spec start ends.1); [lia|done].
  - cbn [while]. destruct (suffix_cond b a start ends) eqn:Hc; [|done].
    apply IH. cbn [fst]. lia.
Qed.

(** So does the second loop. *)
Lemma scan_suffix_ends (b a : list jsstring) (start : Z) :
  (0 <= start)%Z -> suffix_cond b a start (scan_suffix b a start) = false.
Proof.
  intros Hs. apply suffix_loop_ends. cbn [fst]. unfold len. lia.
Qed.

End LoopFacts.

(** *** SSE frame decoder *)

Module SseFacts.
Import Sse SseSpec.

Lemma slice_from_drop {A} (l : list A) (a : Z) :
  (0 <= a)%Z -> slice_from l a = drop (Z.to_nat a) l.
Proof.
  intros Ha. unfold slice_from, slice, rel_index.
  destruct (Z.ltb_spec a 0); [lia|].
  destruct (Z.ltb_spec (Z.of_nat (length l)) 0); [lia|].
  rewrite Z.min_id.
  destruct (Z.le_ge_cases a (Z.of_nat (length l))) as [H'|H'].
  - rewrite Z.min_l by lia. rewrite take_ge; [done|]. rewrite length_drop. lia.
  - rewrite Z.min_r by lia. rewrite !drop_ge by lia. by rewrite take_nil.
Qed.

Lemma startsWith_length (s sub : jsstring) :
  startsWith s sub = true -> length sub <= length s.
Proof.
  revert s. induction sub as [|c sub IH]; intros s; [simpl; lia|].
  destruct s as [|d s]; [done|]. cbn [startsWith length].
  intros H. apply andb_true_iff in H as [_ H]. apply IH in H. lia.
Qed.

Lemma startsWith_app_true (s sub extra : jsstring) :
  startsWith s sub = true -> startsWith (s ++ extra) sub = true.
Proof.
  revert s. induction sub as [|c sub IH]; intros s.
  - intros _. apply startsWith_nil.
  - destruct s as [|d s]; [done|]. cbn [startsWith app].
    intros H. apply andb_true_iff in H as [-> H]. by rewrite IH.
Qed.

Lemma startsWith_app_long (s sub extra : jsstring) :
  length sub <= length s -> startsWith (s ++ extra) sub = startsWith s sub.
Proof.
  revert s. induction sub as [|c sub IH]; intros s Hlen.
  - by rewrite !startsWith_nil.
  - destruct s as [|d s]; [cbn in Hlen; lia|]. cbn [startsWith app].
    rewrite IH; [done|]. cbn in Hlen. lia.
Qed.

Lemma startsWith_split (s sub : jsstring) :
  startsWith s sub = true -> s = sub ++ drop (length sub) s.
Proof.
  revert s. induction sub as [|c sub IH]; intros s; [done|].
  destruct s as [|d s]; [done|]. cbn [startsWith].
  intros H. apply andb_true_iff in H as [Hc H]. apply Ascii.eqb_eq in Hc as ->.
  cbn [length drop app]. f_equal. by apply IH.
Qed.

Lemma indexOf_from_range (s sub : jsstring) (i : Z) :
  indexOf_from s sub i = (-1)%Z \/ (i <= indexOf_from s sub i)%Z.
Proof.
  revert i. induction s as [|c s IH]; intros i; cbn [indexOf_from].
  - destruct (startsWith [] sub); [right; lia|by left].
  - destruct (startsWith (c :: s) sub); [right; lia|].
    destruct (IH (i + 1)%Z); [by left|right; lia].
Qed.

Lemma indexOf_from_shift (s sub : jsstring) (i : Z) :
  indexOf_from s sub i
  = if (indexOf_from s sub 0 =? -1)%Z then (-1)%Z else (i + indexOf_from s sub 0)%Z.
Proof.
  revert i. induction s as [|c s IH]; intros i; cbn [indexOf_from].
  - destruct (startsWith [] sub); [|done]. cbn. lia.
  - destruct (startsWith (c :: s) sub).
    + cbn. lia.
    + rewrite (IH (i + 1)%Z), (IH (0 + 1)%Z).
      destruct (indexOf_from s sub 0 =? -1)%Z eqn:E; [done|].
      apply Z.eqb_neq in E.
      destruct (indexOf_from_range s sub 0) as [?|Hge]; [done|].
      destruct (Z.eqb_spec (0 + 1 + indexOf_from s sub 0) (-1)); lia.
Qed.

Lemma indexOf_cons (c : ascii) (s sub : jsstring) :
  indexOf (c :: s) sub
  = if startsWith (c :: s) sub then 0%Z
    else if (indexOf s sub =? -1)%Z then (-1)%Z else (1 + indexOf s sub)%Z.
Proof.
  unfold indexOf. cbn [indexOf_from].
  destruct (startsWith (c :: s) sub); [done|].
  rewrite indexOf_from_shift. by destruct (indexOf_from s sub 0 =? -1)%Z.
Qed.

(** Where [indexOf] finds the pattern, the string splits around it. *)
Lemma indexOf_found (s sub : jsstring) :
  indexOf s sub <> (-1)%Z ->
  (0 <= indexOf s sub)%Z
  /\ Z.to_nat (indexOf s sub) + length sub <= length s
  /\ s = take (Z.to_nat (indexOf s sub)) s ++ sub
           ++ drop (Z.to_nat (indexOf s sub) + length sub) s.
Proof.
  induction s as [|c s IH].
  - unfold indexOf. cbn [indexOf_from].
    destruct (startsWith [] sub) eqn:Hsw; [|done]. intros _.
    destruct sub; [|done]. by cbn.
  - rewrite indexOf_cons.
    destruct (startsWith (c :: s) sub) eqn:Hsw.
    + intros _. split; [lia|]. split.
      * apply startsWith_length in Hsw. cbn in *. lia.
      * change (Z.to_nat 0) with 0. cbn [take app Nat.add]. by apply startsWith_split.
    + destruct (Z.eqb_spec (indexOf s sub) (-1)) as [|Hne]; [done|]. intros _.
      destruct (IH Hne) as (H0 & Hlen & Hsplit).
      split; [lia|].
      replace (Z.to_nat (1 + indexOf s sub)) with (S (Z.to_nat (indexOf s sub))) by lia.
      split; [cbn [length]; lia|].
      cbn [take Nat.add drop app]. f_equal. exact Hsplit.
Qed.

(** Appending text does not move the first occurrence. *)
Lemma indexOf_app (s sub extra : jsstring) :
  indexOf s sub <> (-1)%Z -> indexOf (s ++ extra) sub = indexOf s sub.
Proof.
  induction s as [|c s IH].
  - unfold indexOf. cbn [indexOf_from app].
    destruct (startsWith [] sub) eqn:Hsw; [|done]. intros _.
    destruct sub; [|done]. destruct extra; done.
  - cbn [app]. rewrite !indexOf_cons.
    destruct (startsWith (c :: s) sub) eqn:Hsw.
    + intros _. change (c :: s ++ extra) with ((c :: s) ++ extra).
      by rewrite startsWith_app_true.
    + destruct (Z.eqb_spec (indexOf s sub) (-1)) as [|Hne]; [done|]. intros _.
      destruct (indexOf_found s sub Hne) as (_ & Hlen & _).
      change (c :: s ++ extra) with ((c :: s) ++ extra).
      rewrite startsWith_app_long by (cbn [length]; lia).
      rewrite Hsw, IH by done.
      by destruct (Z.eqb_spec (indexOf s sub) (-1)).
Qed.

Lemma hasDelimiter_frames (buffer : jsstring) (frames frames' : list jsstring) :
  hasDelimiter (buffer, frames) = hasDelimiter (buffer, frames').
Proof. done. Qed.

Lemma extractFrame_buffer (buffer : jsstring) (frames : list jsstring) :
  hasDelimiter (buffer, frames) = true ->
  (extractFrame (buffer, frames)).1
  = drop (Z.to_nat (indexOf buffer DELIMITER) + 2) buffer
  /\ Z.to_nat (indexOf buffer DELIMITER) + 2 <= length buffer.
Proof.
  unfold hasDelimiter, extractFrame. cbn [fst snd]. intros H.
  apply negb_true_iff, Z.eqb_neq in H.
  destruct (indexOf_found buffer DELIMITER H) as (H0 & Hlen & _).
  cbn [DELIMITER length] in Hlen. split; [|done].
  rewrite slice_from_drop by lia. f_equal. lia.
Qed.

Lemma extractFrame_frames (buffer : jsstring) (frames : list jsstring) :
  (extractFrame (buffer, frames)).2 = frames ++ (extractFrame (buffer, [])).2.
Proof.
  unfold extractFrame. cbn [fst snd].
  destruct (0 <? _)%Z; [done|by rewrite app_nil_r].
Qed.

Lemma extractFrame_app (buffer extra : jsstring) (frames : list jsstring) :
  hasDelimiter (buffer, frames) = true ->
  hasDelimiter (buffer ++ extra, frames) = true
  /\ extractFrame (buffer ++ extra, frames)
     = ((extractFrame (buffer, frames)).1 ++ extra, (extractFrame (buffer, frames)).2).
Proof.
  intros H. pose proof H as H'.
  unfold hasDelimiter in H'. cbn [fst] in H'.
  apply negb_true_iff, Z.eqb_neq in H'.
  destruct (indexOf_found buffer DELIMITER H') as (H0 & Hlen & _).
  cbn [DELIMITER length] in Hlen.
  assert (Hidx : indexOf (buffer ++ extra) DELIMITER = indexOf buffer DELIMITER)
    by (by apply indexOf_app).
  split.
  { unfold hasDelimiter. cbn [fst]. rewrite Hidx.
    by apply negb_true_iff, Z.eqb_neq. }
  unfold extractFrame. cbn [fst snd]. rewrite Hidx.
  rewrite !slice_prefix, !slice_from_drop by lia.
  rewrite take_app_le by lia.
  rewrite drop_app_le by lia. done.
Qed.

(** More unrolling than the buffer is long changes nothing. *)
Lemma while_enough (n fuel : nat) (buffer : jsstring) (frames : list jsstring) :
  length buffer <= n -> n <= fuel ->
  while fuel hasDelimiter extractFrame (buffer, frames)
  = while n hasDelimiter extractFrame (buffer, frames).
Proof.
  revert fuel buffer frames.
  induction n as [|n IH]; intros fuel buffer frames Hlen Hfuel.
  - destruct buffer; [|cbn in Hlen; lia].
    by rewrite !while_stop.
  - destruct (hasDelimiter (buffer, frames)) eqn:Hd; [|by rewrite !while_stop].
    destruct fuel as [|fuel]; [lia|].
    rewrite !while_step by done.
    destruct (extractFrame_buffer _ _ Hd) as [Hb Hl].
    destruct (extractFrame (buffer, frames)) as [buffer' frames'] eqn:He.
    cbn [fst] in Hb. apply IH; [|lia].
    rewrite Hb, length_drop. lia.
Qed.

Lemma run_stop (buffer : jsstring) (frames : list jsstring) :
  hasDelimiter (buffer, frames) = false -> run buffer frames = (buffer, frames).
Proof. intros H. unfold run. by rewrite while_stop. Qed.

Lemma run_step (buffer : jsstring) (frames : list jsstring) :
  hasDelimiter (buffer, frames) = true ->
  run buffer frames
  = run (extractFrame (buffer, frames)).1 (extractFrame (buffer, frames)).2.
Proof.
  intros Hd. unfold run.
  destruct (extractFrame_buffer _ _ Hd) as [Hb Hl].
  destruct buffer as [|c buffer]; [cbn in Hl; lia|].
  cbn [length]. rewrite while_step by done.
  destruct (extractFrame (c :: buffer, frames)) as [buffer' frames'] eqn:He.
  cbn [fst snd] in *. apply while_enough; [done|].
  rewrite Hb, length_drop. cbn [length]. lia.
Qed.

Lemma extractFrame_buffer_frames (buffer : jsstring) (frames : list jsstring) :
  (extractFrame (buffer, frames)).1 = (extractFrame (buffer, [])).1.
Proof. done. Qed.

Lemma run_frames_bounded (n : nat) (buffer : jsstring) (frames : list jsstring) :
  length buffer <= n ->
  run buffer frames = ((run buffer []).1, frames ++ (run buffer []).2).
Proof.
  revert buffer frames. induction n as [|n IH]; intros buffer frames Hlen.
  - destruct buffer; [|cbn in Hlen; lia].
    rewrite !run_stop by done. cbn. by rewrite app_nil_r.
  - destruct (hasDelimiter (buffer, frames)) eqn:Hd.
    + rewrite (run_step buffer frames) by done.
      rewrite (run_step buffer []) by done.
      destruct (extractFrame_buffer _ _ Hd) as [Hb Hl].
      rewrite extractFrame_frames, extractFrame_buffer_frames.
      set (buffer' := (extractFrame (buffer, [])).1) in *.
      set (f0 := (extractFrame (buffer, [])).2).
      assert (Hlen' : length buffer' <= n).
      { subst buffer'. rewrite <- (extractFrame_buffer_frames buffer frames).
        rewrite Hb, length_drop. lia. }
      rewrite (IH buffer' (frames ++ f0)) by done.
      rewrite (IH buffer' f0) by done. cbn [fst snd]. by rewrite app_assoc.
    + rewrite !run_stop by done. cbn. by rewrite app_nil_r.
Qed.

Lemma run_frames (buffer : jsstring) (frames : list jsstring) :
  run buffer frames = ((run buffer []).1, frames ++ (run buffer []).2).
Proof. by apply (run_frames_bounded (length buffer)). Qed.

Lemma run_app_bounded (n : nat) (buffer extra : jsstring) (frames : list jsstring) :
  length buffer <= n ->
  run (buffer ++ extra) frames
  = run ((run buffer frames).1 ++ extra) (run buffer frames).2.
Proof.
  revert buffer frames. induction n as [|n IH]; intros buffer frames Hlen.
  - destruct buffer; [|cbn in Hlen; lia]. by rewrite (run_stop [] frames).
  - destruct (hasDelimiter (buffer, frames)) eqn:Hd.
    + destruct (extractFrame_app buffer extra frames Hd) as [Hd' He'].
      rewrite (run_step (buffer ++ extra)) by done.
      rewrite (run_step buffer) by done. rewrite He'. cbn [fst snd].
      destruct (extractFrame_buffer _ _ Hd) as [Hb Hl].
      apply IH. rewrite Hb, length_drop. lia.
    + by rewrite (run_stop buffer frames).
Qed.

(** Running the loop on a buffer with more text appended is running it
    on the buffer, then on what is left with the text appended. *)
Lemma run_app (buffer extra : jsstring) (frames : list jsstring) :
  run (buffer ++ extra) frames
  = run ((run buffer frames).1 ++ extra) (run buffer frames).2.
Proof. by apply (run_app_bounded (length buffer)). Qed.

Lemma run_ends_bounded (n : nat) (buffer : jsstring) (frames : list jsstring) :
  length buffer <= n -> hasDelimiter (run buffer frames) = false.
Proof.
  revert buffer frames. induction n as [|n IH]; intros buffer frames Hlen.
  - destruct buffer; [|cbn in Hlen; lia]. by rewrite run_stop.
  - destruct (hasDelimiter (buffer, frames)) eqn:Hd.
    + rewrite run_step by done.
      destruct (extractFrame_buffer _ _ Hd) as [Hb Hl].
      apply IH. rewrite Hb, length_drop. lia.
    + by rewrite run_stop.
Qed.

(** The loop of [consumeSseDataFrames] ends because no delimiter is left
    in the buffer. *)
Lemma run_ends (buffer : jsstring) (frames : list jsstring) :
  hasDelimiter (run buffer frames) = false.
Proof. by apply (run_ends_bounded (length buffer)). Qed.

Lemma consume_run (state : SseParserState) (chunk : jsstring) :
  consumeSseDataFrames state chunk
  = ({| buffer := (run (buffer state ++ normalizeChunk chunk) []).1 |},
     (run (buffer state ++ normalizeChunk chunk) []).2).
Proof. done. Qed.

Lemma feedAll_run (state : SseParserState) (chunks : list jsstring) :
  hasDelimiter (buffer state, []) = false ->
  feedAll state chunks
  = ({| buffer := (run (buffer state ++ concat (map normalizeChunk chunks)) []).1 |},
     (run (buffer state ++ concat (map normalizeChunk chunks)) []).2).
Proof.
  revert state. induction chunks as [|chunk rest IH]; intros state Hstate.
  - cbn [feedAll map concat]. rewrite app_nil_r, run_stop by done.
    by destruct state.
  - cbn [feedAll map concat]. rewrite consume_run.
    set (first := run (buffer state ++ normalizeChunk chunk) []).
    rewrite IH by (cbn [buffer]; rewrite (hasDelimiter_frames _ _ first.2);
                   rewrite <- surjective_pairing; apply run_ends).
    cbn [buffer]. rewrite app_assoc.
    rewrite (run_app (buffer state ++ normalizeChunk chunk)). fold first.
    rewrite (run_frames _ first.2). done.
Qed.

Lemma replace_crlf_cons2 (x y : ascii) (s : jsstring) :
  replace_crlf (x :: y :: s)
  = if Ascii.eqb x CR && Ascii.eqb y LF then LF :: replace_crlf s
    else x :: replace_crlf (y :: s).
Proof. done. Qed.

Lemma replace_crlf_app_bounded (n : nat) (a b : jsstring) :
  length a <= n -> last a <> Some CR ->
  replace_crlf (a ++ b) = replace_crlf a ++ replace_crlf b.
Proof.
  revert a. induction n as [|n IH]; intros a Hlen Hlast.
  - by destruct a; [|cbn in Hlen; lia].
  - destruct a as [|x [|y a']]; [done| |].
    + cbn [app]. destruct b as [|d b']; [done|].
      rewrite replace_crlf_cons2.
      destruct (Ascii.eqb_spec x CR) as [->|Hx]; [done|]. done.
    + change ((x :: y :: a') ++ b) with (x :: y :: (a' ++ b)).
      rewrite !replace_crlf_cons2.
      destruct (Ascii.eqb x CR && Ascii.eqb y LF) eqn:Hxy.
      * cbn [app]. f_equal. apply IH; [cbn in Hlen; lia|].
        destruct a' as [|z a'']; [done|]. exact Hlast.
      * change (y :: a' ++ b) with ((y :: a') ++ b).
        rewrite IH; [done|cbn in *; lia|exact Hlast].
Qed.

Lemma normalizeChunk_concat (chunks : list jsstring) :
  noCutCRLF chunks ->
  concat (map normalizeChunk chunks) = normalizeChunk (concat chunks).
Proof.
  unfold noCutCRLF, normalizeChunk.
  induction chunks as [|chunk rest IH]; intros Hall; [done|].
  apply Forall_cons in Hall as [Hchunk Hrest].
  cbn [map concat]. rewrite IH by done.
  symmetry. by apply (replace_crlf_app_bounded (length chunk)).
Qed.

(** X1 (chunking without carriage returns).  Chunking does not matter
    as long as no chunk ends in a carriage return: feeding the chunks
    one by one and flushing gives the frames that feeding the whole
    stream as one chunk and flushing gives. *)
Theorem decode_chunking (chunks : list jsstring) :
  noCutCRLF chunks -> decode chunks = decode [concat chunks].
Proof.
  intros Hcut. unfold decode.
  rewrite !feedAll_run by done.
  cbn [map concat]. rewrite app_nil_r.
  by rewrite normalizeChunk_concat.
Qed.

End SseFacts.

(** *** SSE frame decoder: buffer invariant and round trip *)

Module SseRoundTrip.
Import Sse SseSpec SseWriter SseFacts.

Lemma indexOf_delimiter_first (a rest : jsstring) :
  LF ∉ a -> indexOf (a ++ LF :: LF :: rest) DELIMITER = Z.of_nat (length a).
Proof.
  induction a as [|c a IH]; intros Hno.
  - cbn [app]. rewrite indexOf_cons.
    unfold DELIMITER at 1. cbn [startsWith]. rewrite startsWith_nil. reflexivity.
  - change ((c :: a) ++ LF :: LF :: rest) with (c :: (a ++ LF :: LF :: rest)).
    rewrite indexOf_cons.
    assert (c <> LF) by (intros ->; apply Hno; left).
    assert (LF ∉ a) by (intros Hin; apply Hno; right; exact Hin).
    assert (Hsw : startsWith (c :: a ++ LF :: LF :: rest) DELIMITER = false).
    { unfold DELIMITER. cbn [startsWith].
      destruct (Ascii.eqb_spec LF c) as [E|_]; [congruence|reflexivity]. }
    rewrite Hsw, IH by assumption.
    destruct (Z.eqb_spec (Z.of_nat (length a)) (-1)); cbn [length]; lia.
Qed.

Lemma replace_crlf_plain (s : jsstring) : CR ∉ s -> replace_crlf s = s.
Proof.
  induction s as [|c s IH]; intros Hno; [reflexivity|].
  assert (c <> CR) by (intros ->; apply Hno; left).
  assert (CR ∉ s) by (intros Hin; apply Hno; right; exact Hin).
  destruct s as [|d s']; [reflexivity|].
  rewrite replace_crlf_cons2.
  destruct (Ascii.eqb_spec c CR) as [E|_]; [congruence|].
  cbn [andb]. f_equal. apply IH. assumption.
Qed.

Lemma dataLinesOf_dataFrame (payload : jsstring) :
  LF ∉ payload -> trimStart payload = payload ->
  dataLinesOf (str "data: " ++ payload) = [payload].
Proof.
  intros Hlf Htrim. unfold dataLinesOf.
  rewrite PathFacts.split_on_plain.
  2:{ intros Hin. apply elem_of_app in Hin as [Hin|Hin]; [|contradiction].
      vm_compute in Hin. repeat (apply elem_of_cons in Hin as [Hin|Hin]; [discriminate|]).
      inversion Hin. }
  cbn [filter list_filter].
  assert (Hsw : startsWith (str "data: " ++ payload) (str "data:") = true) by reflexivity.
  destruct (decide (startsWith (str "data: " ++ payload) (str "data:") = true)); [|contradiction].
  cbn [map]. rewrite slice_from_drop by lia.
  change (drop (Z.to_nat 5) (str "data: " ++ payload)) with (" "%char :: payload).
  cbn [trimStart]. change (isWhiteSpace " "%char) with true. cbn iota.
  rewrite Htrim. reflexivity.
Qed.

Lemma run_dataFrame (payload rest : jsstring) (frames : list jsstring) :
  onOneLine payload ->
  run (dataFrame payload ++ rest) frames = run rest (frames ++ [payload]).
Proof.
  intros (Hlf & Hcr & Htrim).
  assert (Hidx : indexOf (dataFrame payload ++ rest) DELIMITER
                 = Z.of_nat (length (str "data: " ++ payload))).
  { unfold dataFrame.
    replace ((str "data: " ++ payload ++ [LF; LF]) ++ rest)
      with ((str "data: " ++ payload) ++ LF :: LF :: rest)
      by (rewrite <- !app_assoc; reflexivity).
    apply indexOf_delimiter_first.
    intros Hin. apply elem_of_app in Hin as [Hin|Hin]; [|contradiction].
    vm_compute in Hin. repeat (apply elem_of_cons in Hin as [Hin|Hin]; [discriminate|]).
    inversion Hin. }
  assert (Hhas : hasDelimiter (dataFrame payload ++ rest, frames) = true).
  { unfold hasDelimiter. cbn [fst]. rewrite Hidx.
    destruct (Z.eqb_spec (Z.of_nat (length (str "data: " ++ payload))) (-1)); [lia|reflexivity]. }
  rewrite run_step by exact Hhas.
  f_equal.
  - destruct (extractFrame_buffer _ _ Hhas) as [-> _].
    rewrite Hidx, Nat2Z.id. unfold dataFrame.
    replace ((str "data: " ++ payload ++ [LF; LF]) ++ rest)
      with (((str "data: " ++ payload) ++ [LF; LF]) ++ rest)
      by (rewrite <- !app_assoc; reflexivity).
    rewrite drop_app_length'; [reflexivity|].
    rewrite !length_app. cbn [length]. lia.
  - unfold extractFrame. cbn [fst snd]. rewrite Hidx.
    rewrite slice_prefix by lia. rewrite Nat2Z.id. unfold dataFrame.
    replace ((str "data: " ++ payload ++ [LF; LF]) ++ rest)
      with ((str "data: " ++ payload) ++ ([LF; LF] ++ rest))
      by (rewrite <- !app_assoc; reflexivity).
    rewrite take_app_length.
    rewrite dataLinesOf_dataFrame by assumption.
    reflexivity.
Qed.

Lemma run_written (payloads frames : list jsstring) :
  Forall onOneLine payloads ->
  run (written payloads) frames = ([], frames ++ payloads).
Proof.
  intros Hall. revert frames.
  induction Hall as [|p ps Hp _ IH]; intros frames.
  - rewrite app_nil_r. apply run_stop. reflexivity.
  - unfold written. cbn [map concat]. fold (written ps).
    rewrite run_dataFrame by exact Hp.
    rewrite IH, <- app_assoc. reflexivity.
Qed.

Lemma written_no_CR (payloads : list jsstring) :
  Forall onOneLine payloads -> CR ∉ written payloads.
Proof.
  induction 1 as [|p ps (Hlf & Hcr & _) _ IH]; [apply not_elem_of_nil|].
  unfold written. cbn [map concat]. fold (written ps). unfold dataFrame.
  intros Hin. rewrite !elem_of_app in Hin.
  destruct Hin as [[Hin|[Hin|Hin]]|Hin]; try contradiction.
  - vm_compute in Hin. repeat (apply elem_of_cons in Hin as [Hin|Hin]; [discriminate|]).
    inversion Hin.
  - repeat (apply elem_of_cons in Hin as [Hin|Hin]; [discriminate|]). inversion Hin.
Qed.

Lemma noCutCRLF_plain (chunks : list jsstring) :
  CR ∉ concat chunks -> noCutCRLF chunks.
Proof.
  intros Hno. apply Forall_forall. intros chunk Hin Hlast.
  apply Hno. apply list_elem_of_In. apply in_concat. exists chunk. split.
  - apply list_elem_of_In. exact Hin.
  - apply list_elem_of_In. apply last_Some_elem_of in Hlast.
    exact Hlast.
Qed.

(** X2 (no complete event stays in the buffer).  Whatever the parser
    state and the chunk, when [consumeSseDataFrames] returns the buffer
    holds no blank-line delimiter: every event that is complete has been
    taken out. *)
Theorem consume_leaves_no_delimiter (state : SseParserState) (chunk : jsstring) :
  indexOf (buffer (consumeSseDataFrames state chunk).1) DELIMITER = (-1)%Z.
Proof.
  rewrite consume_run. cbn [fst buffer].
  pose proof (run_ends (buffer state ++ normalizeChunk chunk) []) as Hends.
  unfold hasDelimiter in Hends.
  destruct (Z.eqb_spec (indexOf (run (buffer state ++ normalizeChunk chunk) []).1 DELIMITER) (-1));
    [assumption|discriminate].
Qed.

Lemma feedAll_written (payloads chunks : list jsstring) :
  Forall onOneLine payloads ->
  concat chunks = written payloads ->
  feedAll createSseParserState chunks = ({| buffer := [] |}, payloads).
Proof.
  intros Hall Hcat.
  pose proof (written_no_CR payloads Hall) as Hcr.
  assert (Hcut : noCutCRLF chunks) by (apply noCutCRLF_plain; rewrite Hcat; exact Hcr).
  rewrite feedAll_run by reflexivity.
  cbn [buffer createSseParserState app].
  rewrite normalizeChunk_concat by exact Hcut.
  rewrite Hcat. unfold normalizeChunk. rewrite replace_crlf_plain by exact Hcr.
  rewrite run_written by exact Hall. reflexivity.
Qed.

(** X3 (writer/decoder round trip).  When the routes have written a
    sequence of one-line payloads as [data:] frames, the client decoder
    returns exactly those payloads, in order, however the transport cuts
    the written text into chunks. *)
Theorem written_frames_decode (payloads chunks : list jsstring) :
  Forall onOneLine payloads ->
  concat chunks = written payloads ->
  decode chunks = payloads.
Proof.
  intros Hall Hcat. unfold decode.
  rewrite (feedAll_written payloads chunks Hall Hcat).
  change (flushSseDataFrames {| buffer := [] |}).2 with (@nil jsstring).
  apply app_nil_r.
Qed.

End SseRoundTrip.

(** *** Diff engine: the changed region *)

Module DiffRegion.
Import Diff LoopFacts.

Lemma item_Some {A} (l : list A) (i : Z) :
  (0 <= i < len l)%Z -> exists x, item l i = Some x /\ l !! Z.to_nat i = Some x.
Proof.
  intros Hi. unfold item, len in *.
  destruct (Z.ltb_spec i 0); [lia|].
  destruct (lookup_lt_is_Some_2 l (Z.to_nat i)) as [x Hx]; [lia|].
  exists x. split; exact Hx.
Qed.

Lemma slice_mid {A} (l : list A) (s e : Z) :
  (0 <= s <= e)%Z -> (e <= len l)%Z ->
  slice l s e = take (Z.to_nat (e - s)) (drop (Z.to_nat s) l)
  /\ l = take (Z.to_nat s) l ++ slice l s e ++ drop (Z.to_nat e) l.
Proof.
  intros Hs He. unfold len in He.
  assert (Hsl : slice l s e = take (Z.to_nat (e - s)) (drop (Z.to_nat s) l)).
  { unfold slice, rel_index.
    destruct (Z.ltb_spec s 0); [lia|]. destruct (Z.ltb_spec e 0); [lia|].
    replace (Z.min s (Z.of_nat (length l))) with s by lia.
    replace (Z.min e (Z.of_nat (length l))) with e by lia.
    reflexivity. }
  split; [exact Hsl|].
  rewrite Hsl.
  rewrite <- (take_drop (Z.to_nat s) l) at 1. f_equal.
  rewrite <- (take_drop (Z.to_nat (e - s)) (drop (Z.to_nat s) l)) at 1. f_equal.
  rewrite drop_drop. f_equal. lia.
Qed.

(** The first loop keeps [start] within both texts and over lines the two
    texts share. *)
Lemma prefix_loop_inv (b a : list jsstring) (fuel : nat) (i : Z) :
  (0 <= i)%Z -> (i <= len b)%Z -> (i <= len a)%Z ->
  take (Z.to_nat i) b = take (Z.to_nat i) a ->
  let r := while fuel (prefix_cond b a) Z.succ i in
  (0 <= r)%Z /\ (r <= len b)%Z /\ (r <= len a)%Z
  /\ take (Z.to_nat r) b = take (Z.to_nat r) a.
Proof.
  revert i. induction fuel as [|fuel IH]; intros i H0 Hb Ha Heq; cbn [while].
  - auto.
  - destruct (prefix_cond b a i) eqn:Hc; [|auto].
    unfold prefix_cond in Hc.
    apply andb_prop in Hc as [Hc Hitem]. apply andb_prop in Hc as [Hlb Hla].
    apply Z.ltb_lt in Hlb, Hla. apply bool_decide_eq_true in Hitem.
    destruct (item_Some b i) as (x & Hx & Hbx); [lia|].
    destruct (item_Some a i) as (y & Hy & Hay); [lia|].
    assert (x = y) by congruence. subst y.
    apply IH; try lia.
    replace (Z.to_nat (Z.succ i)) with (S (Z.to_nat i)) by lia.
    rewrite (take_S_r b _ x Hbx), (take_S_r a _ x Hay), Heq. reflexivity.
Qed.

Lemma scan_prefix_inv (b a : list jsstring) :
  let start := scan_prefix b a in
  (0 <= start)%Z /\ (start <= len b)%Z /\ (start <= len a)%Z
  /\ take (Z.to_nat start) b = take (Z.to_nat start) a.
Proof.
  unfold scan_prefix. apply prefix_loop_inv; unfold len; try lia. reflexivity.
Qed.

(** The second loop keeps both ends at the same distance from the ends
    of their texts, over lines the two texts share, and never below
    [start - 1]. *)
Lemma suffix_loop_inv (b a : list jsstring) (start : Z) (fuel : nat) (ends : Z * Z) :
  (0 <= start)%Z ->
  (start - 1 <= ends.1 < len b)%Z -> (start - 1 <= ends.2 < len a)%Z ->
  (len b - ends.1 = len a - ends.2)%Z ->
  drop (Z.to_nat (ends.1 + 1)) b = drop (Z.to_nat (ends.2 + 1)) a ->
  let r := while fuel (suffix_cond b a start) (fun e => (e.1 - 1, e.2 - 1)%Z) ends in
  (start - 1 <= r.1 < len b)%Z /\ (start - 1 <= r.2 < len a)%Z
  /\ (len b - r.1 = len a - r.2)%Z
  /\ drop (Z.to_nat (r.1 + 1)) b = drop (Z.to_nat (r.2 + 1)) a.
Proof.
  revert ends. induction fuel as [|fuel IH]; intros [e1 e2] H0 H1 H2 Hd Heq;
    cbn [while fst snd] in *.
  - auto.
  - destruct (suffix_cond b a start (e1, e2)) eqn:Hc; [|auto].
    unfold suffix_cond in Hc. cbn [fst snd] in Hc.
    apply andb_prop in Hc as [Hc Hitem]. apply andb_prop in Hc as [Hl1 Hl2].
    apply Z.leb_le in Hl1, Hl2. apply bool_decide_eq_true in Hitem.
    destruct (item_Some b e1) as (x & Hx & Hbx); [lia|].
    destruct (item_Some a e2) as (y & Hy & Hay); [lia|].
    assert (x = y) by congruence. subst y.
    apply IH; cbn [fst snd]; try lia.
    replace (Z.to_nat (e1 - 1 + 1)) with (Z.to_nat e1) by lia.
    replace (Z.to_nat (e2 - 1 + 1)) with (Z.to_nat e2) by lia.
    rewrite (drop_S b x _ Hbx), (drop_S a x _ Hay).
    replace (S (Z.to_nat e1)) with (Z.to_nat (e1 + 1)) by lia.
    replace (S (Z.to_nat e2)) with (Z.to_nat (e2 + 1)) by lia.
    rewrite Heq. reflexivity.
Qed.

Lemma scan_suffix_inv (b a : list jsstring) (start : Z) :
  (0 <= start)%Z -> (start <= len b)%Z -> (start <= len a)%Z ->
  let r := scan_suffix b a start in
  (start - 1 <= r.1 < len b)%Z /\ (start - 1 <= r.2 < len a)%Z
  /\ (len b - r.1 = len a - r.2)%Z
  /\ drop (Z.to_nat (r.1 + 1)) b = drop (Z.to_nat (r.2 + 1)) a.
Proof.
  intros H0 Hb Ha. unfold scan_suffix.
  apply suffix_loop_inv; cbn [fst snd]; try lia.
  replace (Z.to_nat (len b - 1 + 1)) with (length b) by (unfold len; lia).
  replace (Z.to_nat (len a - 1 + 1)) with (length a) by (unfold len; lia).
  rewrite !drop_all. reflexivity.
Qed.

Lemma removedLines_slice (b : list jsstring) (start e : Z) :
  (0 <= start)%Z -> (start - 1 <= e < len b)%Z ->
  removedLines b start e = slice b start (e + 1).
Proof.
  intros H0 He. unfold removedLines.
  destruct (Z.leb_spec start e); [reflexivity|].
  assert (e + 1 = start)%Z as -> by lia.
  destruct (slice_mid b start start) as [-> _]; [lia|lia|].
  replace (Z.to_nat (start - start)) with 0 by lia. reflexivity.
Qed.

Lemma region (b a : list jsstring) :
  let start := scan_prefix b a in
  let ends := scan_suffix b a start in
  (0 <= start)%Z /\ (start - 1 <= ends.1 < len b)%Z /\ (start - 1 <= ends.2 < len a)%Z
  /\ removedLines b start ends.1 = slice b start (ends.1 + 1)
  /\ addedLines a start ends.2 = slice a start (ends.2 + 1)
  /\ b = take (Z.to_nat start) b ++ removedLines b start ends.1
           ++ drop (Z.to_nat (ends.1 + 1)) b
  /\ a = take (Z.to_nat start) b ++ addedLines a start ends.2
           ++ drop (Z.to_nat (ends.1 + 1)) b.
Proof.
  intros start ends.
  destruct (scan_prefix_inv b a) as (H0 & Hb & Ha & Hpre). fold start in H0, Hb, Ha, Hpre.
  destruct (scan_suffix_inv b a start H0 Hb Ha) as (H1 & H2 & Hd & Hsuf).
  fold ends in H1, H2, Hd, Hsuf.
  assert (Hrem : removedLines b start ends.1 = slice b start (ends.1 + 1))
    by (apply removedLines_slice; lia).
  assert (Hadd : addedLines a start ends.2 = slice a start (ends.2 + 1))
    by (apply (removedLines_slice a); lia).
  repeat split; try lia; try assumption.
  - rewrite Hrem. apply slice_mid; lia.
  - rewrite Hadd, Hpre, Hsuf. apply slice_mid; lia.
Qed.

Lemma trimDiffLines_long (lines : list jsstring) :
  (MAX_DIFF_LINES < len lines)%Z ->
  trimDiffLines lines
  = take 132 lines ++ [str "... diff truncated ..."] ++ drop (length lines - 87) lines.
Proof.
  intros Hlong. unfold MAX_DIFF_LINES in Hlong. unfold trimDiffLines.
  destruct (Z.leb_spec (len lines) MAX_DIFF_LINES) as [Hle|_];
    [unfold MAX_DIFF_LINES in Hle; lia|].
  change keepStart with 132%Z. change keepEnd with 87%Z.
  rewrite slice_prefix by lia.
  rewrite SseFacts.slice_from_drop by lia.
  replace (Z.to_nat (Z.max (len lines - 87) 132)) with (length lines - 87)
    by (unfold len in *; lia).
  reflexivity.
Qed.

(** X5 (diff length bound).  A diff listing is cut to at most 220 lines:
    a shorter listing is returned as it is, and a longer one keeps its
    first 132 lines and its last 87 lines around one marker line. *)
Theorem trimDiffLines_bound (lines : list jsstring) :
  len (trimDiffLines lines) = Z.min (len lines) MAX_DIFF_LINES
  /\ ((len lines <= MAX_DIFF_LINES)%Z -> trimDiffLines lines = lines)
  /\ ((MAX_DIFF_LINES < len lines)%Z ->
      trimDiffLines lines
      = take 132 lines ++ [str "... diff truncated ..."]
          ++ drop (length lines - 87) lines).
Proof.
  split; [|split].
  - destruct (Z.le_gt_cases (len lines) MAX_DIFF_LINES) as [Hle|Hgt].
    + rewrite DiffFacts.trimDiffLines_short by exact Hle. lia.
    + rewrite trimDiffLines_long by lia.
      unfold MAX_DIFF_LINES, len in *.
      rewrite !length_app, length_take, length_drop. cbn [length]. lia.
  - apply DiffFacts.trimDiffLines_short.
  - apply trimDiffLines_long.
Qed.

(** X6 (the hunk rewrites the old text into the new one).  With [start]
    and the two ends found by the scanning loops of [createUnifiedDiff],
    the old lines are the shared head, the removed lines and the shared
    tail, and the new lines are the same head, the added lines and the
    same tail: replacing the removed lines by the added ones turns the
    old text into the new one. *)
Theorem hunk_rewrites_old_into_new (beforeLines afterLines : list jsstring) :
  let start := scan_prefix beforeLines afterLines in
  let ends := scan_suffix beforeLines afterLines start in
  let head := take (Z.to_nat start) beforeLines in
  let tail := drop (Z.to_nat (ends.1 + 1)) beforeLines in
  beforeLines = head ++ removedLines beforeLines start ends.1 ++ tail
  /\ afterLines = head ++ addedLines afterLines start ends.2 ++ tail.
Proof.
  intros start ends head tail.
  destruct (region beforeLines afterLines) as (_ & _ & _ & _ & _ & Hb & Ha).
  split; assumption.
Qed.

(** X7 (line statistics).  For two different texts the additions and
    deletions [createUnifiedDiff] reports are bounded by the line counts
    of the new and the old text, and their difference is the difference
    of the two line counts. *)
Theorem diff_counts_balance (filePath previousContent nextContent : jsstring) :
  previousContent <> nextContent ->
  let d := createUnifiedDiff filePath previousContent nextContent in
  let beforeLines := split_on LF (normalizeLineEndings previousContent) in
  let afterLines := split_on LF (normalizeLineEndings nextContent) in
  (additions d - deletions d = len afterLines - len beforeLines)%Z
  /\ (0 <= additions d <= len afterLines)%Z
  /\ (0 <= deletions d <= len beforeLines)%Z.
Proof.
  intros Hne d b a. subst d. unfold createUnifiedDiff.
  rewrite bool_decide_eq_false_2 by exact Hne.
  fold b a.
  destruct (region b a) as (H0 & H1 & H2 & Hrem & Hadd & Hb & Ha).
  destruct (scan_suffix b a (scan_prefix b a)) as [be ae] eqn:Hends.
  cbn [fst snd additions deletions] in *.
  apply (f_equal (@length _)) in Hb, Ha.
  rewrite !length_app in Hb, Ha.
  unfold len. lia.
Qed.

(** X8 (the changed region is tight).  When the hunk both removes and
    adds lines, the first removed line differs from the first added line
    and the last removed line differs from the last added one: neither
    loop stopped early. *)
Theorem changed_region_is_tight (beforeLines afterLines : list jsstring) :
  let start := scan_prefix beforeLines afterLines in
  let ends := scan_suffix beforeLines afterLines start in
  let removed := removedLines beforeLines start ends.1 in
  let added := addedLines afterLines start ends.2 in
  removed <> [] -> added <> [] ->
  head removed <> head added /\ last removed <> last added.
Proof.
  intros start ends removed added Hr Ha.
  destruct (region beforeLines afterLines)
    as (H0 & H1 & H2 & Hrem & Hadd & _ & _).
  fold start ends in H0, H1, H2, Hrem, Hadd. fold removed in Hrem. fold added in Hadd.
  assert (Hs1 : (start <= ends.1)%Z).
  { destruct (Z.leb_spec start ends.1) as [|Hlt]; [assumption|].
    exfalso. apply Hr. unfold removed, removedLines.
    destruct (Z.leb_spec start ends.1); [lia|reflexivity]. }
  assert (Hs2 : (start <= ends.2)%Z).
  { destruct (Z.leb_spec start ends.2) as [|Hlt]; [assumption|].
    exfalso. apply Ha. unfold added, addedLines.
    destruct (Z.leb_spec start ends.2); [lia|reflexivity]. }
  destruct (slice_mid beforeLines start (ends.1 + 1)) as [Hsb _]; [lia|lia|].
  destruct (slice_mid afterLines start (ends.2 + 1)) as [Hsa _]; [lia|lia|].
  rewrite Hsb in Hrem. rewrite Hsa in Hadd.
  destruct (item_Some beforeLines start) as (x & Hx & Hbx); [lia|].
  destruct (item_Some afterLines start) as (y & Hy & Hay); [lia|].
  destruct (item_Some beforeLines ends.1) as (x' & Hx' & Hbx'); [lia|].
  destruct (item_Some afterLines ends.2) as (y' & Hy' & Hay'); [lia|].
  assert (Hhr : head removed = Some x).
  { rewrite Hrem. rewrite head_lookup, lookup_take_lt by lia.
    rewrite lookup_drop, Nat.add_0_r. exact Hbx. }
  assert (Hha : head added = Some y).
  { rewrite Hadd. rewrite head_lookup, lookup_take_lt by lia.
    rewrite lookup_drop, Nat.add_0_r. exact Hay. }
  assert (Hlr : last removed = Some x').
  { rewrite Hrem, last_lookup, length_take, length_drop.
    rewrite lookup_take_lt by (unfold len in *; lia).
    rewrite lookup_drop.
    replace (Z.to_nat start + Init.Nat.pred (Z.to_nat (ends.1 + 1 - start)
               `min` (length beforeLines - Z.to_nat start)))
      with (Z.to_nat ends.1) by (unfold len in *; lia).
    exact Hbx'. }
  assert (Hla : last added = Some y').
  { rewrite Hadd, last_lookup, length_take, length_drop.
    rewrite lookup_take_lt by (unfold len in *; lia).
    rewrite lookup_drop.
    replace (Z.to_nat start + Init.Nat.pred (Z.to_nat (ends.2 + 1 - start)
               `min` (length afterLines - Z.to_nat start)))
      with (Z.to_nat ends.2) by (unfold len in *; lia).
    exact Hay'. }
  rewrite Hhr, Hha, Hlr, Hla.
  destruct (scan_prefix_ends beforeLines afterLines) as [Hpc _]. fold start in Hpc.
  pose proof (scan_suffix_ends beforeLines afterLines start H0) as Hsc. fold ends in Hsc.
  unfold prefix_cond in Hpc. unfold suffix_cond in Hsc.
  split.
  - intros [= ->].
    destruct (Z.ltb_spec start (len beforeLines)); [|lia].
    destruct (Z.ltb_spec start (len afterLines)); [|lia].
    cbn [andb] in Hpc. apply bool_decide_eq_false in Hpc. congruence.
  - intros [= ->].
    destruct (Z.leb_spec start ends.1); [|lia].
    destruct (Z.leb_spec start ends.2); [|lia].
    cbn [andb] in Hsc. apply bool_decide_eq_false in Hsc. congruence.
Qed.

End DiffRegion.

(** *** Rate limiter *)

Module RateLimitFacts.
Import RateLimit RateLimitSpec.

Lemma cleanup_live (t : Z) (buckets : Buckets) (k : jsstring) (bucket : Bucket) :
  buckets !! k = Some bucket -> (t < resetAt bucket)%Z ->
  cleanupBuckets t buckets !! k = Some bucket.
Proof.
  intros Hk Hlive. unfold cleanupBuckets.
  destruct (Z.of_nat (size buckets) <=? MAX_BUCKETS)%Z; [exact Hk|].
  apply map_lookup_filter_Some. split; [exact Hk|]. cbn. lia.
Qed.

Lemma cleanup_lookup (t : Z) (buckets : Buckets) (k : jsstring) :
  cleanupBuckets t buckets !! k = buckets !! k
  \/ (cleanupBuckets t buckets !! k = None
      /\ exists bucket, buckets !! k = Some bucket /\ (resetAt bucket <= t)%Z).
Proof.
  unfold cleanupBuckets.
  destruct (Z.of_nat (size buckets) <=? MAX_BUCKETS)%Z; [left; reflexivity|].
  destruct (buckets !! k) as [bucket|] eqn:Hk.
  - destruct (Z.le_gt_cases (resetAt bucket) t) as [Hle|Hgt].
    + right. split; [|eauto].
      apply map_lookup_filter_None. right. intros x Hx. cbn.
      assert (x = bucket) as -> by congruence. lia.
    + left. apply map_lookup_filter_Some. split; [exact Hk|]. cbn. lia.
  - left. apply map_lookup_filter_None. left. exact Hk.
Qed.

Lemma cleanup_live_eq (t : Z) (buckets : Buckets) (k : jsstring) :
  live t (cleanupBuckets t buckets) k = live t buckets k.
Proof.
  unfold live.
  destruct (cleanup_lookup t buckets k) as [->|(-> & bucket & -> & Hle)]; [reflexivity|].
  destruct (Z.leb_spec (resetAt bucket) t); [reflexivity|lia].
Qed.

(** What a call does, told by the live bucket of its key. *)
Lemma rateLimit_by_live (k : jsstring) (o : RateLimitOptions) (t : Z) (buckets : Buckets) :
  rateLimit k o t buckets
  = match live t buckets k with
    | None =>
        (<[k := {| count := 1; resetAt := t + windowMs o |}]> (cleanupBuckets t buckets),
         {| limited := false; resultLimit := limit o;
            remaining := limit o - 1; resultResetAt := t + windowMs o |})
    | Some existing =>
        if (limit o <=? count existing)%Z then
          (cleanupBuckets t buckets,
           {| limited := true; resultLimit := limit o;
              remaining := 0; resultResetAt := resetAt existing |})
        else
          (<[k := {| count := count existing + 1; resetAt := resetAt existing |}]>
             (cleanupBuckets t buckets),
           {| limited := false; resultLimit := limit o;
              remaining := Z.max (limit o - (count existing + 1)) 0;
              resultResetAt := resetAt existing |})
    end.
Proof.
  rewrite <- (cleanup_live_eq t buckets k). unfold rateLimit, live.
  destruct (cleanupBuckets t buckets !! k) as [existing|]; [|reflexivity].
  destruct (resetAt existing <=? t)%Z; reflexivity.
Qed.

Lemma rateLimit_other (k k' : jsstring) (o : RateLimitOptions) (t : Z)
    (buckets : Buckets) (bucket : Bucket) :
  k' <> k -> buckets !! k' = Some bucket -> (t < resetAt bucket)%Z ->
  (rateLimit k o t buckets).1 !! k' = Some bucket.
Proof.
  intros Hne Hk' Hlive.
  pose proof (cleanup_live t buckets k' bucket Hk' Hlive) as Hc.
  rewrite rateLimit_by_live.
  destruct (live t buckets k) as [existing|].
  - destruct (limit o <=? count existing)%Z; cbn [fst];
      [exact Hc|rewrite lookup_insert_ne by congruence; exact Hc].
  - cbn [fst]. rewrite lookup_insert_ne by congruence. exact Hc.
Qed.

(** Inside a window: [k] was called [i] times, its bucket ends at
    [windowEnd], and every further call comes before [windowEnd]. *)
Lemma serve_in_window (k : jsstring) (o : RateLimitOptions) (windowEnd : Z)
    (calls : list Call) (buckets : Buckets) (i : nat) :
  (1 <= limit o)%Z ->
  buckets !! k = Some {| count := Z.min (Z.of_nat i) (limit o); resetAt := windowEnd |} ->
  Forall (fun call => (now call < windowEnd)%Z /\ (key call = k -> options call = o)) calls ->
  answersFor k calls (serve calls buckets).2
  = map (quotaAnswer (limit o) windowEnd)
      (seq (S i) (length (filter (fun call => key call = k) calls))).
Proof.
  intros Hl Hk Hall. revert buckets i Hk.
  induction Hall as [|call calls [Hnow Hopt] _ IH]; intros buckets i Hk; [reflexivity|].
  cbn [serve].
  destruct (rateLimit (key call) (options call) (now call) buckets) as [buckets1 result] eqn:Hr.
  destruct (serve calls buckets1) as [buckets2 results] eqn:Hs.
  cbn [snd answersFor]. rewrite filter_cons.
  destruct (decide (key call = k)) as [Hkey|Hkey].
  - rewrite Hkey, (Hopt Hkey) in Hr. rewrite rateLimit_by_live in Hr.
    assert (Hlive : live (now call) buckets k
                    = Some {| count := Z.min (Z.of_nat i) (limit o); resetAt := windowEnd |}).
    { unfold live. rewrite Hk. cbn [resetAt].
      destruct (Z.leb_spec windowEnd (now call)); [lia|reflexivity]. }
    rewrite Hlive in Hr. cbn [count resetAt] in Hr.
    pose proof (cleanup_live (now call) buckets k _ Hk Hnow) as Hc.
    cbn [length seq map].
    replace results with (serve calls buckets1).2 by (rewrite Hs; reflexivity).
    destruct (Z.leb_spec (limit o) (Z.min (Z.of_nat i) (limit o))) as [Hfull|Hroom].
    + injection Hr as <- <-. f_equal.
      * unfold quotaAnswer. f_equal; try lia.
        destruct (Z.ltb_spec (limit o) (Z.of_nat (S i))); [reflexivity|lia].
      * apply IH. rewrite Hc. f_equal. f_equal. lia.
    + injection Hr as <- <-. f_equal.
      * unfold quotaAnswer. f_equal; try lia.
        destruct (Z.ltb_spec (limit o) (Z.of_nat (S i))); [lia|reflexivity].
      * apply IH. rewrite lookup_insert_eq. f_equal. f_equal. lia.
  - replace results with (serve calls buckets1).2 by (rewrite Hs; reflexivity).
    apply IH.
    replace buckets1 with (rateLimit (key call) (options call) (now call) buckets).1
      by (rewrite Hr; reflexivity).
    apply rateLimit_other; [congruence|exact Hk|exact Hnow].
Qed.

(** X9 (quota of a window).  Let a call for a key find no live bucket, so
    that it opens a window of [windowMs] milliseconds, and let any calls
    follow before the window ends, those for this key with the same
    options and a limit of at least 1.  Then the [i]-th call for the key
    is refused exactly when [i] exceeds the limit, and is told
    [limit - i] remaining calls (0 once over the limit) and the end of
    the window, whatever calls for other keys come in between. *)
Theorem window_quota (k : jsstring) (o : RateLimitOptions) (t0 : Z)
    (calls : list Call) (buckets : Buckets) :
  (1 <= limit o)%Z ->
  live t0 buckets k = None ->
  Forall (fun call => (now call < t0 + windowMs o)%Z
                      /\ (key call = k -> options call = o)) calls ->
  let all := {| key := k; options := o; now := t0 |} :: calls in
  answersFor k all (serve all buckets).2
  = map (quotaAnswer (limit o) (t0 + windowMs o))
      (seq 1 (length (filter (fun call => key call = k) all))).
Proof.
  intros Hl Hfresh Hall all. subst all. cbn [serve key options now].
  rewrite rateLimit_by_live, Hfresh.
  destruct (serve calls _) as [buckets2 results] eqn:Hs.
  cbn [snd answersFor key]. rewrite filter_cons. cbn [key].
  destruct (decide (k = k)) as [_|]; [|contradiction].
  cbn [length seq map]. f_equal.
  - unfold quotaAnswer. f_equal; try lia.
    destruct (Z.ltb_spec (limit o) (Z.of_nat 1)); [lia|reflexivity].
  - replace results with
      (serve calls (<[k := {| count := 1; resetAt := t0 + windowMs o |}]>
                      (cleanupBuckets t0 buckets))).2 by (rewrite Hs; reflexivity).
    apply (serve_in_window k o (t0 + windowMs o) calls _ 1 Hl); [|exact Hall].
    rewrite lookup_insert_eq. f_equal. f_equal. lia.
Qed.

(** X10 (keys do not interfere; expired buckets do not count).  A call
    leaves the live bucket of every other key as it is, and its own
    answer and new bucket depend only on the live bucket of its key:
    two maps that agree there give the same answer, so buckets of other
    keys and expired buckets (removed by the cleanup or not) never change
    an answer. *)
Theorem keys_are_independent (k : jsstring) (o : RateLimitOptions) (t : Z)
    (buckets : Buckets) :
  (forall k' bucket,
      k' <> k -> buckets !! k' = Some bucket -> (t < resetAt bucket)%Z ->
      (rateLimit k o t buckets).1 !! k' = Some bucket)
  /\ (forall buckets',
        live t buckets' k = live t buckets k ->
        (rateLimit k o t buckets').2 = (rateLimit k o t buckets).2
        /\ (rateLimit k o t buckets').1 !! k = (rateLimit k o t buckets).1 !! k).
Proof.
  split.
  - intros k' bucket. apply rateLimit_other.
  - intros buckets' Hlive. rewrite !rateLimit_by_live, Hlive.
    destruct (live t buckets k) as [existing|] eqn:Hl.
    + destruct (limit o <=? count existing)%Z; cbn [fst snd].
      * split; [reflexivity|].
        pose proof (cleanup_live_eq t buckets k) as H1.
        pose proof (cleanup_live_eq t buckets' k) as H2.
        rewrite Hl in H1. rewrite Hlive in H2. unfold live in H1, H2.
        destruct (cleanupBuckets t buckets !! k) as [b1|]; [|discriminate].
        destruct (cleanupBuckets t buckets' !! k) as [b2|]; [|discriminate].
        destruct (resetAt b1 <=? t)%Z; [discriminate|].
        destruct (resetAt b2 <=? t)%Z; [discriminate|]. congruence.
      * rewrite !lookup_insert_eq. split; reflexivity.
    + cbn [fst snd]. rewrite !lookup_insert_eq. split; reflexivity.
Qed.

End RateLimitFacts.

(** *** Edit route: quoting, model answers and edit context *)

Module EditContextFacts.
Import Orchestrator EditContext EditContextSpec ShellSpec NormalizerSpec.

Lemma unquote_quoted (value : jsstring) :
  unquote InSingle
    (concat (map (fun c => if Ascii.eqb c QUOTE
                           then [QUOTE; DQUOTE; QUOTE; DQUOTE; QUOTE]
                           else [c]) value) ++ [QUOTE])
  = Some value.
Proof.
  induction value as [|c value IH]; [reflexivity|].
  cbn [map concat].
  destruct (Ascii.eqb_spec c QUOTE) as [->|Hc].
  - cbn [app unquote]. 
    change (Ascii.eqb QUOTE QUOTE) with true.
    change (Ascii.eqb DQUOTE QUOTE) with false.
    change (Ascii.eqb DQUOTE DQUOTE) with true.
    change (Ascii.eqb QUOTE DQUOTE) with false.
    change (Ascii.eqb QUOTE "$"%char) with false.
    change (Ascii.eqb QUOTE "`"%char) with false.
    change (Ascii.eqb QUOTE BACKSLASH) with false.
    cbn [orb]. cbv iota. rewrite IH. reflexivity.
  - cbn [app unquote].
    destruct (Ascii.eqb_spec c QUOTE); [contradiction|].
    rewrite IH. reflexivity.
Qed.

(** X11 (shell quoting).  Whatever the value (quotes, spaces, dollar
    signs, line ends), a POSIX shell reads [shellQuote value] as one
    quoted word that stands for exactly that value. *)
Theorem shellQuote_round_trip (value : jsstring) :
  unquote Bare (shellQuote value) = Some value.
Proof.
  unfold shellQuote. cbn [app unquote].
  change (Ascii.eqb QUOTE QUOTE) with true. cbv iota.
  apply unquote_quoted.
Qed.

(** **** Model answers *)

Lemma indexOf_single_first (x : ascii) (pre rest : jsstring) :
  x ∉ pre -> indexOf (pre ++ x :: rest) [x] = Z.of_nat (length pre).
Proof.
  induction pre as [|c pre IH]; intros Hno.
  - cbn [app]. rewrite SseFacts.indexOf_cons. cbn [startsWith].
    rewrite Ascii.eqb_refl, startsWith_nil. reflexivity.
  - assert (c <> x) by (intros ->; apply Hno; left).
    assert (x ∉ pre) by (intros Hin; apply Hno; right; exact Hin).
    change ((c :: pre) ++ x :: rest) with (c :: (pre ++ x :: rest)).
    rewrite SseFacts.indexOf_cons. cbn [startsWith].
    destruct (Ascii.eqb_spec x c) as [E|_]; [congruence|]. cbn [andb].
    rewrite IH by assumption.
    destruct (Z.eqb_spec (Z.of_nat (length pre)) (-1)); cbn [length]; lia.
Qed.

Lemma indexOf_single_none (x : ascii) (s : jsstring) :
  x ∉ s -> indexOf s [x] = (-1)%Z.
Proof.
  induction s as [|c s IH]; intros Hno; [reflexivity|].
  assert (c <> x) by (intros ->; apply Hno; left).
  assert (x ∉ s) by (intros Hin; apply Hno; right; exact Hin).
  rewrite SseFacts.indexOf_cons. cbn [startsWith].
  destruct (Ascii.eqb_spec x c) as [E|_]; [congruence|]. cbn [andb].
  rewrite IH by assumption. reflexivity.
Qed.

Lemma lastIndexOf_from_none (x : ascii) (s : jsstring) (i found : Z) :
  x ∉ s -> lastIndexOf_from s [x] i found = found.
Proof.
  revert i found. induction s as [|c s IH]; intros i found Hno; [reflexivity|].
  assert (c <> x) by (intros ->; apply Hno; left).
  assert (x ∉ s) by (intros Hin; apply Hno; right; exact Hin).
  cbn [lastIndexOf_from startsWith].
  destruct (Ascii.eqb_spec x c) as [E|_]; [congruence|]. cbn [andb].
  apply IH. assumption.
Qed.

Lemma lastIndexOf_from_last (x : ascii) (pre post : jsstring) (i found : Z) :
  x ∉ post ->
  lastIndexOf_from (pre ++ x :: post) [x] i found = (i + Z.of_nat (length pre))%Z.
Proof.
  intros Hno. revert i found. induction pre as [|c pre IH]; intros i found.
  - cbn [app lastIndexOf_from startsWith].
    rewrite Ascii.eqb_refl, startsWith_nil. cbn [andb].
    rewrite lastIndexOf_from_none by exact Hno. cbn [length]. lia.
  - change ((c :: pre) ++ x :: post) with (c :: (pre ++ x :: post)).
    cbn [lastIndexOf_from]. rewrite IH. cbn [length]. lia.
Qed.

Section WithJson.

Context {Value : Type}.
Variable JSON_parse : jsstring -> Exn Value.

(** X12 (answers wrapped in other text).  An answer that parses as JSON
    is returned as parsed.  Otherwise the text from the first opening
    brace to the last closing brace is parsed instead, and the result of
    that second parse is the result; when there is no opening brace, no
    closing brace, or the last closing brace comes before the first
    opening one, the error is "Model response was not valid JSON". *)
Theorem braces_are_recovered (raw : jsstring) :
  (forall value, JSON_parse raw = Ok value ->
     extractJsonObject JSON_parse raw = Ok value)
  /\ (forall message pre mid post,
        JSON_parse raw = Throw message ->
        raw = pre ++ str "{" ++ mid ++ str "}" ++ post ->
        "{"%char ∉ pre -> "}"%char ∉ post ->
        extractJsonObject JSON_parse raw = JSON_parse (str "{" ++ mid ++ str "}"))
  /\ (forall message,
        JSON_parse raw = Throw message ->
        "{"%char ∉ raw \/ "}"%char ∉ raw ->
        extractJsonObject JSON_parse raw = Throw (str "Model response was not valid JSON"))
  /\ (forall message pre rest,
        JSON_parse raw = Throw message ->
        raw = pre ++ str "}" ++ rest ->
        "{"%char ∉ pre -> "}"%char ∉ rest ->
        extractJsonObject JSON_parse raw = Throw (str "Model response was not valid JSON")).
Proof.
  unfold extractJsonObject. repeat split.
  - intros value ->. reflexivity.
  - intros message pre mid post -> -> Hpre Hpost.
    change (str "{") with ["{"%char]. change (str "}") with ["}"%char].
    cbn [app].
    rewrite indexOf_single_first by exact Hpre.
    unfold lastIndexOf.
    replace (pre ++ "{"%char :: mid ++ "}"%char :: post)
      with ((pre ++ "{"%char :: mid) ++ "}"%char :: post)
      by (rewrite <- app_assoc; reflexivity).
    rewrite lastIndexOf_from_last by exact Hpost.
    rewrite length_app. cbn [length].
    destruct (Z.eqb_spec (Z.of_nat (length pre)) (-1)); [lia|].
    destruct (Z.eqb_spec (0 + Z.of_nat (length pre + S (length mid))) (-1)); [lia|].
    destruct (Z.leb_spec (0 + Z.of_nat (length pre + S (length mid))) (Z.of_nat (length pre)));
      [lia|].
    cbn [orb]. f_equal.
    destruct (DiffRegion.slice_mid
                ((pre ++ "{"%char :: mid) ++ "}"%char :: post)
                (Z.of_nat (length pre))
                (0 + Z.of_nat (length pre + S (length mid)) + 1)) as [-> _].
    { lia. }
    { unfold Diff.len. rewrite !length_app. cbn [length]. lia. }
    rewrite Nat2Z.id.
    rewrite <- app_assoc. rewrite drop_app_length.
    replace (Z.to_nat (0 + Z.of_nat (length pre + S (length mid)) + 1 - Z.of_nat (length pre)))
      with (length ("{"%char :: mid ++ ["}"%char])) by (cbn [length]; rewrite length_app; cbn [length]; lia).
    replace (("{"%char :: mid) ++ "}"%char :: post)
      with (("{"%char :: mid ++ ["}"%char]) ++ post)
      by (cbn [app]; rewrite <- app_assoc; reflexivity).
    rewrite take_app_length. reflexivity.
  - intros message -> [Hno|Hno].
    + change (str "{") with ["{"%char].
      rewrite indexOf_single_none by exact Hno. reflexivity.
    + change (str "}") with ["}"%char]. unfold lastIndexOf.
      rewrite lastIndexOf_from_none by exact Hno.
      rewrite Z.eqb_refl, orb_true_r. reflexivity.
  - intros message pre rest -> -> Hpre Hrest.
    change (str "{") with ["{"%char]. change (str "}") with ["}"%char].
    cbn [app]. unfold lastIndexOf.
    rewrite lastIndexOf_from_last by exact Hrest.
    set (raw := pre ++ "}"%char :: rest).
    destruct (Z.eqb_spec (indexOf raw ["{"%char]) (-1)) as [|Hfound]; [reflexivity|].
    destruct (Z.eqb_spec (0 + Z.of_nat (length pre)) (-1)); [lia|].
    destruct (Z.leb_spec (0 + Z.of_nat (length pre)) (indexOf raw ["{"%char])) as [|Hlt];
      [reflexivity|].
    exfalso.
    destruct (SseFacts.indexOf_found raw ["{"%char] Hfound) as (H0 & Hlen & Heq).
    assert (Hat : raw !! Z.to_nat (indexOf raw ["{"%char]) = Some "{"%char).
    { pose proof (list_lookup_middle (take (Z.to_nat (indexOf raw ["{"%char])) raw)
                    (drop (Z.to_nat (indexOf raw ["{"%char]) + length ["{"%char]) raw)
                    "{"%char (Z.to_nat (indexOf raw ["{"%char]))) as Hmid.
      change (take (Z.to_nat (indexOf raw ["{"%char])) raw
              ++ "{"%char :: drop (Z.to_nat (indexOf raw ["{"%char]) + length ["{"%char]) raw)
        with (take (Z.to_nat (indexOf raw ["{"%char])) raw ++ ["{"%char]
              ++ drop (Z.to_nat (indexOf raw ["{"%char]) + length ["{"%char]) raw) in Hmid.
      rewrite <- Heq in Hmid. apply Hmid.
      rewrite length_take. cbn [length] in Hlen. lia. }
    assert (Hat2 : (pre ++ "}"%char :: rest) !! Z.to_nat (indexOf raw ["{"%char])
                   = Some "{"%char) by exact Hat.
    clear Hat. rename Hat2 into Hat.
    destruct (decide (Z.to_nat (indexOf raw ["{"%char]) < length pre)) as [Hin|Hout].
    + rewrite lookup_app_l in Hat by exact Hin.
      apply Hpre. eapply list_elem_of_lookup_2. exact Hat.
    + assert (Z.to_nat (indexOf raw ["{"%char]) = length pre) as Hpos by lia.
      rewrite Hpos, list_lookup_middle in Hat by reflexivity. discriminate.
Qed.

End WithJson.

(** **** Context selection *)

Lemma truthy_false (s : jsstring) : truthy s = false <-> s = [].
Proof. destruct s; cbn; split; congruence. Qed.

Lemma uniquePathsLoop_spec (input : list jsstring) (seen : gset jsstring)
    (result : list jsstring) :
  (forall p, p ∈ seen <-> p ∈ result) -> NoDup result ->
  NoDup (uniquePathsLoop input seen result)
  /\ (forall p, p ∈ uniquePathsLoop input seen result
                <-> p ∈ result
                    \/ (p <> [] /\ exists raw, raw ∈ input
                                               /\ normalizeRelativeSandboxPath raw = Ok p)).
Proof.
  revert seen result. induction input as [|raw rest IH]; intros seen result Hseen Hnd.
  - cbn [uniquePathsLoop]. split; [exact Hnd|]. intros p. split; [auto|].
    intros [Hin|(_ & raw & Hraw & _)]; [exact Hin|]. inversion Hraw.
  - cbn [uniquePathsLoop].
    destruct (normalizeRelativeSandboxPath raw) as [n|message] eqn:Hnorm.
    + destruct (negb (truthy n) || bool_decide (n ∈ seen)) eqn:Hskip.
      * destruct (IH seen result Hseen Hnd) as [Hnd' Hiff]. split; [exact Hnd'|].
        intros p. rewrite Hiff. split.
        -- intros [Hin|(Hne & raw' & Hraw' & Hok)]; [left; exact Hin|].
           right. split; [exact Hne|]. exists raw'. split; [right; exact Hraw'|exact Hok].
        -- intros [Hin|(Hne & raw' & Hraw' & Hok)]; [left; exact Hin|].
           apply elem_of_cons in Hraw' as [->|Hraw'].
           ++ left. assert (p = n) as -> by congruence.
              apply orb_prop in Hskip as [Hempty|Hdup].
              ** apply negb_true_iff, truthy_false in Hempty. contradiction.
              ** apply bool_decide_eq_true in Hdup. apply Hseen. exact Hdup.
           ++ right. split; [exact Hne|]. exists raw'. split; assumption.
      * apply orb_false_elim in Hskip as [Hempty Hdup].
        apply negb_false_iff in Hempty. apply bool_decide_eq_false in Hdup.
        assert (Hnew : n ∉ result) by (intros Hin; apply Hdup, Hseen; exact Hin).
        destruct (IH ({[n]} ∪ seen) (result ++ [n])) as [Hnd' Hiff].
        { intros p. rewrite elem_of_union, elem_of_singleton, elem_of_app,
            list_elem_of_singleton, Hseen. tauto. }
        { apply NoDup_app. split; [exact Hnd|]. split; [|apply NoDup_singleton].
          intros x Hx Hx'. apply list_elem_of_singleton in Hx'. subst x. contradiction. }
        split; [exact Hnd'|].
        intros p. rewrite Hiff, elem_of_app, list_elem_of_singleton. split.
        -- intros [[Hin| ->]|(Hne & raw' & Hraw' & Hok)].
           ++ left; exact Hin.
           ++ right. split; [intros ->; discriminate|].
              exists raw. split; [left|exact Hnorm].
           ++ right. split; [exact Hne|]. exists raw'. split; [right; exact Hraw'|exact Hok].
        -- intros [Hin|(Hne & raw' & Hraw' & Hok)]; [left; left; exact Hin|].
           apply elem_of_cons in Hraw' as [->|Hraw'].
           ++ left. right. congruence.
           ++ right. split; [exact Hne|]. exists raw'. split; assumption.
    + destruct (IH seen result Hseen Hnd) as [Hnd' Hiff]. split; [exact Hnd'|].
      intros p. rewrite Hiff. split.
      * intros [Hin|(Hne & raw' & Hraw' & Hok)]; [left; exact Hin|].
        right. split; [exact Hne|]. exists raw'. split; [right; exact Hraw'|exact Hok].
      * intros [Hin|(Hne & raw' & Hraw' & Hok)]; [left; exact Hin|].
        apply elem_of_cons in Hraw' as [->|Hraw']; [congruence|].
        right. split; [exact Hne|]. exists raw'. split; assumption.
Qed.

Lemma uniquePaths_sound (input : list jsstring) :
  NoDup (uniquePaths input) /\ (forall p, p ∈ uniquePaths input -> cleanPath p).
Proof.
  destruct (uniquePathsLoop_spec input ∅ []) as [Hnd Hiff].
  { intros p. rewrite elem_of_empty. split; [tauto|]. intros Hin. inversion Hin. }
  { apply NoDup_nil_2. }
  split; [exact Hnd|]. intros p Hin. apply Hiff in Hin as [Hin|(Hne & raw & _ & Hok)].
  - inversion Hin.
  - exact (PathFacts.normalizeRelativeSandboxPath_clean raw p Hok Hne).
Qed.

(** X13 (requested paths).  [uniquePaths] never throws; it returns,
    without repetition, exactly the non-empty normalized forms of the
    inputs the path normalizer accepts, and each of them is free of null
    characters, relative, and without a [..] segment. *)
Theorem uniquePaths_are_clean_and_distinct (input : list jsstring) :
  NoDup (uniquePaths input)
  /\ (forall p, p ∈ uniquePaths input
                <-> p <> [] /\ exists raw, raw ∈ input
                                           /\ normalizeRelativeSandboxPath raw = Ok p)
  /\ (forall p, p ∈ uniquePaths input -> cleanPath p).
Proof.
  destruct (uniquePathsLoop_spec input ∅ []) as [Hnd Hiff].
  { intros p. rewrite elem_of_empty. split; [tauto|]. intros Hin. inversion Hin. }
  { apply NoDup_nil_2. }
  assert (Hiff' : forall p, p ∈ uniquePaths input
                  <-> p <> [] /\ exists raw, raw ∈ input
                                             /\ normalizeRelativeSandboxPath raw = Ok p).
  { intros p. unfold uniquePaths. rewrite Hiff. split; [|auto].
    intros [Hin|H]; [inversion Hin|exact H]. }
  split; [exact Hnd|]. split; [exact Hiff'|].
  intros p Hin. apply Hiff' in Hin as (Hne & raw & _ & Hok).
  exact (PathFacts.normalizeRelativeSandboxPath_clean raw p Hok Hne).
Qed.

Lemma boundContent_facts (content : jsstring) :
  NUL ∉ content ->
  (Z.of_nat (length (boundContent content)) <= 30016)%Z /\ NUL ∉ boundContent content.
Proof.
  intros Hno. unfold boundContent, MAX_FILE_CHARS.
  destruct (Z.ltb_spec 30000 (Z.of_nat (length content))) as [Hlong|Hshort].
  - rewrite slice_prefix by lia. split.
    + rewrite !length_app, length_take.
      change (length (str "/* truncated */")) with 15. cbn [length]. lia.
    + intros Hin. rewrite !elem_of_app in Hin. destruct Hin as [Hin|[Hin|Hin]].
      * apply Hno. apply (subseteq_take (Z.to_nat 30000)). exact Hin.
      * apply list_elem_of_singleton in Hin. discriminate.
      * vm_compute in Hin.
        repeat (apply elem_of_cons in Hin as [Hin|Hin]; [discriminate|]). inversion Hin.
  - split; [lia|exact Hno].
Qed.

Section WithSandbox.

Context {Sandbox : Type}.
Variable executeCommand : Command -> Sandbox -> Sandbox * Exn CommandResult.
Variable projectDir : jsstring.

Lemma contextLoop_inv (paths : list jsstring) (files : list AIEditFile) (chars : Z)
    (sb sb' : Sandbox) (out : list AIEditFile) :
  contextLoop executeCommand projectDir paths files chars sb = (sb', Ok out) ->
  (chars <= MAX_CONTEXT_CHARS)%Z ->
  exists more,
    out = files ++ more
    /\ map path more `sublist_of` paths
    /\ Forall (fun file => (Z.of_nat (length (content file)) <= 30016)%Z /\ (NUL ∉ content file)) more
    /\ (chars + totalChars more <= MAX_CONTEXT_CHARS)%Z.
Proof.
  revert files chars sb. induction paths as [|filePath rest IH]; intros files chars sb Hrun Hc.
  - cbn [contextLoop] in Hrun. unfold ret in Hrun. injection Hrun as _ <-.
    exists []. rewrite app_nil_r. cbn. repeat split; [constructor|constructor|lia].
  - cbn [contextLoop] in Hrun. unfold bind at 1 in Hrun.
    destruct (readProjectFile executeCommand projectDir filePath sb)
      as [sb1 [[text|]|message]]; [| |discriminate].
    + destruct (looksBinary text) eqn:Hbin.
      * destruct (IH _ _ _ Hrun Hc) as (more & -> & Hsub & Hall & Hsum).
        exists more. repeat split; try assumption. apply sublist_cons. exact Hsub.
      * assert (Hnul : NUL ∉ text) by (apply PathFacts.includes_single; exact Hbin).
        destruct (boundContent_facts text Hnul) as [Hlen Hnul'].
        destruct (Z.ltb_spec MAX_CONTEXT_CHARS
                    (chars + Z.of_nat (length (boundContent text)))) as [Hfull|Hroom].
        -- unfold ret in Hrun. injection Hrun as _ <-.
           exists []. rewrite app_nil_r. cbn. repeat split; [apply sublist_nil_l|constructor|lia].
        -- destruct (IH _ _ _ Hrun Hroom) as (more & -> & Hsub & Hall & Hsum).
           exists ({| path := filePath; content := boundContent text |} :: more).
           rewrite <- app_assoc. repeat split.
           ++ cbn [map path]. apply sublist_skip. exact Hsub.
           ++ constructor; [split; assumption|exact Hall].
           ++ cbn [totalChars foldr content]. fold (totalChars more). lia.
    + destruct (IH _ _ _ Hrun Hc) as (more & -> & Hsub & Hall & Hsum).
      exists more. repeat split; try assumption. apply sublist_cons. exact Hsub.
Qed.

(** X14 (context budget).  When the context gathering loop of [POST]
    finishes, the files handed to the model hold at most 140000
    characters in all and are at most 14; each content has at most 30016
    characters and no null character; the files are files of the
    selection, in its order and without repetition, under clean relative
    paths. *)
Theorem context_budget (requestedPaths allFiles : list jsstring) (sb sb' : Sandbox)
    (contextFiles : list AIEditFile) :
  contextLoop executeCommand projectDir (selectPaths requestedPaths allFiles) [] 0 sb
  = (sb', Ok contextFiles) ->
  (totalChars contextFiles <= MAX_CONTEXT_CHARS)%Z
  /\ length contextFiles <= 14
  /\ Forall (fun file => (Z.of_nat (length (content file)) <= 30016)%Z /\ (NUL ∉ content file)
                         /\ cleanPath (path file)) contextFiles
  /\ NoDup (map path contextFiles)
  /\ map path contextFiles `sublist_of` selectPaths requestedPaths allFiles.
Proof.
  intros Hrun.
  destruct (contextLoop_inv _ _ _ _ _ _ Hrun) as (more & -> & Hsub & Hall & Hsum);
    [unfold MAX_CONTEXT_CHARS; lia|].
  cbn [app] in *.
  set (chosen := if (0 <? Z.of_nat (length requestedPaths))%Z
                 then requestedPaths else allFiles) in *.
  assert (Hsel : selectPaths requestedPaths allFiles = take 14 (uniquePaths chosen)).
  { unfold selectPaths, MAX_CONTEXT_FILES. fold chosen. rewrite slice_prefix by lia.
    reflexivity. }
  rewrite Hsel in Hsub |- *.
  destruct (uniquePaths_sound chosen) as (Hnd & Hclean).
  split; [|split; [|split; [|split]]].
  - lia.
  - apply sublist_length in Hsub. rewrite length_map, length_take in Hsub. lia.
  - apply Forall_forall. intros file Hin.
    pose proof (proj1 (Forall_forall _ _) Hall file Hin) as [Hlen Hnul].
    split; [exact Hlen|]. split; [exact Hnul|].
    apply Hclean. apply (subseteq_take 14).
    eapply elem_of_sublist; [|exact Hsub].
    apply list_elem_of_fmap. exists file. split; [reflexivity|exact Hin].
  - eapply sublist_NoDup; [|exact Hsub].
    eapply sublist_NoDup; [exact Hnd|apply sublist_take].
  - exact Hsub.
Qed.

End WithSandbox.

End EditContextFacts.

(** *** Resolving accepted paths against the project directory *)

Module ResolveFacts.
Import PosixPath NormalizerSpec PathSpec PathFacts.

Lemma kept_plain (s seg : jsstring) :
  keptSegment (split_on SLASH s) seg -> plainSegment seg.
Proof.
  intros Hk. pose proof (keptSegment_no_slash _ _ Hk) as Hns.
  destruct Hk as (_ & H1 & H2 & H3). repeat split; assumption.
Qed.

(** The shape of every non-empty path the normalizer returns: plain
    segments joined by slashes, with or without a closing slash. *)
Lemma normalized_form (rawPath p : jsstring) :
  normalizeRelativeSandboxPath rawPath = Ok p -> p <> [] ->
  exists ns t,
    ns <> [] /\ Forall plainSegment ns /\ (t = [] \/ t = [SLASH])
    /\ p = join [SLASH] ns ++ t.
Proof.
  unfold normalizeRelativeSandboxPath.
  destruct (includes rawPath [NUL]) eqn:Hnul; [done|].
  set (ni := trim (replace_backslashes rawPath)).
  destruct (truthy ni) eqn:Hni; cbn [negb]; [|by intros [= <-]].
  destruct (startsWith ni [SLASH]) eqn:Habs; [done|].
  destruct (normalize_relative ni) as (ns & k & Hkept & ->); [by destruct ni|done|].
  set (t := if bool_decide (last ni = Some SLASH) then [SLASH] else []).
  assert (Ht : t = [] \/ t = [SLASH]).
  { subst t. destruct (bool_decide _); auto. }
  destruct k as [|k].
  - cbn [replicate app]. destruct ns as [|s1 more].
    + cbn [join]. destruct (bool_decide (last ni = Some SLASH)); cbn; by intros [= <-].
    + pose proof Hkept as Hkept0.
      apply Forall_cons in Hkept as [Hs1 Hmore].
      assert (HJ : join [SLASH] (s1 :: more) <> []).
      { rewrite join_cons_form. destruct Hs1 as (_ & ? & _). by destruct s1. }
      destruct (join [SLASH] (s1 :: more)) as [|j0 J] eqn:EJ; [done|].
      rewrite <- EJ. clear HJ.
      assert (Hstrip : stripDotSlashes (join [SLASH] (s1 :: more) ++ t)
                       = join [SLASH] (s1 :: more) ++ t).
      { rewrite join_cons_form, <- app_assoc.
        apply (stripDotSlashes_kept ni); [done|].
        destruct more as [|m more']; [|right; eauto].
        destruct Ht as [->| ->]; [by left|right; by exists []]. }
      rewrite Hstrip.
      destruct (_ || _); [done|].
      destruct (bool_decide (_ = str ".")); [by intros [= <-]|].
      intros Heq _.
      exists (s1 :: more), t. split; [done|]. split; [|split; [done|congruence]].
      eapply Forall_impl; [exact Hkept0|]. intros seg. apply kept_plain.
  - cbn [replicate app]. rewrite join_cons_form.
    set (tail := match replicate k (str "..") ++ ns with
                 | [] => []
                 | _ => [SLASH] ++ join [SLASH] (replicate k (str "..") ++ ns)
                 end).
    assert (Hrest : tail ++ t = [] \/ exists u, tail ++ t = SLASH :: u).
    { subst tail. destruct (replicate k (str "..") ++ ns).
      - destruct Ht as [->| ->]; [by left|right; by exists []].
      - right. eauto. }
    change (str "..") with [DOT; DOT]. cbn [app].
    assert (Hs : stripDotSlashes (DOT :: DOT :: tail ++ t) = DOT :: DOT :: tail ++ t)
      by reflexivity.
    rewrite Hs. destruct Hrest as [->|(u & ->)].
    + by rewrite bool_decide_true.
    + assert (Hsw : startsWith (DOT :: DOT :: SLASH :: u) (str "../") = true)
        by (by destruct u).
      by rewrite Hsw, orb_true_r.
Qed.

(** Plain segments pass [normalizeString] unchanged, and empty segments
    disappear. *)
Lemma normalizeString_plain (allowAboveRoot : bool) (segs res : list jsstring) :
  Forall (fun seg => seg = [] \/ plainSegment seg) segs ->
  normalizeString allowAboveRoot segs res
  = rev res ++ filter (fun seg => seg <> []) segs.
Proof.
  intros Hall. revert res. induction Hall as [|seg segs Hseg _ IH]; intros res.
  - cbn [normalizeString]. rewrite app_nil_r. reflexivity.
  - cbn [normalizeString]. rewrite filter_cons.
    destruct Hseg as [->|(H1 & H2 & H3 & _)].
    + rewrite bool_decide_true by reflexivity. cbn [orb].
      destruct (decide ([] <> [])) as [Hc|_]; [contradiction|]. apply IH.
    + rewrite (bool_decide_false _ H1), (bool_decide_false _ H2), (bool_decide_false _ H3).
      cbn [orb]. destruct (decide (seg <> [])) as [_|Hc]; [|contradiction].
      rewrite IH. cbn [rev]. rewrite <- app_assoc. reflexivity.
Qed.

Lemma filter_plain (segs : list jsstring) :
  Forall plainSegment segs -> filter (fun seg => seg <> []) segs = segs.
Proof.
  induction 1 as [|seg segs (H1 & _) _ IH]; [reflexivity|].
  rewrite filter_cons. destruct (decide (seg <> [])); [|contradiction].
  rewrite IH. reflexivity.
Qed.

Lemma join_app (a b : list jsstring) :
  a <> [] -> b <> [] ->
  join [SLASH] (a ++ b) = join [SLASH] a ++ [SLASH] ++ join [SLASH] b.
Proof.
  intros Ha Hb. induction a as [|x a IH]; [contradiction|].
  destruct a as [|y a'].
  - cbn [app]. destruct b; [contradiction|]. reflexivity.
  - change ((x :: y :: a') ++ b) with (x :: (y :: a') ++ b).
    change (join [SLASH] (x :: y :: a')) with (x ++ [SLASH] ++ join [SLASH] (y :: a')).
    replace (join [SLASH] (x :: (y :: a') ++ b))
      with (x ++ [SLASH] ++ join [SLASH] ((y :: a') ++ b)) by reflexivity.
    rewrite IH by discriminate. rewrite <- !app_assoc. reflexivity.
Qed.

Lemma join_plain_shape (segs : list jsstring) :
  segs <> [] -> Forall plainSegment segs ->
  join [SLASH] segs <> [] /\ last (join [SLASH] segs) <> Some SLASH.
Proof.
  intros Hne Hall. induction Hall as [|seg segs (H1 & _ & _ & Hns) Hrest IH]; [contradiction|].
  destruct segs as [|seg2 segs'].
  - cbn [join]. split; [exact H1|].
    intros Hlast. apply Hns. eapply last_Some_elem_of. exact Hlast.
  - change (join [SLASH] (seg :: seg2 :: segs'))
      with (seg ++ [SLASH] ++ join [SLASH] (seg2 :: segs')).
    destruct IH as [IH1 IH2]; [discriminate|].
    split; [destruct seg; [contradiction|discriminate]|].
    rewrite !last_app.
    destruct (last (join [SLASH] (seg2 :: segs'))) as [c|] eqn:Hl; [exact IH2|].
    exfalso. apply last_None in Hl. contradiction.
Qed.

(** An absolute path of plain segments, with or without a closing slash,
    is its own normal form. *)
Lemma normalize_absolute (segs : list jsstring) (t : jsstring) :
  segs <> [] -> Forall plainSegment segs -> (t = [] \/ t = [SLASH]) ->
  normalize (absolutePath segs ++ t) = absolutePath segs ++ t.
Proof.
  intros Hne Hall Ht. destruct (join_plain_shape segs Hne Hall) as [Hj Hlast].
  assert (Hns : Forall (fun p => SLASH ∉ p) segs)
    by (eapply Forall_impl; [exact Hall|]; intros ? (_ & _ & _ & ?); assumption).
  unfold absolutePath, normalize. cbn [app startsWith].
  rewrite Ascii.eqb_refl, startsWith_nil. cbn [andb negb].
  rewrite split_on_cons, Ascii.eqb_refl.
  assert (Hsegs : normalizeString false ([] :: split_on SLASH (join [SLASH] segs ++ t)) []
                  = segs).
  { rewrite normalizeString_plain.
    - cbn [rev app]. rewrite filter_cons.
      destruct (decide (@nil ascii <> [])) as [Hc|_]; [contradiction|].
      destruct Ht as [->| ->].
      + rewrite app_nil_r, split_on_join by assumption. apply filter_plain. exact Hall.
      + rewrite split_on_join_trailing by assumption.
        rewrite filter_app, filter_plain by exact Hall.
        rewrite filter_cons. destruct (decide (@nil ascii <> [])) as [Hc|_]; [contradiction|].
        rewrite filter_nil. apply app_nil_r.
    - constructor; [left; reflexivity|].
      destruct Ht as [->| ->].
      + rewrite app_nil_r, split_on_join by assumption.
        eapply Forall_impl; [exact Hall|]. auto.
      + rewrite split_on_join_trailing by assumption.
        apply Forall_app. split; [eapply Forall_impl; [exact Hall|]; auto|].
        constructor; [left; reflexivity|constructor]. }
  rewrite Hsegs.
  remember (join [SLASH] segs) as j eqn:EJ.
  destruct j as [|j0 J]; [contradiction|].
  destruct Ht as [->| ->].
  - rewrite app_nil_r.
    rewrite bool_decide_false; [reflexivity|].
    change (last (SLASH :: j0 :: J)) with (last (j0 :: J)). exact Hlast.
  - rewrite bool_decide_true; [reflexivity|].
    change (SLASH :: (j0 :: J) ++ [SLASH]) with ((SLASH :: j0 :: J) ++ [SLASH]).
    rewrite last_app. reflexivity.
Qed.

Lemma startsWith_app_self (a b : jsstring) : startsWith (a ++ b) a = true.
Proof.
  induction a as [|c a IH]; [apply startsWith_nil|].
  cbn [app startsWith]. rewrite Ascii.eqb_refl. exact IH.
Qed.

Lemma resolve_accepted (rs : list jsstring) (rawPath p : jsstring) :
  rs <> [] -> Forall plainSegment rs ->
  normalizeRelativeSandboxPath rawPath = Ok p ->
  resolveProjectPath (absolutePath rs) p
  = Ok (if truthy p then absolutePath rs ++ [SLASH] ++ p else absolutePath rs).
Proof.
  intros Hne Hall Hnorm. unfold resolveProjectPath.
  pose proof (normalize_absolute rs [] Hne Hall (or_introl eq_refl)) as Hroot.
  rewrite app_nil_r in Hroot. rewrite Hroot.
  destruct (truthy p) eqn:Hp.
  - assert (Hpne : p <> []) by (intros ->; discriminate).
    destruct (normalized_form rawPath p Hnorm Hpne) as (ns & t & Hns & Hplain & Ht & ->).
    assert (Hjoin : join2 (absolutePath rs) (join [SLASH] ns ++ t)
                    = absolutePath rs ++ [SLASH] ++ join [SLASH] ns ++ t).
    { unfold join2. unfold absolutePath at 1.
      destruct (join [SLASH] ns ++ t) as [|c0 rest0] eqn:Ep.
      - exfalso. apply Hpne. reflexivity.
      - rewrite <- Ep.
        replace (absolutePath rs ++ [SLASH] ++ join [SLASH] ns ++ t)
          with (absolutePath (rs ++ ns) ++ t).
        + apply normalize_absolute; [|apply Forall_app; split; assumption|exact Ht].
          destruct rs; [contradiction|discriminate].
        + unfold absolutePath. rewrite join_app by assumption.
          cbn [app]. rewrite <- !app_assoc. reflexivity. }
    rewrite Hjoin.
    replace (absolutePath rs ++ [SLASH] ++ join [SLASH] ns ++ t)
      with (absolutePath (rs ++ ns) ++ t).
    2:{ unfold absolutePath. rewrite join_app by assumption.
        cbn [app]. rewrite <- !app_assoc. reflexivity. }
    rewrite normalize_absolute;
      [|destruct rs; [contradiction|discriminate]
       |apply Forall_app; split; assumption|exact Ht].
    replace (absolutePath (rs ++ ns) ++ t)
      with ((absolutePath rs ++ [SLASH]) ++ join [SLASH] ns ++ t).
    2:{ unfold absolutePath. rewrite join_app by assumption.
        cbn [app]. rewrite <- !app_assoc. reflexivity. }
    rewrite startsWith_app_self. cbn [negb]. rewrite andb_false_r. reflexivity.
  - rewrite bool_decide_true by reflexivity. reflexivity.
Qed.

(** X15 (accepted paths stay inside the project).  For a project
    directory [/s1/.../sn] in normal form, every path the normalizer
    accepts resolves without an error: to the project directory itself
    when the normalized path is empty, and otherwise to the project
    directory, a slash, and the normalized path, which is a path below
    the project directory and never the directory itself. *)
Theorem accepted_paths_resolve_inside (rs : list jsstring) (rawPath p : jsstring) :
  rs <> [] -> Forall plainSegment rs ->
  normalizeRelativeSandboxPath rawPath = Ok p ->
  exists fullPath,
    resolveProjectPath (absolutePath rs) p = Ok fullPath
    /\ fullPath = (if truthy p then absolutePath rs ++ [SLASH] ++ p else absolutePath rs)
    /\ (p <> [] ->
        fullPath <> absolutePath rs
        /\ startsWith fullPath (absolutePath rs ++ [SLASH]) = true).
Proof.
  intros Hne Hall Hnorm. eexists. split; [apply (resolve_accepted rs rawPath p); assumption|].
  split; [reflexivity|]. intros Hp.
  destruct p as [|c p']; [contradiction|]. cbn [truthy]. split.
  - intros Heq. apply (f_equal (@length _)) in Heq.
    rewrite !length_app in Heq. cbn [length] in Heq. lia.
  - rewrite app_assoc. apply startsWith_app_self.
Qed.

End ResolveFacts.

(** *** File routes *)

Module FilesRouteFacts.
Import Orchestrator FilesRoute FilesRouteSpec NormalizerSpec PathSpec.

Lemma normalizer_messages (rawPath message : jsstring) :
  normalizeRelativeSandboxPath rawPath = Throw message ->
  isPathError message = true /\ truthy message = true /\ rawPath <> [].
Proof.
  intros Hthrow.
  assert (Hne : rawPath <> []) by (intros ->; discriminate Hthrow).
  unfold normalizeRelativeSandboxPath in Hthrow.
  destruct (includes rawPath [NUL]).
  { injection Hthrow as <-. split; [|split]; [vm_compute; reflexivity|reflexivity|exact Hne]. }
  destruct (negb (truthy (trim (replace_backslashes rawPath)))); [discriminate|].
  destruct (startsWith (trim (replace_backslashes rawPath)) [SLASH]).
  { injection Hthrow as <-. split; [|split]; [vm_compute; reflexivity|reflexivity|exact Hne]. }
  destruct (_ || _); [|discriminate].
  injection Hthrow as <-. split; [|split]; [vm_compute; reflexivity|reflexivity|exact Hne].
Qed.

Lemma name_without_slash (line : jsstring) :
  startsWith line (str ".") = false -> startsWith (slice line 0 (-1)) (str ".") = false.
Proof.
  intros Hline. unfold slice, rel_index. cbn [Z.ltb Z.compare].
  replace (Z.min 0 (Z.of_nat (length line))) with 0%Z by lia.
  change (Z.to_nat 0) with 0. cbn [drop].
  destruct line as [|c rest]; [reflexivity|].
  replace (Z.to_nat (Z.max (Z.of_nat (length (c :: rest)) + -1) 0 - 0)) with (length rest)
    by (cbn [length]; lia).
  destruct rest as [|d rest']; [reflexivity|].
  change (str ".") with ["."%char] in *.
  cbn [length drop take startsWith] in *. rewrite ?startsWith_nil. exact Hline.
Qed.

Lemma parseLines_listing (lines : list jsstring) (basePath : jsstring)
    (includeHidden foldersLoaded : bool) :
  Forall (fun node =>
            (includeHidden = false -> startsWith (name node) (str ".") = false)
            /\ (if foldersLoaded
                then match type node, children node with
                     | file, None => True
                     | folder, Some _ => True
                     | _, _ => False
                     end
                else children node = None))
    (parseLines lines basePath includeHidden foldersLoaded).
Proof.
  induction lines as [|line rest IH]; [constructor|].
  cbn [parseLines].
  destruct (negb includeHidden && _) eqn:Hskip; [exact IH|].
  constructor; [|exact IH]. cbn [name type children]. split.
  - intros ->. cbn [negb andb] in Hskip.
    apply orb_false_elim in Hskip as [Hskip _]. apply orb_false_elim in Hskip as [Hskip _].
    apply orb_false_elim in Hskip as [Hdot _].
    destruct (endsWith line (str "/")); [apply name_without_slash|]; exact Hdot.
  - destruct foldersLoaded, (endsWith line (str "/")); cbn; auto.
Qed.

Section WithSandbox.

Context {Sandbox : Type}.
Variable executeCommand : Command -> Sandbox -> Sandbox * Exn CommandResult.

(** X16 (refused paths).  A path the normalizer refuses is answered with
    the normalizer's message and no command is run on the sandbox: with
    status 400 by [PUT] and [DELETE], whatever the sandbox lookup would
    give, and with status 500 by [GET], in list mode or not, once the
    sandbox is found. *)
Theorem refused_paths_run_no_command (sandboxContext : Exn (option jsstring))
    (rawPath message : jsstring) (sb : Sandbox) :
  normalizeRelativeSandboxPath rawPath = Throw message ->
  (forall content,
      PUT executeCommand sandboxContext (BodyValue (FString rawPath) (FString content)) sb
      = (sb, JsonError message 400))
  /\ DELETE executeCommand sandboxContext (Some rawPath) sb = (sb, JsonError message 400)
  /\ (forall projectDir listMode includeHidden depth,
        GET executeCommand (Ok (Some projectDir)) (Some rawPath) listMode includeHidden
          depth sb
        = (sb, JsonError message 500)).
Proof.
  intros Hthrow. destruct (normalizer_messages _ _ Hthrow) as (Herr & Htruthy & Hne).
  split; [|split].
  - intros content. unfold PUT, putTry, bind, lift. rewrite Hthrow.
    unfold onError. rewrite Herr. reflexivity.
  - unfold DELETE, deleteTry.
    destruct rawPath as [|c rest]; [contradiction|]. cbn [truthy negb].
    unfold bind, lift. rewrite Hthrow. unfold onError. rewrite Herr. reflexivity.
  - intros projectDir listMode includeHidden depth.
    assert (Hraw : truthy rawPath = true) by (destruct rawPath; [contradiction|reflexivity]).
    unfold GET, getTry. unfold bind at 1. unfold lift at 1. cbn [default]. unfold id.
    rewrite Hraw.
    destruct listMode; unfold bind at 1; unfold lift at 1; rewrite Hthrow, Htruthy;
      reflexivity.
Qed.

(** X17 (what [DELETE] removes).  With the sandbox found and its project
    directory [/s1/.../sn] in normal form, [DELETE] either answers with
    status 400 and runs no command, or it runs exactly one command, the
    removal of the project directory followed by a slash and a non-empty
    clean relative path; it never removes the project directory itself
    or anything outside it. *)
Theorem delete_removes_only_inside (rs : list jsstring)
    (filePathParam : option jsstring) (sb : Sandbox) :
  rs <> [] -> Forall plainSegment rs ->
  let root := absolutePath rs in
  (exists message,
      DELETE executeCommand (Ok (Some root)) filePathParam sb
      = (sb, JsonError message 400))
  \/ (exists p,
        p <> [] /\ cleanPath p
        /\ DELETE executeCommand (Ok (Some root)) filePathParam sb
           = ((executeCommand (RemoveTree (root ++ [SLASH] ++ p)) sb).1,
              removalAnswer p (executeCommand (RemoveTree (root ++ [SLASH] ++ p)) sb).2)).
Proof.
  intros Hne Hplain root. subst root.
  destruct filePathParam as [param|]; [|left; eexists; reflexivity].
  unfold DELETE, deleteTry.
  destruct (truthy param) eqn:Hparam; cbn [negb]; [|left; eexists; reflexivity].
  unfold bind at 1. unfold lift at 1.
  destruct (normalizeRelativeSandboxPath param) as [p|message] eqn:Hnorm.
  - destruct (truthy p) eqn:Hp; cbn [negb]; [|left; eexists; reflexivity].
    right. exists p.
    assert (Hpne : p <> []) by (intros ->; discriminate).
    split; [exact Hpne|]. split.
    { exact (PathFacts.normalizeRelativeSandboxPath_clean param p Hnorm Hpne). }
    unfold bind, lift.
    rewrite (ResolveFacts.resolve_accepted rs param p Hne Hplain Hnorm), Hp.
    cbn [negb]. cbv beta iota.
    destruct (executeCommand (RemoveTree (absolutePath rs ++ [SLASH] ++ p)) sb)
      as [sb' [result|message]];
      cbn [fst snd removalAnswer].
    + destruct (exitCode result =? 0)%Z; reflexivity.
    + reflexivity.
  - left. exists message.
    destruct (normalizer_messages _ _ Hnorm) as (Herr & _ & _).
    unfold onError. rewrite Herr. reflexivity.
Qed.

Lemma loadChildren_listing (includeHidden : bool) (depth : nat)
    (listFolder : jsstring -> M (Sandbox := Sandbox) (list FileNode))
    (nodes : list FileNode) (sb sb' : Sandbox) (out : list FileNode) :
  (forall folderPath sb1 sb2 loaded,
      listFolder folderPath sb1 = (sb2, Ok loaded) -> listing includeHidden depth loaded) ->
  Forall (fun node =>
            (includeHidden = false -> startsWith (name node) (str ".") = false)
            /\ match type node, children node with
               | file, None => True
               | folder, Some _ => True
               | _, _ => False
               end) nodes ->
  loadChildren listFolder nodes sb = (sb', Ok out) ->
  listing includeHidden (S depth) out.
Proof.
  intros Hfolder Hnodes. revert sb sb' out.
  induction Hnodes as [|node rest [Hname Hshape] _ IH]; intros sb sb' out Hrun.
  - cbn in Hrun. injection Hrun as _ <-. constructor.
  - cbn [loadChildren] in Hrun. unfold bind at 1 in Hrun.
    destruct (type node) eqn:Hty.
    + unfold ret at 1 in Hrun. unfold bind at 1 in Hrun.
      destruct (loadChildren listFolder rest sb) as [sb1 [rest'|message]] eqn:Hrest;
        [|discriminate].
      unfold ret in Hrun. injection Hrun as _ <-.
      cbn [listing]. constructor; [|exact (IH _ _ _ Hrest)].
      split; [exact Hname|]. rewrite Hty.
      destruct (children node); [contradiction|exact I].
    + unfold bind at 1 in Hrun.
      destruct (listFolder (path node) sb) as [sb0 [loaded|message]] eqn:Hload;
        [|discriminate].
      unfold ret at 1 in Hrun. unfold bind at 1 in Hrun.
      destruct (loadChildren listFolder rest sb0) as [sb1 [rest'|message]] eqn:Hrest;
        [|discriminate].
      unfold ret in Hrun. injection Hrun as _ <-.
      cbn [listing]. constructor; [|exact (IH _ _ _ Hrest)].
      cbn [name type children]. split; [exact Hname|].
      exact (Hfolder _ _ _ _ Hload).
Qed.

(** X18 (tree listing).  [getFilesRecursively] throws only when the
    path it is asked for does not resolve inside the project, and then
    runs no command: every failure further down gives an empty listing.
    Its listing has at most [remainingDepth] levels below the first one,
    folders carry children exactly down to the last level, and, unless
    hidden entries are asked for, no entry at any level has a name
    beginning with a dot. *)
Theorem tree_listing_is_bounded (projectDir : jsstring) (remainingDepth : nat)
    (currentPath : jsstring) (includeHidden : bool) (sb : Sandbox) :
  match getFilesRecursively executeCommand projectDir remainingDepth currentPath
          includeHidden sb with
  | (_, Ok nodes) => listing includeHidden remainingDepth nodes
  | (sb', Throw message) =>
      sb' = sb /\ resolveProjectPath projectDir currentPath = Throw message
  end.
Proof.
  revert currentPath sb. induction remainingDepth as [|depth IH]; intros currentPath sb.
  - cbn [getFilesRecursively]. unfold bind at 1, lift.
    destruct (resolveProjectPath projectDir currentPath) as [fullPath|message];
      [|split; reflexivity].
    unfold tryCatch, bind, listDirectory, bind, ret.
    destruct (executeCommand (ListDir fullPath) sb) as [sb1 [result|message]];
      [|constructor].
    cbn [listing]. unfold parseFileList.
    eapply Forall_impl; [apply (parseLines_listing _ _ includeHidden false)|].
    cbn. intros node [H1 H2]. split; assumption.
  - cbn [getFilesRecursively]. unfold bind at 1, lift.
    destruct (resolveProjectPath projectDir currentPath) as [fullPath|message];
      [|split; reflexivity].
    unfold tryCatch. unfold bind at 1. unfold listDirectory, bind, ret.
    destruct (executeCommand (ListDir fullPath) sb) as [sb1 [result|message]];
      [|constructor].
    destruct (loadChildren _ _ sb1) as [sb2 [out|message]] eqn:Hload; [|constructor].
    eapply (loadChildren_listing includeHidden depth); [| |exact Hload].
    + intros folderPath s1 s2 loaded Hrun. specialize (IH folderPath s1).
      rewrite Hrun in IH. exact IH.
    + unfold parseFileList.
      eapply Forall_impl; [apply (parseLines_listing _ _ includeHidden true)|].
      cbn. intros node [H1 H2]. split; assumption.
Qed.

End WithSandbox.

End FilesRouteFacts.

(** *** Generation session: histories *)

Module SessionRunFacts.
Import Session SessionRuns SessionSpec.

Lemma to_int_not_nil (z : Z) :
  Z.to_int z <> Decimal.Pos Decimal.Nil /\ Z.to_int z <> Decimal.Neg Decimal.Nil.
Proof.
  destruct z as [|p|p]; cbn; split; try discriminate.
  - intros [= H]. exact (DecimalPos.Unsigned.to_uint_nonnil p H).
  - intros [= H]. exact (DecimalPos.Unsigned.to_uint_nonnil p H).
Qed.

Lemma showZ_inj (a b : Z) : showZ a = showZ b -> a = b.
Proof.
  unfold showZ, str. intros Heq.
  apply (f_equal string_of_list_ascii) in Heq.
  rewrite !string_of_list_ascii_of_string in Heq.
  apply (f_equal NilZero.int_of_string) in Heq.
  destruct (to_int_not_nil a) as [Ha1 Ha2]. destruct (to_int_not_nil b) as [Hb1 Hb2].
  rewrite !NilZero.isi in Heq by assumption.
  injection Heq as Heq. apply DecimalZ.to_int_inj. exact Heq.
Qed.

Lemma createMessageId_inj (a b : Z) : createMessageId a = createMessageId b -> a = b.
Proof.
  unfold createMessageId. intros Heq. apply app_inv_head in Heq. apply showZ_inj. exact Heq.
Qed.


Lemma numbered_same (h h' : Hook) :
  messages (state h') = messages (state h) ->
  (messageCounterRef h <= messageCounterRef h')%Z ->
  numbered h -> numbered h'.
Proof.
  intros Hm Hc [Hnd Hall]. unfold numbered. rewrite Hm. split; [exact Hnd|].
  eapply Forall_impl; [exact Hall|]. intros m (k & Hk & Hle). exists k. split; [exact Hk|lia].
Qed.

Lemma numbered_reset (h : Hook) : messages (state h) = [] -> numbered h.
Proof.
  intros Hm. unfold numbered. rewrite Hm. split; [apply NoDup_nil_2|constructor].
Qed.

Lemma numbered_append (e : RawGenerationEvent) (h : Hook) :
  numbered h -> numbered (appendMessage e h).
Proof.
  intros [Hnd Hall]. unfold numbered, appendMessage. cbn.
  rewrite map_app. cbn [map id]. split.
  - apply NoDup_app. split; [exact Hnd|]. split; [|apply NoDup_singleton].
    intros x Hx Hx'. apply list_elem_of_singleton in Hx'. subst x.
    apply list_elem_of_fmap in Hx as (m & Hid & Hm).
    pose proof (proj1 (Forall_forall _ _) Hall m Hm) as (k & Hk & Hle).
    rewrite Hk in Hid. apply createMessageId_inj in Hid. lia.
  - apply Forall_app. split.
    + eapply Forall_impl; [exact Hall|]. intros m (k & Hk & Hle).
      exists k. split; [exact Hk|lia].
    + constructor; [|constructor]. eexists. split; [reflexivity|]. cbn. lia.
Qed.


Lemma extends_refl (h : Hook) : extends h h.
Proof. unfold extends. split; [reflexivity|lia]. Qed.

Lemma extends_trans (h1 h2 h3 : Hook) : extends h1 h2 -> extends h2 h3 -> extends h1 h3.
Proof.
  intros (H1 & H2 & H3) (H4 & H5 & H6). unfold extends.
  split; [etransitivity; eassumption|lia].
Qed.

Lemma extends_same (h h' : Hook) :
  messages (state h') = messages (state h) ->
  (parseWarnings (state h) <= parseWarnings (state h'))%Z ->
  messageCounterRef h' = messageCounterRef h ->
  extends h h'.
Proof.
  intros Hm Hp Hc. unfold extends. rewrite Hm, Hc. split; [reflexivity|lia].
Qed.

Lemma extends_append (e : RawGenerationEvent) (h : Hook) : extends h (appendMessage e h).
Proof.
  unfold extends, appendMessage. cbn. split; [apply prefix_app_r; reflexivity|lia].
Qed.

Section WithParser.

Variable JSON_parse : jsstring -> Parsed.

Lemma processFrame_keeps (frame : jsstring) (h : Hook) (rd : bool) :
  extends h (processFrame JSON_parse frame h rd).1.1
  /\ (numbered h -> numbered (processFrame JSON_parse frame h rd).1.1).
Proof.
  unfold processFrame.
  destruct (bool_decide (frame = str "[DONE]")); [split; [apply extends_refl|auto]|].
  destruct (JSON_parse frame) as [| |truthyValue e]; cbn [fst].
  - split; [apply extends_same; cbn; try reflexivity; lia|].
    apply numbered_same; cbn; [reflexivity|lia].
  - split; [apply extends_refl|auto].
  - destruct truthyValue; [|split; [apply extends_refl|auto]].
    destruct (type e) as [ty|]; [|split; [apply extends_refl|auto]].
    destruct (bool_decide (ty = str "error")); cbn [fst].
    { split.
      - eapply extends_trans; [|eapply extends_trans; [apply (extends_append e)|]].
        + apply extends_same; cbn; try reflexivity; lia.
        + apply extends_same; cbn; try reflexivity; lia.
      - intros Hn. eapply numbered_same; [| |apply (numbered_append e); eapply numbered_same;
                                                [| |exact Hn]]; cbn; try reflexivity; lia. }
    destruct (bool_decide (ty = str "complete")); cbn [fst].
    { split; [apply extends_same; cbn; try reflexivity; lia|].
      apply numbered_same; cbn; [reflexivity|lia]. }
    destruct (bool_decide (ty = str "progress") && truthyOpt (message e)).
    + split.
      * eapply extends_trans; [|apply extends_append].
        apply extends_same; cbn; try reflexivity; lia.
      * intros Hn. apply numbered_append.
        eapply numbered_same; [| |exact Hn]; cbn; [reflexivity|lia].
    + split; [apply extends_append|apply numbered_append].
Qed.

Lemma processFrames_keeps (frames : list jsstring) (h : Hook) (rd : bool) :
  extends h (processFrames JSON_parse frames h rd).1.1
  /\ (numbered h -> numbered (processFrames JSON_parse frames h rd).1.1).
Proof.
  revert h rd. induction frames as [|frame rest IH]; intros h rd.
  - cbn. split; [apply extends_refl|auto].
  - cbn [processFrames].
    destruct (processFrame_keeps frame h rd) as [He Hn].
    destruct (processFrame JSON_parse frame h rd) as [[h1 rd1] returned].
    cbn [fst] in He, Hn.
    destruct returned; cbn [fst]; [split; assumption|].
    destruct (IH h1 rd1) as [He' Hn']. split.
    + eapply extends_trans; eassumption.
    + auto.
Qed.

Lemma processTrailingFrame_keeps (frame : jsstring) (h : Hook) (rd : bool) :
  extends h (processTrailingFrame JSON_parse frame h rd).1.1
  /\ (numbered h -> numbered (processTrailingFrame JSON_parse frame h rd).1.1).
Proof.
  unfold processTrailingFrame.
  destruct (bool_decide (frame = str "[DONE]")); [split; [apply extends_refl|auto]|].
  assert (Hwarn : extends h (setState countParseWarning h)
                  /\ (numbered h -> numbered (setState countParseWarning h))).
  { split; [apply extends_same; cbn; try reflexivity; lia|].
    apply numbered_same; cbn; [reflexivity|lia]. }
  destruct (JSON_parse frame) as [| |truthyValue e]; cbn [fst]; [exact Hwarn|exact Hwarn|].
  destruct (bool_decide (type e = Some (str "error"))); cbn [fst].
  { split.
    - eapply extends_trans; [|eapply extends_trans; [apply (extends_append e)|]].
      + apply extends_same; cbn; try reflexivity; lia.
      + apply extends_same; cbn; try reflexivity; lia.
    - intros Hn. eapply numbered_same; [| |apply (numbered_append e); eapply numbered_same;
                                              [| |exact Hn]]; cbn; try reflexivity; lia. }
  destruct (bool_decide (type e = Some (str "complete"))); cbn [fst].
  { split; [apply extends_same; cbn; try reflexivity; lia|].
    apply numbered_same; cbn; [reflexivity|lia]. }
  split; [apply extends_append|apply numbered_append].
Qed.

Lemma processTrailingFrames_keeps (frames : list jsstring) (h : Hook) (rd : bool) :
  extends h (processTrailingFrames JSON_parse frames h rd).1.1
  /\ (numbered h -> numbered (processTrailingFrames JSON_parse frames h rd).1.1).
Proof.
  revert h rd. induction frames as [|frame rest IH]; intros h rd.
  - cbn. split; [apply extends_refl|auto].
  - cbn [processTrailingFrames].
    destruct (processTrailingFrame_keeps frame h rd) as [He Hn].
    destruct (processTrailingFrame JSON_parse frame h rd) as [[h1 rd1] returned].
    cbn [fst] in He, Hn.
    destruct returned; cbn [fst]; [split; assumption|].
    destruct (IH h1 rd1) as [He' Hn']. split.
    + eapply extends_trans; eassumption.
    + auto.
Qed.

Lemma finally_keeps (r : Run) (h : Hook) :
  extends h (finally r h) /\ (numbered h -> numbered (finally r h)).
Proof.
  unfold finally. destruct (bool_decide _).
  - split; [apply extends_same; cbn; try reflexivity; lia|].
    apply numbered_same; cbn; [reflexivity|lia].
  - split; [apply extends_refl|auto].
Qed.

Lemma catch_keeps (r : Run) (msg : option jsstring) (h : Hook) :
  extends h (catch r msg h) /\ (numbered h -> numbered (catch r msg h)).
Proof.
  unfold catch.
  destruct (bool_decide (controller r ∈ aborted h)).
  - destruct (finally_keeps r (setState (withLifecycle Lifecycle.canceled) h)) as [He Hn].
    split.
    + eapply extends_trans; [|exact He]. apply extends_same; cbn; try reflexivity; lia.
    + intros H. apply Hn. eapply numbered_same; [| |exact H]; cbn; [reflexivity|lia].
  - destruct (finally_keeps r
                (setState (failWith (orElse msg (Some (str "An error occurred")))) h))
      as [He Hn].
    split.
    + eapply extends_trans; [|exact He]. apply extends_same; cbn; try reflexivity; lia.
    + intros H. apply Hn. eapply numbered_same; [| |exact H]; cbn; [reflexivity|lia].
Qed.

Lemma onStreamEnd_messages (rd : bool) (s : GenerationSessionState) :
  messages (onStreamEnd rd s) = messages s
  /\ parseWarnings (onStreamEnd rd s) = parseWarnings s.
Proof.
  unfold onStreamEnd. destruct (_ || _); [split; reflexivity|split; reflexivity].
Qed.

Lemma resumeRead_keeps (outcome : ReadOutcome) (r : Run) (h : Hook) :
  extends h (resumeRead JSON_parse outcome r h).1
  /\ (numbered h -> numbered (resumeRead JSON_parse outcome r h).1).
Proof.
  destruct outcome as [msg|chunkText|]; cbn [resumeRead].
  - cbn [fst]. apply catch_keeps.
  - destruct (Sse.consumeSseDataFrames (parserStateRef h) chunkText) as [parser' frames].
    destruct (processFrames_keeps frames (setParserStateRef parser' h) (receivedDone r))
      as [He Hn].
    destruct (processFrames JSON_parse frames (setParserStateRef parser' h) (receivedDone r))
      as [[h1 rd] returned].
    cbn [fst] in He, Hn.
    assert (He0 : extends h h1).
    { eapply extends_trans; [|exact He]. apply extends_same; cbn; try reflexivity; lia. }
    assert (Hn0 : numbered h -> numbered h1).
    { intros H. apply Hn. eapply numbered_same; [| |exact H]; cbn; [reflexivity|lia]. }
    destruct returned; cbn [fst]; [|split; assumption].
    destruct (finally_keeps r h1) as [Hf1 Hf2].
    split; [eapply extends_trans; eassumption|auto].
  - destruct (Sse.flushSseDataFrames (parserStateRef h)) as [parser' trailing].
    destruct (processTrailingFrames_keeps trailing (setParserStateRef parser' h)
                (receivedDone r)) as [He Hn].
    destruct (processTrailingFrames JSON_parse trailing (setParserStateRef parser' h)
                (receivedDone r)) as [[h1 rd] returned].
    cbn [fst] in He, Hn.
    assert (He0 : extends h h1).
    { eapply extends_trans; [|exact He]. apply extends_same; cbn; try reflexivity; lia. }
    assert (Hn0 : numbered h -> numbered h1).
    { intros H. apply Hn. eapply numbered_same; [| |exact H]; cbn; [reflexivity|lia]. }
    destruct returned; cbn [fst].
    + destruct (finally_keeps r h1) as [Hf1 Hf2].
      split; [eapply extends_trans; eassumption|auto].
    + destruct (finally_keeps r (setState (onStreamEnd rd) h1)) as [Hf1 Hf2].
      destruct (onStreamEnd_messages rd (state h1)) as [Hm Hp].
      split.
      * eapply extends_trans; [exact He0|]. eapply extends_trans; [|exact Hf1].
        apply extends_same; cbn; [exact Hm|rewrite Hp; lia|reflexivity].
      * intros H. apply Hf2. eapply numbered_same; [| |exact (Hn0 H)]; cbn;
          [exact Hm|lia].
Qed.

Lemma resumeFetch_keeps (outcome : FetchOutcome) (r : Run) (h : Hook) :
  extends h (resumeFetch outcome r h).1
  /\ (numbered h -> numbered (resumeFetch outcome r h).1).
Proof.
  destruct outcome as [msg|errorField|hasBody]; cbn [resumeFetch].
  - cbn [fst]. apply catch_keeps.
  - destruct (negb _); cbn [fst]; [apply finally_keeps|apply catch_keeps].
  - destruct (negb (bool_decide _)); cbn [fst]; [apply finally_keeps|].
    destruct (negb hasBody); cbn [fst]; [apply catch_keeps|].
    split; [apply extends_same; cbn; try reflexivity; lia|].
    apply numbered_same; cbn; [reflexivity|lia].
Qed.

Lemma start_numbered (prompt : jsstring) (h : Hook) :
  numbered h -> numbered (start prompt h).1.
Proof.
  intros Hn. unfold start. destruct (negb (truthy (trim prompt))); [exact Hn|].
  cbn [fst]. apply numbered_reset. reflexivity.
Qed.

Lemma act_numbered (a : Action) (h : Hook) :
  numbered h -> numbered (act JSON_parse a h).
Proof.
  intros Hn. destruct a as [prompt| | |outcome r|outcome r]; cbn [act].
  - apply start_numbered. exact Hn.
  - unfold cancel. destruct (abortControllerRef h); [|exact Hn].
    eapply numbered_same; [| |exact Hn]; cbn; [reflexivity|lia].
  - unfold retry. destruct (negb (truthy (latestPromptRef h))); [exact Hn|].
    apply start_numbered. exact Hn.
  - apply resumeFetch_keeps. exact Hn.
  - apply resumeRead_keeps. exact Hn.
Qed.

(** X19 (message ids).  After any history of calls of [start], [cancel]
    and [retry] and of fetches and reads settling, for whatever runs and
    in whatever order, the messages the session shows carry pairwise
    different ids. *)
Theorem message_ids_are_distinct (actions : list Action) :
  NoDup (map id (messages (state (after JSON_parse actions)))).
Proof.
  assert (Hgen : forall h, numbered h -> numbered (foldl (fun h a => act JSON_parse a h) h actions)).
  { induction actions as [|a rest IH]; intros h Hn; [exact Hn|].
    cbn [foldl]. apply IH. apply act_numbered. exact Hn. }
  apply (Hgen initialHook). apply numbered_reset. reflexivity.
Qed.

(** X20 (a read only appends).  Whatever a [reader.read()] settles to,
    the step of [start] that handles it keeps every message already
    shown, in place, adding new ones only at the end, and never lowers
    the count of parse warnings. *)
Theorem read_step_only_appends (outcome : ReadOutcome) (r : Run) (h : Hook) :
  let h' := (resumeRead JSON_parse outcome r h).1 in
  messages (state h) `prefix_of` messages (state h')
  /\ (parseWarnings (state h) <= parseWarnings (state h'))%Z.
Proof.
  intros h'. destruct (resumeRead_keeps outcome r h) as [(Hm & Hp & _) _].
  split; assumption.
Qed.

End WithParser.

(** **** Starting, canceling and retrying *)

Lemma trimStart_fixed (s : jsstring) :
  match s with c :: _ => isWhiteSpace c = false | [] => True end -> trimStart s = s.
Proof. destruct s as [|c s]; [reflexivity|]. cbn [trimStart]. intros ->. reflexivity. Qed.

Lemma trimStart_head (s : jsstring) :
  match trimStart s with c :: _ => isWhiteSpace c = false | [] => True end.
Proof.
  induction s as [|c s IH]; [exact I|]. cbn [trimStart].
  destruct (isWhiteSpace c) eqn:Hc; [exact IH|exact Hc].
Qed.

Lemma trimStart_idem (s : jsstring) : trimStart (trimStart s) = trimStart s.
Proof. apply trimStart_fixed, trimStart_head. Qed.

Lemma trimStart_app_last (u : jsstring) (c : ascii) :
  isWhiteSpace c = false -> exists v, trimStart (u ++ [c]) = v ++ [c].
Proof.
  intros Hc. induction u as [|d u IH].
  - exists []. cbn [app trimStart]. rewrite Hc. reflexivity.
  - cbn [app trimStart]. destruct (isWhiteSpace d); [exact IH|].
    exists (d :: u). reflexivity.
Qed.

Lemma trimEnd_head (s : jsstring) :
  match s with c :: _ => isWhiteSpace c = false | [] => True end ->
  match trimEnd s with c :: _ => isWhiteSpace c = false | [] => True end.
Proof.
  destruct s as [|c s]; [intros _; exact I|]. intros Hc. unfold trimEnd.
  cbn [rev]. destruct (trimStart_app_last (rev s) c Hc) as [v ->].
  rewrite rev_app_distr. cbn [rev app]. exact Hc.
Qed.

Lemma trim_idem (s : jsstring) : trim (trim s) = trim s.
Proof.
  unfold trim.
  rewrite (trimStart_fixed (trimEnd (trimStart s)))
    by (apply trimEnd_head, trimStart_head).
  unfold trimEnd. rewrite rev_involutive, trimStart_idem. reflexivity.
Qed.

Lemma start_trim (prompt : jsstring) (h : Hook) : start (trim prompt) h = start prompt h.
Proof. unfold start. rewrite trim_idem. reflexivity. Qed.

(** X21 (retry).  After a call of [start] with a prompt that is not
    blank, [retry] does what calling [start] with the same prompt again
    does. *)
Theorem retry_restarts_last_prompt (prompt : jsstring) (h : Hook) :
  truthy (trim prompt) = true ->
  retry (start prompt h).1 = start prompt (start prompt h).1.
Proof.
  intros Hp. unfold retry.
  assert (Hlatest : latestPromptRef (start prompt h).1 = trim prompt).
  { unfold start. rewrite Hp. reflexivity. }
  rewrite Hlatest, Hp. cbn [negb]. apply start_trim.
Qed.

(** X22 (a superseded response is dropped).  Let [r] be a run started
    earlier: its request number is at most the current one and its
    controller was created before.  Once [start] has been called again,
    a response to the request of [r], whether [ok] or not, makes the
    step of [r] return at once and leaves the hook as it is. *)
Theorem superseded_response_is_dropped (prompt : jsstring) (h : Hook) (r : Run)
    (outcome : FetchOutcome) :
  truthy (trim prompt) = true ->
  (requestId r <= requestIdRef h)%Z ->
  controller r < nextController h ->
  (forall message, outcome <> FetchRejected message) ->
  resumeFetch outcome r (start prompt h).1 = ((start prompt h).1, Returned).
Proof.
  intros Hp Hid Hc Hout.
  assert (Hreq : requestIdRef (start prompt h).1 = (requestIdRef h + 1)%Z).
  { unfold start. rewrite Hp. cbn [negb fst requestIdRef].
    destruct (abortControllerRef h); reflexivity. }
  assert (Hctl : abortControllerRef (start prompt h).1 = Some (nextController h)).
  { unfold start. rewrite Hp. cbn [negb fst abortControllerRef].
    destruct (abortControllerRef h); reflexivity. }
  assert (Hfin : finally r (start prompt h).1 = (start prompt h).1).
  { unfold finally. rewrite Hctl. rewrite bool_decide_false; [reflexivity|].
    intros [= Heq]. lia. }
  assert (Hstale : bool_decide (requestId r = requestIdRef (start prompt h).1) = false).
  { apply bool_decide_eq_false. rewrite Hreq. lia. }
  destruct outcome as [message|errorField|hasBody]; cbn [resumeFetch].
  - exfalso. exact (Hout message eq_refl).
  - rewrite Hstale. cbn [negb]. rewrite Hfin. reflexivity.
  - rewrite Hstale. cbn [negb]. rewrite Hfin. reflexivity.
Qed.

(** X23 (cancel).  [cancel] during the request of a run marks the
    session canceled and forgets the controller; a second [cancel]
    changes nothing; and when the aborted fetch then rejects, with
    whatever message, the session stays canceled and records no
    error. *)
Theorem canceled_run_ends_canceled (prompt : jsstring) (h : Hook)
    (message : option jsstring) :
  truthy (trim prompt) = true ->
  exists r,
    (start prompt h).2 = AwaitFetch r
    /\ let h1 := cancel (start prompt h).1 in
       lifecycle (state h1) = Lifecycle.canceled
       /\ abortControllerRef h1 = None
       /\ cancel h1 = h1
       /\ resumeFetch (FetchRejected message) r h1 = (h1, Returned)
       /\ error (state h1) = None.
Proof.
  intros Hp. unfold start. rewrite Hp. cbn [negb fst snd].
  eexists. split; [reflexivity|].
  cbn [cancel abortControllerRef].
  split; [reflexivity|]. split; [reflexivity|]. split; [reflexivity|].
  split; [|reflexivity].
  cbn [resumeFetch]. unfold catch. cbn [controller].
  rewrite bool_decide_true.
  2:{ cbn [aborted setState setAbortControllerRef abort]. apply elem_of_union_l.
      apply elem_of_singleton. reflexivity. }
  unfold finally. cbn [abortControllerRef setState setAbortControllerRef].
  rewrite bool_decide_false by discriminate. reflexivity.
Qed.

(** **** From the written stream to the ready session *)

Section Finished.

Variable JSON_parse : jsstring -> Parsed.


Lemma processFrame_goes_on (frame : jsstring) (h : Hook) (rd : bool) :
  isErrorEvent JSON_parse frame = false ->
  exists h' rd',
    processFrame JSON_parse frame h rd = (h', rd', false)
    /\ (hasPreview h -> hasPreview h')
    /\ (announcesPreview JSON_parse frame = true -> hasPreview h').
Proof.
  unfold isErrorEvent, announcesPreview, processFrame, hasPreview.
  destruct (bool_decide (frame = str "[DONE]")); cbn [negb andb].
  { intros _. eexists _, _. split; [reflexivity|]. split; [auto|discriminate]. }
  destruct (JSON_parse frame) as [| |truthyValue e].
  - intros _. eexists _, _. split; [reflexivity|]. split; [auto|discriminate].
  - intros _. eexists _, _. split; [reflexivity|]. split; [auto|discriminate].
  - destruct truthyValue;
      [|intros _; eexists _, _; split; [reflexivity|]; split; [auto|discriminate]].
    destruct (type e) as [ty|];
      [|intros _; eexists _, _; split; [reflexivity|]; split; [auto|discriminate]].
    intros Herr. apply bool_decide_eq_false in Herr.
    rewrite (bool_decide_false (ty = str "error")) by congruence.
    destruct (bool_decide (ty = str "complete")) eqn:Hc.
    + eexists _, _. split; [reflexivity|]. cbn [state setState previewUrl onComplete].
      apply bool_decide_eq_true in Hc. subst ty.
      rewrite bool_decide_true by reflexivity. cbn [andb].
      unfold orElse. split.
      * intros Hp. destruct (truthyOpt (ev_previewUrl e)) eqn:Hu; [exact Hu|exact Hp].
      * intros Hu. rewrite Hu. exact Hu.
    + apply bool_decide_eq_false in Hc.
      rewrite (bool_decide_false (Some ty = Some (str "complete"))) by congruence.
      cbn [andb].
      destruct (bool_decide (ty = str "progress") && truthyOpt (message e));
        (eexists _, _; split; [reflexivity|]; split; [auto|discriminate]).
Qed.

Lemma processFrames_go_on (frames : list jsstring) (h : Hook) (rd : bool) :
  Forall (fun frame => isErrorEvent JSON_parse frame = false) frames ->
  exists h' rd',
    processFrames JSON_parse frames h rd = (h', rd', false)
    /\ (hasPreview h \/ Exists (fun frame => announcesPreview JSON_parse frame = true) frames
        -> hasPreview h').
Proof.
  intros Hall. revert h rd. induction Hall as [|frame rest Hframe _ IH]; intros h rd.
  - eexists _, _. split; [reflexivity|]. intros [Hp|Hex]; [exact Hp|inversion Hex].
  - cbn [processFrames].
    destruct (processFrame_goes_on frame h rd Hframe) as (h1 & rd1 & -> & Hkeep & Hset).
    destruct (IH h1 rd1) as (h' & rd' & -> & Hrest).
    eexists _, _. split; [reflexivity|].
    intros [Hp|Hex]; apply Hrest.
    + left. auto.
    + apply Exists_cons in Hex as [Hnow|Hlater]; [left; auto|right; exact Hlater].
Qed.

Lemma feedChunks_go_on (chunks : list jsstring) (r : Run) (h : Hook) :
  Forall (fun frame => isErrorEvent JSON_parse frame = false)
    (Sse.feedAll (parserStateRef h) chunks).2 ->
  exists h' r',
    feedChunks JSON_parse chunks r h = (h', AwaitRead r')
    /\ (hasPreview h
        \/ Exists (fun frame => announcesPreview JSON_parse frame = true)
             (Sse.feedAll (parserStateRef h) chunks).2
        -> hasPreview h').
Proof.
  revert r h. induction chunks as [|chunk rest IH]; intros r h Hall.
  - eexists _, _. split; [reflexivity|]. intros [Hp|Hex]; [exact Hp|inversion Hex].
  - cbn [feedChunks Sse.feedAll] in *. unfold resumeRead.
    destruct (Sse.consumeSseDataFrames (parserStateRef h) chunk) as [parser1 frames1].
    destruct (Sse.feedAll parser1 rest) as [parser2 frames2] eqn:Hfeed.
    cbn [snd] in Hall. apply Forall_app in Hall as [Hall1 Hall2].
    destruct (processFrames_go_on frames1 (setParserStateRef parser1 h) (receivedDone r) Hall1)
      as (h1 & rd1 & Hrun & Hkeep).
    rewrite Hrun.
    destruct (SessionFacts.processFrames_continue JSON_parse _ _ _ _ _ Hrun) as (Hparser & _ & _).
    cbn [parserStateRef setParserStateRef] in Hparser.
    destruct (IH {| requestId := requestId r; controller := controller r;
                    receivedDone := rd1 |} h1) as (h' & r' & Hgo & Hrest).
    { rewrite Hparser, Hfeed. exact Hall2. }
    exists h', r'. split; [exact Hgo|].
    rewrite Hparser, Hfeed in Hrest. cbn [snd] in Hrest |- *.
    intros [Hp|Hex]; apply Hrest.
    + left. apply Hkeep. left. exact Hp.
    + apply Exists_app in Hex as [Hnow|Hlater]; [left; apply Hkeep; right; exact Hnow|].
      right. exact Hlater.
Qed.

(** X24 (a finished generation is shown as ready).  Let a run start
    with a prompt that is not blank and its request be answered [ok]
    with a body.  If the route writes one-line payloads none of which is
    an [error] event and one of which is a [complete] event with a
    preview URL, then, however the transport cuts what was written into
    chunks, the session reads all of it without returning early, and
    when the stream ends the lifecycle and the stage are [ready], a
    preview URL is set and no error is recorded. *)
Theorem finished_generation_is_ready (prompt : jsstring) (h0 : Hook)
    (payloads chunks : list jsstring) :
  truthy (trim prompt) = true ->
  Forall SseWriter.onOneLine payloads ->
  concat chunks = SseWriter.written payloads ->
  Forall (fun payload => isErrorEvent JSON_parse payload = false) payloads ->
  Exists (fun payload => announcesPreview JSON_parse payload = true) payloads ->
  exists r h3 r3,
    (start prompt h0).2 = AwaitFetch r
    /\ feedChunks JSON_parse chunks r
         (resumeFetch (ResponseOk true) r (start prompt h0).1).1
       = (h3, AwaitRead r3)
    /\ let final := state (resumeRead JSON_parse ReadDone r3 h3).1 in
       lifecycle final = Lifecycle.ready
       /\ stage final = Stage.ready
       /\ truthyOpt (previewUrl final) = true
       /\ error final = None.
Proof.
  intros Hp Hlines Hcat Hnoerr Hann.
  unfold start. rewrite Hp. cbn [negb fst snd].
  eexists. 
  match goal with
  | |- exists h3 r3, AwaitFetch ?r = AwaitFetch _ /\ _ => set (run := r)
  end.
  match goal with
  | |- context [resumeFetch (ResponseOk true) _ ?h] => set (h1 := h)
  end.
  assert (Hfetch : resumeFetch (ResponseOk true) run h1
                   = (setState
                        (fun prev =>
                           {| messages := messages prev; previewUrl := previewUrl prev;
                              sandboxId := sandboxId prev; lifecycle := Lifecycle.streaming;
                              stage := Stage.queued; error := error prev;
                              lastProgress := lastProgress prev;
                              parseWarnings := parseWarnings prev |}) h1,
                      AwaitRead run)).
  { cbn [resumeFetch]. rewrite bool_decide_true by reflexivity. reflexivity. }
  rewrite Hfetch. cbn [fst].
  set (h2 := setState _ h1).
  assert (Hparser2 : parserStateRef h2 = Sse.createSseParserState) by reflexivity.
  assert (Hreading2 : reading (state h2)) by (split; [reflexivity|left; reflexivity]).
  pose proof (SseRoundTrip.feedAll_written payloads chunks Hlines Hcat) as Hfeed.
  destruct (feedChunks_go_on chunks run h2) as (h3 & r3 & Hgo & Hprev).
  { rewrite Hparser2, Hfeed. exact Hnoerr. }
  exists h3, r3. split; [reflexivity|]. split; [exact Hgo|].
  destruct (SessionFacts.feedChunks_continue JSON_parse _ _ _ _ _ Hgo) as (Hparser3 & _ & Hreading3).
  rewrite Hparser2, Hfeed in Hparser3, Hprev. cbn [fst snd] in Hparser3, Hprev.
  specialize (Hreading3 Hreading2). specialize (Hprev (or_intror Hann)).
  unfold hasPreview in Hprev.
  cbn [resumeRead]. rewrite Hparser3.
  change (Sse.flushSseDataFrames {| Sse.buffer := [] |})
    with ({| Sse.buffer := [] |}, @nil jsstring).
  cbn [processTrailingFrames fst].
  rewrite SessionFacts.finally_state. cbn [state setState setParserStateRef].
  destruct Hreading3 as [Herr Hlife].
  unfold onStreamEnd.
  assert (Hnot : bool_decide (lifecycle (state h3) = Lifecycle.failed)
                 || bool_decide (lifecycle (state h3) = Lifecycle.canceled) = false).
  { destruct Hlife as [-> | ->]; reflexivity. }
  rewrite Hnot, Hprev. cbn [lifecycle stage previewUrl error].
  split; [reflexivity|]. split; [reflexivity|]. split; [exact Hprev|exact Herr].
Qed.

(** X25 (an error event ends the run).  When a frame is read as an
    [error] event, [start] records the failure with the message of the
    event (or "Generation failed unexpectedly"), appends the event to
    the messages, forgets the controller and returns: the frames that
    follow in the same chunk are not looked at. *)
Theorem error_event_ends_the_run (frame : jsstring) (rest : list jsstring)
    (e : RawGenerationEvent) (h : Hook) (rd : bool) :
  frame <> str "[DONE]" ->
  JSON_parse frame = PValue true e ->
  type e = Some (str "error") ->
  let out := processFrames JSON_parse (frame :: rest) h rd in
  out = processFrames JSON_parse [frame] h rd
  /\ out.2 = true
  /\ lifecycle (state out.1.1) = Lifecycle.failed
  /\ error (state out.1.1) = orElse (message e) (Some MSG_UNEXPECTED)
  /\ abortControllerRef out.1.1 = None
  /\ messages (state out.1.1)
     = messages (state h)
       ++ [{| event := e; id := createMessageId (messageCounterRef h + 1) |}].
Proof.
  intros Hdone Hparse Hty out. subst out.
  cbn [processFrames]. unfold processFrame.
  rewrite (bool_decide_false _ Hdone), Hparse, Hty.
  rewrite bool_decide_true by reflexivity.
  cbn. repeat split; reflexivity.
Qed.

End Finished.

End SessionRunFacts.

(** *** Checkpoint store and snapshots *)

Module SnapshotFacts.
Import Checkpoints Snapshot SnapshotSpec.

Lemma storage_key_inj (a b : jsstring) :
  getCheckpointStorageKey a = getCheckpointStorageKey b -> a = b.
Proof. unfold getCheckpointStorageKey. apply app_inv_head. Qed.

(** X26 (one list per sandbox).  When the store accepts the write,
    loading the checkpoints of a sandbox right after persisting them
    gives the first 8 of the persisted list, and the lists of all other
    sandboxes load as before.  When the store refuses the write, nothing
    changes. *)
Theorem persist_is_per_sandbox (sandboxId other : jsstring)
    (saved : list SandboxCheckpoint) (st : LocalStorage) :
  truthy sandboxId = true ->
  (setItemThrows st = false ->
     loadSandboxCheckpoints sandboxId (persistSandboxCheckpoints sandboxId saved st)
     = take 8 saved
     /\ (other <> sandboxId ->
         loadSandboxCheckpoints other (persistSandboxCheckpoints sandboxId saved st)
         = loadSandboxCheckpoints other st))
  /\ (setItemThrows st = true ->
      persistSandboxCheckpoints sandboxId saved st = st).
Proof.
  intros Hid. split.
  - intros Hok. split; [apply CheckpointFacts.persist_load; assumption|].
    intros Hother. unfold loadSandboxCheckpoints, persistSandboxCheckpoints.
    rewrite Hid, Hok. cbn [negb items].
    destruct (truthy other); cbn [negb]; [|reflexivity].
    rewrite lookup_insert_ne; [reflexivity|].
    intros Heq. apply storage_key_inj in Heq. congruence.
  - intros Hfail. unfold persistSandboxCheckpoints. rewrite Hid, Hfail. reflexivity.
Qed.

Lemma bytesOf_app (a b : list SnapshotFile) :
  bytesOf (a ++ b) = (bytesOf a + bytesOf b)%Z.
Proof.
  induction a as [|x a IH]; [reflexivity|].
  cbn [app bytesOf foldr]. fold (bytesOf (a ++ b)). fold (bytesOf a). lia.
Qed.

Lemma utf8Length_nonneg (s : jsstring) : (0 <= utf8Length s)%Z.
Proof.
  induction s as [|c s IH]; [cbn; lia|].
  cbn [utf8Length foldr]. fold (utf8Length s). destruct (Nat.ltb _ _); lia.
Qed.

Section WithFetch.

Context {Server : Type}.
Variable fetchFile : jsstring -> Server -> Server * FileResponse.

Lemma collectLoop_inv (maxBytes : Z) (paths : list jsstring) (files : list SnapshotFile)
    (total : Z) (trunc : bool) (sv : Server) :
  let out := (collectLoop fetchFile maxBytes paths files total trunc sv).2 in
  exists more,
    out.1.1 = files ++ more
    /\ out.1.2 = (total + bytesOf more)%Z
    /\ ((total <= maxBytes)%Z -> (out.1.2 <= maxBytes)%Z)
    /\ map path more `sublist_of` paths
    /\ (out.2 = false -> trunc = false /\ more = answered fetchFile paths sv)
    /\ (trunc = true -> out.2 = true).
Proof.
  revert files total sv. induction paths as [|p rest IH]; intros files total sv.
  - cbn. exists []. rewrite app_nil_r. cbn.
    split; [reflexivity|]. split; [lia|]. split; [auto|]. split; [constructor|].
    split; [auto|auto].
  - cbn [collectLoop answered].
    destruct (fetchFile p sv) as [sv' [|fileData]].
    + destruct (IH files total sv') as (more & H1 & H2 & H3 & H4 & H5 & H6).
      exists more. split; [exact H1|]. split; [exact H2|]. split; [exact H3|].
      split; [apply sublist_cons; exact H4|]. split; assumption.
    + destruct (Z.ltb_spec maxBytes (total + utf8Length (default [] fileData))) as [Hfull|Hroom].
      * cbn [snd fst]. exists []. rewrite app_nil_r. cbn.
        split; [reflexivity|]. split; [lia|]. split; [auto|].
        split; [apply sublist_nil_l|]. split; [discriminate|auto].
      * destruct (IH (files ++ [{| path := p; content := default [] fileData |}])
                    (total + utf8Length (default [] fileData))%Z sv')
          as (more & H1 & H2 & H3 & H4 & H5 & H6).
        exists ({| path := p; content := default [] fileData |} :: more).
        split; [rewrite H1, <- app_assoc; reflexivity|].
        split; [rewrite H2; cbn [bytesOf foldr content]; fold (bytesOf more); lia|].
        split; [intros _; apply H3; exact Hroom|].
        split; [cbn [map path]; apply sublist_skip; exact H4|].
        split; [|exact H6].
        intros Hout. destruct (H5 Hout) as [Ht ->]. split; [exact Ht|reflexivity].
Qed.

(** X27 (snapshot limits).  For limits that are not negative, a snapshot
    holds at most [maxFiles] files, taken in order from the listed
    paths; its byte total is the sum of the UTF-8 lengths of the
    contents it holds and is at most [maxBytes]; and when it is not
    flagged as truncated it holds every listed file whose request was
    answered. *)
Theorem snapshot_within_limits (allPaths : list jsstring) (maxFiles maxBytes : Z)
    (sv : Server) :
  (0 <= maxFiles)%Z -> (0 <= maxBytes)%Z ->
  let snapshot := (collectFromPaths fetchFile allPaths maxFiles maxBytes sv).2 in
  (Z.of_nat (length (files snapshot)) <= maxFiles)%Z
  /\ totalBytes snapshot = bytesOf (files snapshot)
  /\ (totalBytes snapshot <= maxBytes)%Z
  /\ map path (files snapshot) `sublist_of` allPaths
  /\ totalFiles snapshot = Z.of_nat (length allPaths)
  /\ (truncated snapshot = false -> files snapshot = answered fetchFile allPaths sv).
Proof.
  intros Hfiles Hbytes. unfold collectFromPaths.
  rewrite slice_prefix by exact Hfiles.
  set (targetPaths := take (Z.to_nat maxFiles) allPaths).
  set (trunc0 := (Z.of_nat (length targetPaths) <? Z.of_nat (length allPaths))%Z).
  destruct (collectLoop_inv maxBytes targetPaths [] 0 trunc0 sv)
    as (more & H1 & H2 & H3 & H4 & H5 & H6).
  destruct (collectLoop fetchFile maxBytes targetPaths [] 0 trunc0 sv)
    as [sv' [[files' total'] trunc']].
  cbn [fst snd app] in *. cbn [files totalBytes truncated totalFiles].
  subst files' total'.
  split; [|split; [|split; [|split; [|split]]]].
  - apply sublist_length in H4. rewrite length_map in H4.
    unfold targetPaths in H4. rewrite length_take in H4. lia.
  - lia.
  - apply H3. exact Hbytes.
  - etransitivity; [exact H4|]. apply sublist_take.
  - reflexivity.
  - intros Hnot. destruct (H5 Hnot) as [Ht ->].
    unfold trunc0 in Ht. apply Z.ltb_ge in Ht.
    unfold targetPaths in *. rewrite length_take in Ht.
    rewrite take_ge by lia. reflexivity.
Qed.

End WithFetch.

End SnapshotFacts.

(** *** Run history of the generate page *)

Module RunHistoryFacts.
Import RunHistory RunHistorySpec.

Lemma pushRunHistory_facts (entry : jsstring) (prev : list jsstring) :
  NoDup prev ->
  NoDup (pushRunHistory entry prev)
  /\ length (pushRunHistory entry prev) <= 6
  /\ head (pushRunHistory entry prev) = Some entry
  /\ (forall item, item ∈ pushRunHistory entry prev -> item = entry \/ item ∈ prev).
Proof.
  intros Hnd. unfold pushRunHistory. rewrite slice_prefix by lia.
  change (Z.to_nat 6) with 6.
  assert (Hall : NoDup (entry :: filter (fun item => item <> entry) prev)).
  { constructor.
    - intros Hin. apply list_elem_of_filter in Hin as [Hne _]. contradiction.
    - apply NoDup_filter. exact Hnd. }
  split; [eapply sublist_NoDup; [exact Hall|apply sublist_take]|].
  split; [rewrite length_take; lia|]. split; [reflexivity|].
  intros item Hin. apply (subseteq_take 6) in Hin.
  apply elem_of_cons in Hin as [->|Hin]; [left; reflexivity|].
  right. apply list_elem_of_filter in Hin as [_ Hin]. exact Hin.
Qed.

(** What one event does to a history without repetition of at most 6
    entries. *)
Lemma step_facts (e : Event) (pg : Page) :
  NoDup (runHistory pg) -> length (runHistory pg) <= 6 ->
  NoDup (runHistory (step e pg))
  /\ length (runHistory (step e pg)) <= 6
  /\ (forall item, item ∈ runHistory (step e pg) ->
        item = entryOf e \/ item ∈ runHistory pg)
  /\ (if writes e pg then head (runHistory (step e pg)) = Some (entryOf e)
      else runHistory (step e pg) = runHistory pg).
Proof.
  intros Hnd Hlen.
  destruct e as [initialPrompt|nextPrompt isBusy|instruction];
    cbn [step entryOf writes].
  - unfold onMount. destruct (truthy initialPrompt); cbn [negb andb];
      [|repeat split; auto].
    destruct (hasStartedRef pg); cbn [negb]; [repeat split; auto|].
    cbn [runHistory]. split; [apply NoDup_singleton|]. split; [cbn; lia|].
    split; [|reflexivity].
    intros item Hin. apply list_elem_of_singleton in Hin. left. exact Hin.
  - unfold runPrompt. destruct (truthy (trim nextPrompt)); cbn [negb andb orb];
      [|repeat split; auto].
    destruct isBusy; cbn [negb]; [repeat split; auto|].
    cbn [runHistory].
    destruct (pushRunHistory_facts (trim nextPrompt) (runHistory pg) Hnd)
      as (H1 & H2 & H3 & H4).
    repeat split; assumption.
  - unfold onEditApplied. cbn [runHistory].
    destruct (pushRunHistory_facts instruction (runHistory pg) Hnd)
      as (H1 & H2 & H3 & H4).
    repeat split; assumption.
Qed.

(** X28 (run history).  The run history of the generate page is written
    by the mount effect, by [runPrompt] and after an applied edit.  After
    any sequence of these it holds at most 6 entries, none of them twice,
    each of them the entry of one of the events: the initial prompt, a
    prompt that was run, without its surrounding white space, or the
    instruction of an applied edit.  The next event either leaves the
    history as it is (a mount that is not the first or has no prompt, a
    blank prompt, a prompt while a generation is busy) or puts its entry
    first. *)
Theorem run_history_is_recent_and_distinct (events : list Event) :
  let pg := pageAfter events in
  NoDup (runHistory pg)
  /\ length (runHistory pg) <= 6
  /\ (forall item, item ∈ runHistory pg -> exists e, e ∈ events /\ item = entryOf e)
  /\ (forall e,
        if writes e pg then head (runHistory (step e pg)) = Some (entryOf e)
        else runHistory (step e pg) = runHistory pg).
Proof.
  cbn zeta.
  assert (Hinv : NoDup (runHistory (pageAfter events))
                 /\ length (runHistory (pageAfter events)) <= 6
                 /\ (forall item, item ∈ runHistory (pageAfter events) ->
                       exists e, e ∈ events /\ item = entryOf e)).
  { induction events as [|e events IH] using rev_ind.
    - cbn. split; [apply NoDup_nil_2|]. split; [lia|].
      intros item Hin. inversion Hin.
    - destruct IH as (Hnd & Hlen & Hsub).
      unfold pageAfter. rewrite foldl_app. cbn [foldl]. fold (pageAfter events).
      destruct (step_facts e (pageAfter events) Hnd Hlen) as (H1 & H2 & H3 & _).
      split; [exact H1|]. split; [exact H2|].
      intros item Hin. destruct (H3 item Hin) as [->|Hprev].
      + exists e. split; [|reflexivity].
        apply elem_of_app. right. apply list_elem_of_singleton. reflexivity.
      + destruct (Hsub item Hprev) as (e' & He' & ->).
        exists e'. split; [|reflexivity]. apply elem_of_app. left. exact He'. }
  destruct Hinv as (Hnd & Hlen & Hsub).
  split; [exact Hnd|]. split; [exact Hlen|]. split; [exact Hsub|].
  intros e. destruct (step_facts e (pageAfter events) Hnd Hlen) as (_ & _ & _ & H4).
  exact H4.
Qed.

End RunHistoryFacts.

(** *** The edit route only works below the project directory *)

Module CommandLogFacts.
Import Orchestrator NormalizerSpec PathSpec CommandLog ResolveFacts.

(** **** [dirname] of a normalized path *)

Lemma dropSlashes_plain (s : jsstring) :
  head s <> Some SLASH -> dropSlashes s = s.
Proof.
  destruct s as [|c s]; [reflexivity|]. cbn [head dropSlashes]. intros Hc.
  destruct (Ascii.eqb_spec c SLASH) as [->|_]; [contradiction|reflexivity].
Qed.

Lemma dropNonSlashes_none (a : jsstring) : SLASH ∉ a -> dropNonSlashes a = [].
Proof.
  induction a as [|c a IH]; intros Hno; [reflexivity|]. cbn [dropNonSlashes].
  destruct (Ascii.eqb_spec c SLASH) as [->|_]; [exfalso; apply Hno; left|].
  apply IH. intros Hin. apply Hno. right. exact Hin.
Qed.

Lemma dropNonSlashes_app (a b : jsstring) :
  SLASH ∉ a -> dropNonSlashes (a ++ SLASH :: b) = SLASH :: b.
Proof.
  induction a as [|c a IH]; intros Hno.
  - cbn [app dropNonSlashes]. rewrite Ascii.eqb_refl. reflexivity.
  - cbn [app dropNonSlashes].
    destruct (Ascii.eqb_spec c SLASH) as [->|_]; [exfalso; apply Hno; left|].
    apply IH. intros Hin. apply Hno. right. exact Hin.
Qed.

Lemma rev_no_slash (s : jsstring) : SLASH ∉ s -> SLASH ∉ rev s.
Proof. intros Hno Hin. apply Hno. apply list_elem_of_In, in_rev, list_elem_of_In. exact Hin. Qed.

Lemma head_no_slash (s : jsstring) : SLASH ∉ s -> head s <> Some SLASH.
Proof. destruct s as [|c s]; [discriminate|]. intros Hno [= ->]. apply Hno. left. Qed.

(** After the closing slash, if any, is dropped from the reversed path,
    what is left is the reversed path without it. *)
Lemma dropSlashes_closing (t body : jsstring) :
  (t = [] \/ t = [SLASH]) -> head body <> Some SLASH ->
  dropSlashes (rev t ++ body) = body.
Proof.
  intros [->| ->] Hb; cbn [rev app].
  - apply dropSlashes_plain. exact Hb.
  - cbn [dropSlashes]. rewrite Ascii.eqb_refl. apply dropSlashes_plain. exact Hb.
Qed.

Lemma dirname_single (seg t : jsstring) :
  plainSegment seg -> (t = [] \/ t = [SLASH]) -> dirname (seg ++ t) = str ".".
Proof.
  intros (Hne & _ & _ & Hns) Ht. destruct seg as [|c seg']; [contradiction|].
  cbn [app dirname].
  assert (Hc : c <> SLASH) by (intros ->; apply Hns; left).
  assert (Hns' : SLASH ∉ seg') by (intros Hin; apply Hns; right; exact Hin).
  destruct (Ascii.eqb_spec c SLASH) as [|_]; [contradiction|].
  rewrite rev_app_distr.
  rewrite dropSlashes_closing; [|exact Ht|apply head_no_slash, rev_no_slash, Hns'].
  rewrite dropNonSlashes_none by (apply rev_no_slash, Hns'). reflexivity.
Qed.

Lemma dirname_nested (front : list jsstring) (seg t : jsstring) :
  front <> [] -> Forall plainSegment front -> plainSegment seg ->
  (t = [] \/ t = [SLASH]) ->
  dirname (join [SLASH] (front ++ [seg]) ++ t) = join [SLASH] front.
Proof.
  intros Hfront Hplain (Hne & _ & _ & Hns) Ht.
  rewrite join_app by (assumption || discriminate). cbn [join].
  destruct (join_plain_shape front Hfront Hplain) as [Hj _].
  destruct (join [SLASH] front) as [|c j'] eqn:Ej; [contradiction|].
  assert (Hc : c <> SLASH).
  { destruct front as [|f front']; [contradiction|].
    apply Forall_cons in Hplain as [(Hf & _ & _ & Hfs) _].
    rewrite PathFacts.join_cons_form in Ej. destruct f as [|f0 f']; [contradiction|].
    cbn [app] in Ej. injection Ej as <- _. intros ->. apply Hfs. left. }
  cbn [app dirname].
  destruct (Ascii.eqb_spec c SLASH) as [|_]; [contradiction|]. cbn [andb].
  replace (j' ++ SLASH :: seg ++ t) with ((j' ++ SLASH :: seg) ++ t)
    by (rewrite <- app_assoc; reflexivity).
  rewrite rev_app_distr.
  rewrite rev_app_distr. cbn [rev]. rewrite <- !app_assoc. cbn [app].
  rewrite dropSlashes_closing; [|exact Ht|].
  2:{ destruct seg as [|s0 seg'] using rev_ind; [contradiction|].
      rewrite rev_app_distr. cbn [rev app head]. intros [= ->].
      apply Hns. apply elem_of_app. right. left. }
  rewrite dropNonSlashes_app by (apply rev_no_slash, Hns).
  rewrite length_rev.
  replace (c :: j' ++ SLASH :: seg ++ t) with ((c :: j') ++ SLASH :: seg ++ t) by reflexivity.
  replace (S (length j')) with (length (c :: j')) by reflexivity.
  apply take_app_length.
Qed.

(** **** Resolving paths made of plain segments *)

Lemma resolve_plain (rs ns : list jsstring) (t : jsstring) :
  rs <> [] -> Forall plainSegment rs ->
  ns <> [] -> Forall plainSegment ns -> (t = [] \/ t = [SLASH]) ->
  resolveProjectPath (absolutePath rs) (join [SLASH] ns ++ t)
  = Ok (absolutePath (rs ++ ns) ++ t).
Proof.
  intros Hrs Hplain Hns Hnplain Ht. unfold resolveProjectPath.
  pose proof (normalize_absolute rs [] Hrs Hplain (or_introl eq_refl)) as Hroot.
  rewrite app_nil_r in Hroot. rewrite Hroot.
  destruct (join_plain_shape ns Hns Hnplain) as [Hj _].
  assert (Hp : truthy (join [SLASH] ns ++ t) = true).
  { destruct (join [SLASH] ns); [contradiction|reflexivity]. }
  rewrite Hp.
  assert (Hcat : absolutePath rs ++ [SLASH] ++ join [SLASH] ns ++ t
                 = absolutePath (rs ++ ns) ++ t).
  { unfold absolutePath. rewrite join_app by assumption.
    cbn [app]. rewrite <- !app_assoc. reflexivity. }
  assert (Hjoin : PosixPath.join2 (absolutePath rs) (join [SLASH] ns ++ t)
                  = absolutePath (rs ++ ns) ++ t).
  { unfold PosixPath.join2. unfold absolutePath at 1.
    destruct (join [SLASH] ns ++ t) as [|c0 rest0] eqn:Ep; [discriminate|].
    rewrite <- Ep in Hcat |- *. fold (absolutePath rs). rewrite Hcat.
    apply normalize_absolute; [|apply Forall_app; split; assumption|exact Ht].
    destruct rs; [contradiction|discriminate]. }
  rewrite Hjoin.
  rewrite normalize_absolute;
    [|destruct rs; [contradiction|discriminate]
     |apply Forall_app; split; assumption|exact Ht].
  rewrite <- Hcat. rewrite (app_assoc (absolutePath rs)).
  rewrite startsWith_app_self. cbn [negb]. rewrite andb_false_r. reflexivity.
Qed.

(** **** The form of the paths of normalized edits *)

Lemma normalizeLoop_paths (l : list Candidate) (acc : list NormalizedEdit)
    (seen : gset jsstring) (out : list NormalizedEdit) :
  normalizeLoop l acc seen = Ok out ->
  Forall (fun e => normalizedPath (editPath e)) acc ->
  Forall (fun e => normalizedPath (editPath e)) out.
Proof.
  revert acc seen. induction l as [|c l IH]; intros acc seen Hrun Hacc.
  - cbn in Hrun. injection Hrun as <-. exact Hacc.
  - cbn [normalizeLoop] in Hrun.
    destruct (MAX_APPLY_EDITS <=? Z.of_nat (length acc))%Z.
    { injection Hrun as <-. exact Hacc. }
    destruct c as [|path content delete]; [discriminate|].
    destruct (negb (truthy _) || _); [exact (IH _ _ Hrun Hacc)|].
    destruct (normalizeRelativeSandboxPath _) as [p|message] eqn:Hnorm;
      [|exact (IH _ _ Hrun Hacc)].
    destruct (negb (truthy p) || bool_decide (p ∈ seen)) eqn:Hskip;
      [exact (IH _ _ Hrun Hacc)|].
    apply orb_false_elim in Hskip as [Hp _]. apply negb_false_iff in Hp.
    assert (Hform : normalizedPath p).
    { apply (normalized_form _ p Hnorm). intros ->. discriminate. }
    destruct (match delete with FTrue => true | _ => false end);
      (apply (IH _ _ Hrun); apply Forall_app; split;
       [exact Hacc|constructor; [exact Hform|constructor]]).
Qed.

(** **** Every command is sent for a path below the project *)

Section WithSandbox.

Context {Sandbox : Type}.
Variable executeCommand : Command -> Sandbox -> Sandbox * Exn CommandResult.
Variable rs : list jsstring.
Hypothesis rs_nonempty : rs <> [].
Hypothesis rs_plain : Forall plainSegment rs.

Local Abbreviation Logged := (Sandbox * list Command)%type.
Local Abbreviation run := (logged executeCommand).
Local Abbreviation root := (absolutePath rs).

Lemma keeps_ret {A} (a : A) : keeps (Sandbox := Sandbox) rs (ret a).
Proof. intros st Hst. exact Hst. Qed.

Lemma keeps_throw {A} (message : jsstring) :
  keeps (Sandbox := Sandbox) rs (throw (A := A) message).
Proof. intros st Hst. exact Hst. Qed.

Lemma keeps_bind {A B} (m : M (Sandbox := Logged) A) (k : A -> M (Sandbox := Logged) B) :
  keeps rs m -> (forall a, keeps rs (k a)) -> keeps rs (bind m k).
Proof.
  intros Hm Hk st Hst. unfold bind. specialize (Hm st Hst).
  destruct (m st) as [st' [a|message]]; [apply Hk; exact Hm|exact Hm].
Qed.

Lemma keeps_bind_ok {A B} (a : A) (k : A -> M (Sandbox := Logged) B) :
  keeps rs (k a) -> keeps rs (bind (lift (Ok a)) k).
Proof. intros Hk st Hst. exact (Hk st Hst). Qed.

Lemma keeps_tryCatch {A} (m : M (Sandbox := Logged) A)
    (handler : jsstring -> M (Sandbox := Logged) A) :
  keeps rs m -> (forall message, keeps rs (handler message)) ->
  keeps rs (tryCatch m handler).
Proof.
  intros Hm Hh st Hst. unfold tryCatch. specialize (Hm st Hst).
  destruct (m st) as [st' [a|message]]; [exact Hm|apply Hh; exact Hm].
Qed.

Lemma keeps_run (cmd : Command) : below rs (commandPath cmd) -> keeps rs (run cmd).
Proof.
  intros Hcmd st Hst. unfold logged.
  destruct (executeCommand cmd st.1) as [sb' outcome]. cbn [fst snd].
  apply Forall_app. split; [exact Hst|]. constructor; [exact Hcmd|constructor].
Qed.

Lemma below_resolved (ns : list jsstring) (t : jsstring) :
  ns <> [] -> Forall plainSegment ns -> (t = [] \/ t = [SLASH]) ->
  below rs (absolutePath (rs ++ ns) ++ t).
Proof. intros Hns Hplain Ht. exists ns, t. auto. Qed.

Lemma readProjectFile_keeps (p : jsstring) :
  normalizedPath p -> keeps rs (readProjectFile run root p).
Proof.
  intros (ns & t & Hns & Hplain & Ht & ->). unfold readProjectFile.
  rewrite (resolve_plain rs ns t rs_nonempty rs_plain Hns Hplain Ht).
  apply keeps_bind_ok. apply keeps_bind.
  - apply keeps_run. apply below_resolved; assumption.
  - intros result. destruct (negb _); apply keeps_ret.
Qed.

Lemma deleteProjectFile_keeps (p : jsstring) :
  normalizedPath p -> keeps rs (deleteProjectFile run root p).
Proof.
  intros (ns & t & Hns & Hplain & Ht & ->). unfold deleteProjectFile.
  rewrite (resolve_plain rs ns t rs_nonempty rs_plain Hns Hplain Ht).
  apply keeps_bind_ok. apply keeps_bind.
  - apply keeps_run. apply below_resolved; assumption.
  - intros result. destruct (negb _); [apply keeps_throw|apply keeps_ret].
Qed.

Lemma join_not_dot (front : list jsstring) :
  front <> [] -> Forall plainSegment front -> join [SLASH] front <> str ".".
Proof.
  intros Hne Hplain Heq.
  assert (Hns : Forall (fun q => SLASH ∉ q) front)
    by (eapply Forall_impl; [exact Hplain|]; intros ? (_ & _ & _ & ?); assumption).
  pose proof (PathFacts.split_on_join SLASH front Hne Hns) as Hsplit.
  rewrite Heq in Hsplit. cbn in Hsplit. subst front.
  apply Forall_cons in Hplain as [(_ & Hdot & _) _]. apply Hdot. reflexivity.
Qed.

Lemma writeProjectFile_keeps (p content : jsstring) :
  normalizedPath p -> keeps rs (writeProjectFile run root p content).
Proof.
  intros (ns & t & Hns & Hplain & Ht & ->). unfold writeProjectFile.
  rewrite (resolve_plain rs ns t rs_nonempty rs_plain Hns Hplain Ht).
  apply keeps_bind_ok.
  assert (Hwrite : keeps rs
            (bind (run (WriteFile (absolutePath (rs ++ ns) ++ t) content))
               (fun result =>
                  if negb (exitCode result =? 0)%Z
                  then throw (str "Failed to write " ++ join [SLASH] ns ++ t)
                  else ret tt))).
  { apply keeps_bind.
    - apply keeps_run. apply below_resolved; assumption.
    - intros result. destruct (negb _); [apply keeps_throw|apply keeps_ret]. }
  destruct (exists_last Hns) as (front & seg & ->).
  apply Forall_app in Hplain as [Hfront Hseg]. apply Forall_cons in Hseg as [Hseg _].
  destruct front as [|f front'].
  - cbn [app join]. rewrite (dirname_single seg t Hseg Ht).
    cbn [truthy andb]. rewrite bool_decide_true by reflexivity. cbn [negb andb].
    apply keeps_bind; [apply keeps_ret|]. intros _. exact Hwrite.
  - rewrite (dirname_nested (f :: front') seg t) by (assumption || discriminate).
    destruct (join_plain_shape (f :: front') ltac:(discriminate) Hfront) as [Hj _].
    assert (Htruthy : truthy (join [SLASH] (f :: front')) = true).
    { destruct (join [SLASH] (f :: front')); [contradiction|reflexivity]. }
    rewrite Htruthy.
    rewrite (bool_decide_false (join [SLASH] (f :: front') = str "."))
      by (apply join_not_dot; [discriminate|exact Hfront]).
    cbn [negb andb].
    apply keeps_bind; [|intros _; exact Hwrite].
    pose proof (resolve_plain rs (f :: front') [] rs_nonempty rs_plain
                  ltac:(discriminate) Hfront (or_introl eq_refl)) as Hdir.
    rewrite !app_nil_r in Hdir. rewrite Hdir.
    apply keeps_bind_ok. apply keeps_bind; [|intros _; apply keeps_ret].
    apply keeps_run. cbn [commandPath].
    exists (f :: front'), []. rewrite app_nil_r.
    split; [discriminate|]. split; [exact Hfront|]. split; [left|]; reflexivity.
Qed.

Lemma previewLoop_keeps (edits : list NormalizedEdit) (previews : list FileEditPreview)
    (effective : list NormalizedEdit) :
  Forall (fun e => normalizedPath (editPath e)) edits ->
  keeps rs (previewLoop run root edits previews effective).
Proof.
  intros Hall. revert previews effective.
  induction Hall as [|edit rest Hedit _ IH]; intros previews effective.
  - cbn [previewLoop]. apply keeps_ret.
  - cbn [previewLoop]. apply keeps_bind; [apply readProjectFile_keeps; exact Hedit|].
    intros previous.
    destruct (_ && bool_decide (previous = None)); [apply IH|].
    destruct (_ || _); apply IH.
Qed.

Lemma applyLoop_keeps (edits : list NormalizedEdit) (applied : list jsstring)
    (failed : list (jsstring * jsstring)) :
  Forall (fun e => normalizedPath (editPath e)) edits ->
  keeps rs (applyLoop run root edits applied failed).
Proof.
  intros Hall. revert applied failed.
  induction Hall as [|edit rest Hedit _ IH]; intros applied failed.
  - cbn [applyLoop]. apply keeps_ret.
  - cbn [applyLoop]. apply keeps_bind; [|intros outcome; apply IH].
    apply keeps_tryCatch; [|intros message; apply keeps_ret].
    apply keeps_bind; [|intros _; apply keeps_ret].
    destruct edit as [p|p c]; cbn [editPath] in Hedit.
    + apply deleteProjectFile_keeps. exact Hedit.
    + apply writeProjectFile_keeps. exact Hedit.
Qed.

Lemma previewLoop_effective (edits : list NormalizedEdit)
    (previews : list FileEditPreview) (effective : list NormalizedEdit)
    (st st' : Logged) (out : list FileEditPreview * list NormalizedEdit) :
  previewLoop run root edits previews effective st = (st', Ok out) ->
  Forall (fun e => normalizedPath (editPath e)) edits ->
  Forall (fun e => normalizedPath (editPath e)) effective ->
  Forall (fun e => normalizedPath (editPath e)) out.2.
Proof.
  intros Hrun Hall. revert previews effective st Hrun.
  induction Hall as [|edit rest Hedit _ IH]; intros previews effective st Hrun Heff.
  - cbn in Hrun. injection Hrun as _ <-. exact Heff.
  - cbn [previewLoop] in Hrun. unfold bind at 1 in Hrun.
    destruct (readProjectFile run root (editPath edit) st) as [st1 [previous|message]];
      [|discriminate].
    destruct (_ && bool_decide (previous = None)); [exact (IH _ _ _ Hrun Heff)|].
    destruct (_ || _); [|exact (IH _ _ _ Hrun Heff)].
    apply (IH _ _ _ Hrun). apply Forall_app. split; [exact Heff|].
    constructor; [exact Hedit|constructor].
Qed.

(** The recording executor changes nothing but the record. *)

Lemma mirrors_ret {A} (a : A) : mirrors (Sandbox := Sandbox) (ret a) (ret a).
Proof. intros st. reflexivity. Qed.

Lemma mirrors_throw {A} (message : jsstring) :
  mirrors (Sandbox := Sandbox) (throw (A := A) message) (throw message).
Proof. intros st. reflexivity. Qed.

Lemma mirrors_lift {A} (e : Exn A) : mirrors (Sandbox := Sandbox) (lift e) (lift e).
Proof. intros st. reflexivity. Qed.

Lemma mirrors_run (cmd : Command) : mirrors (run cmd) (executeCommand cmd).
Proof.
  intros st. unfold logged. destruct (executeCommand cmd st.1) as [sb' outcome].
  reflexivity.
Qed.

Lemma mirrors_bind {A B} (m' : M (Sandbox := Logged) A) (m : M (Sandbox := Sandbox) A)
    (k' : A -> M (Sandbox := Logged) B) (k : A -> M (Sandbox := Sandbox) B) :
  mirrors m' m -> (forall a, mirrors (k' a) (k a)) -> mirrors (bind m' k') (bind m k).
Proof.
  intros Hm Hk st. unfold bind. rewrite (Hm st).
  destruct (m' st) as [st' [a|message]]; cbn [fst snd]; [apply Hk|reflexivity].
Qed.

Lemma mirrors_tryCatch {A} (m' : M (Sandbox := Logged) A) (m : M (Sandbox := Sandbox) A)
    (h' : jsstring -> M (Sandbox := Logged) A) (h : jsstring -> M (Sandbox := Sandbox) A) :
  mirrors m' m -> (forall message, mirrors (h' message) (h message)) ->
  mirrors (tryCatch m' h') (tryCatch m h).
Proof.
  intros Hm Hh st. unfold tryCatch. rewrite (Hm st).
  destruct (m' st) as [st' [a|message]]; cbn [fst snd]; [reflexivity|apply Hh].
Qed.

Ltac mirror :=
  repeat first
    [ apply mirrors_ret | apply mirrors_throw | apply mirrors_lift | apply mirrors_run
    | apply mirrors_bind; [|intros ?]
    | apply mirrors_tryCatch; [|intros ?]
    | match goal with
      | |- mirrors (if ?c then _ else _) (if ?c then _ else _) => destruct c
      end ].

Lemma readProjectFile_mirrors (projectDir p : jsstring) :
  mirrors (readProjectFile run projectDir p) (readProjectFile executeCommand projectDir p).
Proof. unfold readProjectFile. mirror. Qed.

Lemma writeProjectFile_mirrors (projectDir p content : jsstring) :
  mirrors (writeProjectFile run projectDir p content)
    (writeProjectFile executeCommand projectDir p content).
Proof. unfold writeProjectFile. mirror. Qed.

Lemma deleteProjectFile_mirrors (projectDir p : jsstring) :
  mirrors (deleteProjectFile run projectDir p)
    (deleteProjectFile executeCommand projectDir p).
Proof. unfold deleteProjectFile. mirror. Qed.

Lemma previewLoop_mirrors (projectDir : jsstring) (edits : list NormalizedEdit)
    (previews : list FileEditPreview) (effective : list NormalizedEdit) :
  mirrors (previewLoop run projectDir edits previews effective)
    (previewLoop executeCommand projectDir edits previews effective).
Proof.
  revert previews effective. induction edits as [|edit rest IH]; intros previews effective.
  - cbn [previewLoop]. apply mirrors_ret.
  - cbn [previewLoop]. apply mirrors_bind; [apply readProjectFile_mirrors|].
    intros previous.
    destruct (_ && bool_decide (previous = None)); [apply IH|].
    destruct (_ || _); apply IH.
Qed.

Lemma applyLoop_mirrors (projectDir : jsstring) (edits : list NormalizedEdit)
    (applied : list jsstring) (failed : list (jsstring * jsstring)) :
  mirrors (applyLoop run projectDir edits applied failed)
    (applyLoop executeCommand projectDir edits applied failed).
Proof.
  revert applied failed. induction edits as [|edit rest IH]; intros applied failed.
  - cbn [applyLoop]. apply mirrors_ret.
  - cbn [applyLoop]. apply mirrors_bind; [|intros outcome; apply IH].
    apply mirrors_tryCatch; [|intros message; apply mirrors_ret].
    apply mirrors_bind; [|intros _; apply mirrors_ret].
    destruct edit; [apply deleteProjectFile_mirrors|apply writeProjectFile_mirrors].
Qed.

Lemma respond_mirrors (projectDir : jsstring) (mode : EditMode) (summary : jsstring)
    (notes contextFilePaths : list jsstring) (edits : list NormalizedEdit) (st : Logged) :
  respond executeCommand projectDir mode summary notes contextFilePaths edits st.1
  = ((respond run projectDir mode summary notes contextFilePaths edits st).1.1,
     (respond run projectDir mode summary notes contextFilePaths edits st).2).
Proof.
  assert (Htry : mirrors (respondTry run projectDir mode summary notes contextFilePaths edits)
                   (respondTry executeCommand projectDir mode summary notes
                      contextFilePaths edits)).
  { unfold respondTry. destruct (Nat.eqb (length edits) 0); [apply mirrors_ret|].
    apply mirrors_bind; [apply previewLoop_mirrors|]. intros pe.
    destruct (Nat.eqb (length pe.2) 0); [apply mirrors_ret|].
    destruct mode; [apply mirrors_ret|].
    apply mirrors_bind; [apply applyLoop_mirrors|]. intros af.
    destruct (Nat.eqb (length af.1) 0); apply mirrors_ret. }
  unfold respond. rewrite (Htry st).
  destruct (respondTry run projectDir mode summary notes contextFilePaths edits st)
    as [st' [response|message]]; reflexivity.
Qed.

(** X29 (the edit route works below the project directory).  For a
    project directory [/r1/.../rn] in normal form and the edits the
    normalizer returns for any candidate list, every command that the
    preview and apply loops of the route send to the sandbox, in either
    mode, reads, creates, writes or removes a path that is the project
    directory followed by one or more segments, none of them empty, [.]
    or [..].  The commands are those of the run itself: recording them
    changes neither the response nor the sandbox. *)
Theorem edit_route_works_below_project (candidates : list Candidate)
    (edits : list NormalizedEdit) (mode : EditMode) (summary : jsstring)
    (notes contextFilePaths : list jsstring) (sb : Sandbox) :
  normalizeCandidateEdits candidates = Ok edits ->
  let recorded := respond run root mode summary notes contextFilePaths edits (sb, []) in
  Forall (fun cmd => below rs (commandPath cmd)) recorded.1.2
  /\ respond executeCommand root mode summary notes contextFilePaths edits sb
     = (recorded.1.1, recorded.2).
Proof.
  intros Hnorm recorded. split; [|apply (respond_mirrors root _ _ _ _ _ (sb, []))].
  subst recorded.
  assert (Hedits : Forall (fun e => normalizedPath (editPath e)) edits).
  { apply (normalizeLoop_paths candidates [] ∅ edits Hnorm). constructor. }
  assert (Hstart : logBelow rs (sb, @nil Command)) by constructor.
  assert (Htry : keeps rs (respondTry run root mode summary notes contextFilePaths edits)).
  { unfold respondTry. destruct (Nat.eqb (length edits) 0); [apply keeps_ret|].
    intros st Hst. unfold bind at 1.
    pose proof (previewLoop_keeps edits [] [] Hedits st Hst) as Hpre.
    destruct (previewLoop run root edits [] [] st) as [st1 [pe|message]] eqn:Hrun;
      [|exact Hpre].
    pose proof (previewLoop_effective edits [] [] st st1 pe Hrun Hedits
                  ltac:(constructor)) as Heff.
    cbn [fst] in Hpre.
    destruct (Nat.eqb (length pe.2) 0); [exact Hpre|].
    destruct mode; [exact Hpre|].
    apply (keeps_bind (applyLoop run root pe.2 [] [])); [|intros af|exact Hpre].
    - apply applyLoop_keeps. exact Heff.
    - destruct (Nat.eqb (length af.1) 0); apply keeps_ret. }
  specialize (Htry (sb, []) Hstart). unfold respond.
  destruct (respondTry run root mode summary notes contextFilePaths edits (sb, []))
    as [st' [response|message]]; exact Htry.
Qed.

End WithSandbox.

End CommandLogFacts.

(** *** Examples *)

Module ExampleFacts.
Import Examples Orchestrator OrchestratorSpec NormalizerSpec.

(** C1, counterexample to the claim as stated: a candidate whose path has
    a [..] segment is kept, under the path the segment resolves to. *)
Lemma inner_dotdot_is_kept :
  str ".." ∈ split_on SLASH (str "a/../b")
  /\ normalizeCandidateEdits innerDotDot = Ok [ContentEdit (str "b") (str "x")].
Proof.
  split; [|by vm_compute].
  apply list_elem_of_In. vm_compute. right. left. reflexivity.
Qed.

(** A [null] element makes the normalizer throw. *)
Lemma null_candidate_throws :
  normalizeCandidateEdits [CNullish]
  = Throw (str "Cannot read properties of null (reading 'path')").
Proof. reflexivity. Qed.

Lemma normalizer_safety_witness :
  Forall (fun c => c <> CNullish) candidates
  /\ exists out,
       normalizeCandidateEdits candidates = Ok out
       /\ NoDup (map editPath out)
       /\ forall e, e ∈ out -> cleanPath (editPath e).
Proof.
  assert (H : Forall (fun c => c <> CNullish) candidates).
  { unfold candidates. repeat constructor; discriminate. }
  split; [exact H|].
  destruct (NormalizerFacts.normalizer_safety candidates H)
    as (out & Hrun & _ & Hclean & Hnodup & _).
  exists out. auto.
Defined.

Lemma candidates_normalized :
  normalizeCandidateEdits candidates
  = Ok [ContentEdit (str "src/app.ts") (str "one"); DeleteEdit (str "old.ts")].
Proof. by vm_compute. Qed.

(** C2, counterexample to the claim as stated: a later progress line that
    matches an earlier keyword group moves the stage backward. *)
Lemma stage_moves_backward :
  SessionSpec.stageTrace Stage.queued progressLines
  = [Stage.starting_preview; Stage.installing_deps]
  /\ ~ SessionSpec.nondecreasing
         (Stage.queued :: SessionSpec.stageTrace Stage.queued progressLines).
Proof.
  assert (H : SessionSpec.stageTrace Stage.queued progressLines
              = [Stage.starting_preview; Stage.installing_deps]) by (by vm_compute).
  split; [exact H|]. rewrite H. unfold SessionSpec.nondecreasing. intros Hs.
  apply Sorted_inv in Hs as [Hs _]. apply Sorted_inv in Hs as [_ Hrel].
  apply HdRel_inv in Hrel. unfold Stage.le in Hrel. simpl in Hrel. lia.
Qed.

Lemma stage_trace_witness :
  SessionSpec.nondecreasing (omap SessionSpec.matchedStage scriptLines)
  /\ SessionSpec.nondecreasing
       (Stage.queued :: SessionSpec.stageTrace Stage.queued scriptLines).
Proof.
  assert (H : SessionSpec.nondecreasing (omap SessionSpec.matchedStage scriptLines)).
  { unfold SessionSpec.nondecreasing.
    replace (omap SessionSpec.matchedStage scriptLines)
      with [Stage.creating_sandbox; Stage.generating_code; Stage.installing_deps;
            Stage.starting_preview; Stage.starting_preview] by (by vm_compute).
    repeat constructor; unfold Stage.le; simpl; lia. }
  split; [exact H|].
  by apply (SessionFacts.stage_trace_follows_matches scriptLines).
Defined.

(** C3, the decoder on a CRLF stream cut inside a CRLF pair: fed whole it
    yields the frames [a] and [b]; fed as the two chunks it yields the
    single frame [a], newline, [b]. *)
Theorem crlf_cut_changes_frames :
  concat crlfChunks = crlfStream
  /\ Sse.decode [crlfStream] = [str "a"; str "b"]
  /\ Sse.decode crlfChunks = [str "a" ++ [LF] ++ str "b"].
Proof. repeat split; by vm_compute. Qed.

(** C4, counterexample to the claim as stated: when the only write
    fails, the response is a bare error; the failure list the loop built
    is not part of it. *)
Lemma all_writes_fail_bare_error :
  failures (applyOutcomes testExecute testProjectDir
              [ContentEdit (str "a.ts") (str "y")] lockedSandbox)
  = [(str "a.ts", str "Failed to write a.ts")]
  /\ (respond testExecute testProjectDir apply [] [] []
        [ContentEdit (str "a.ts") (str "y")] lockedSandbox).2
     = ErrorResponse (str "No edits were applied") 500.
Proof. split; by vm_compute. Qed.

Lemma batch_apply_report_witness :
  let edits := [ContentEdit (str "a.ts") (str "y"); ContentEdit (str "b.ts") (str "z")] in
  previewLoop testExecute testProjectDir edits [] [] lockedSandbox
  = (lockedSandbox, Ok (previewsOf edits lockedSandbox, edits))
  /\ edits <> []
  /\ exists s sb',
       respond testExecute testProjectDir apply [] [] [] edits lockedSandbox
       = (sb', ApplyResponse s [] [str "b.ts"]
                 [(str "a.ts", str "Failed to write a.ts")]
                 (previewsOf edits lockedSandbox) []).
Proof.
  intros edits.
  assert (H1 : previewLoop testExecute testProjectDir edits [] [] lockedSandbox
               = (lockedSandbox, Ok (previewsOf edits lockedSandbox, edits)))
    by (by vm_compute).
  assert (H2 : edits <> []) by done.
  split; [exact H1|]. split; [exact H2|].
  destruct (OrchestratorFacts.batch_apply_report testExecute testProjectDir
              [] [] [] edits lockedSandbox lockedSandbox _ edits H1 H2)
    as (_ & _ & Hsome & _).
  destruct Hsome as (s & Hs); [by vm_compute|].
  exists s. eexists. rewrite Hs. f_equal.
Defined.

Lemma noop_edits_filtered_witness :
  readsAs testExecute testProjectDir (remoteOf emptySandbox) emptySandbox
    [DeleteEdit (str "old.ts")]
  /\ respond testExecute testProjectDir apply [] [] [] [DeleteEdit (str "old.ts")]
       emptySandbox
     = (emptySandbox,
        ErrorResponse (str "No file changes detected from instruction") 422).
Proof.
  assert (H : readsAs testExecute testProjectDir (remoteOf emptySandbox) emptySandbox
                [DeleteEdit (str "old.ts")]).
  { intros e He. apply list_elem_of_singleton in He as ->. by vm_compute. }
  split; [exact H|].
  destruct (OrchestratorFacts.noop_edits_filtered testExecute testProjectDir
              apply [] [] [] _ _ _ H) as (_ & _ & _ & Hresp).
  apply Hresp. by vm_compute.
Defined.

Lemma crlf_only_edit_witness :
  let edits := [ContentEdit (str "notes.txt") lfText] in
  let written := (testExecute (WriteFile (inProject "notes.txt") lfText) crlfSandbox).1 in
  crlfText <> lfText
  /\ Diff.normalizeLineEndings crlfText = Diff.normalizeLineEndings lfText
  /\ readsAs testExecute testProjectDir (remoteOf crlfSandbox) crlfSandbox edits
  /\ Diff.changed (Diff.createUnifiedDiff (str "notes.txt") crlfText lfText) = true
  /\ Diff.additions (Diff.createUnifiedDiff (str "notes.txt") crlfText lfText) = 0%Z
  /\ tree written !! inProject "notes.txt" = Some lfText
  /\ exists s,
       respond testExecute testProjectDir apply [] [] [] edits crlfSandbox
       = (written,
          ApplyResponse s [] [str "notes.txt"] [] (previewsOf edits crlfSandbox) []).
Proof.
  intros edits written.
  assert (H1 : crlfText <> lfText) by (by vm_compute).
  assert (H2 : Diff.normalizeLineEndings crlfText = Diff.normalizeLineEndings lfText)
    by reflexivity.
  assert (H3 : readsAs testExecute testProjectDir (remoteOf crlfSandbox) crlfSandbox edits).
  { intros e He. apply list_elem_of_singleton in He as ->. by vm_compute. }
  assert (H4 : remoteOf crlfSandbox (str "notes.txt") = Some crlfText) by (by vm_compute).
  assert (H5 : ContentEdit (str "notes.txt") lfText ∈ edits)
    by (by apply list_elem_of_singleton).
  split; [exact H1|]. split; [exact H2|]. split; [exact H3|].
  destruct (OrchestratorFacts.crlf_only_edit_is_applied testExecute testProjectDir
              (str "notes.txt") crlfText lfText H1 H2) as (Hdiff & _ & Happly).
  split; [by rewrite Hdiff|]. split; [by rewrite Hdiff|].
  split; [by vm_compute|].
  destruct (Happly (remoteOf crlfSandbox) crlfSandbox edits [] [] [] H3 H4 H5)
    as (previews & effective & before & after & fullPath & sb1 & applied1 & failed1
        & Hpv & Heff & _ & Hbefore & Hwrite).
  assert (Hc : previewLoop testExecute testProjectDir edits [] [] crlfSandbox
               = (crlfSandbox, Ok (previewsOf edits crlfSandbox, edits)))
    by (by vm_compute).
  rewrite Hc in Hpv. injection Hpv as <- <-.
  destruct before as [|first before'].
  - cbn [app] in Heff. injection Heff as <-.
    cbn [applyLoop] in Hbefore. unfold ret in Hbefore. injection Hbefore as <- <- <-.
    assert (Hw : writeProjectFile testExecute testProjectDir (str "notes.txt") lfText
                   crlfSandbox = (written, Ok tt)) by (by vm_compute).
    rewrite Hw in Hwrite.
    destruct Hwrite as (_ & sb3 & applied & failed & s & _ & Hafter & _ & Hresp).
    cbn [applyLoop app] in Hafter. unfold ret in Hafter. injection Hafter as <- <- <-.
    exists s. exact Hresp.
  - cbn [app] in Heff. injection Heff as _ Hrest. by destruct before'.
Defined.

Lemma stream_end_resolution_witness :
  let h1 := (Session.start (str "build a site") Session.initialHook).1 in
  let fed :=
    SessionSpec.feedChunks rejectAll doneChunks firstRun
      (Session.resumeFetch (Session.ResponseOk true) firstRun h1).1 in
  let r2 := {| Session.requestId := 1; Session.controller := 0;
               Session.receivedDone := true |} in
  let h3 := match SessionSpec.beforeStreamEnd rejectAll r2 fed.1 with
            | Some (h, _) => h
            | None => fed.1
            end in
  let final := Session.state (Session.resumeRead rejectAll Session.ReadDone r2 fed.1).1 in
  SessionSpec.beforeStreamEnd rejectAll r2 fed.1 = Some (h3, true)
  /\ Session.start (str "build a site") Session.initialHook
     = (h1, Session.AwaitFetch firstRun)
  /\ fed = (fed.1, Session.AwaitRead r2)
  /\ SessionSpec.reading (Session.state h3)
  /\ Session.lifecycle final = Lifecycle.failed
  /\ Session.error final = Some Session.MSG_NO_PREVIEW.
Proof.
  intros h1 fed r2 h3 final.
  assert (H1 : SessionSpec.beforeStreamEnd rejectAll r2 fed.1 = Some (h3, true))
    by (by vm_compute).
  assert (H2 : Session.start (str "build a site") Session.initialHook
               = (h1, Session.AwaitFetch firstRun)) by (by vm_compute).
  assert (H3 : fed = (fed.1, Session.AwaitRead r2)) by (by vm_compute).
  split; [exact H1|]. split; [exact H2|]. split; [exact H3|].
  destruct (SessionFacts.stream_end_resolution rejectAll r2 fed.1 h3 true H1)
    as (_ & Hresolved & _ & Hsingle).
  destruct (Hsingle (str "build a site") Session.initialHook h1 firstRun doneChunks H2 H3)
    as [Hreading _].
  split; [exact Hreading|].
  destruct Hresolved as [Hlife Herr]; [by vm_compute|by vm_compute|].
  fold final in Hlife, Herr. split.
  - rewrite Hlife. by vm_compute.
  - rewrite Herr; by vm_compute.
Defined.

(** C6, counterexample to the claim as stated.  The first run is
    reading when a second [start] supersedes it; a chunk the first run
    had already been sent then arrives and carries an error event, which
    the read loop records on the session of the second run; the request
    of the second run is answered, which sets the lifecycle to
    [streaming] and keeps the recorded error.  When the stream of the
    second run closes, the lifecycle is neither failed nor canceled and
    no preview URL is recorded, and the final state update keeps the
    recorded message: the session fails with the same error whether the
    [[DONE]] sentinel was received or not. *)
Lemma stale_error_hides_stream_end :
  let parse := Fixtures.knownFrames in
  let secondRun := {| Session.requestId := 2; Session.controller := 1;
                      Session.receivedDone := false |} in
  let secondRunDone := {| Session.requestId := 2; Session.controller := 1;
                          Session.receivedDone := true |} in
  let streaming :=
    SessionRuns.after parse
      [ SessionRuns.CallStart (str "first");
        SessionRuns.FetchSettles (Session.ResponseOk true) firstRun;
        SessionRuns.CallStart (str "second");
        SessionRuns.ReadSettles
          (Session.ReadChunk (str "data: {error}" ++ [LF; LF])) firstRun;
        SessionRuns.FetchSettles (Session.ResponseOk true) secondRun ] in
  let withDone :=
    Session.resumeRead parse (Session.ReadChunk (str "data: [DONE]" ++ [LF; LF]))
      secondRun streaming in
  let endedEarly := Session.resumeRead parse Session.ReadDone secondRun streaming in
  let finished := Session.resumeRead parse Session.ReadDone secondRunDone withDone.1 in
  (* the second run is reading, with the token of the hook *)
  Session.requestId secondRun = Session.requestIdRef streaming
  /\ withDone.2 = Session.AwaitRead secondRunDone
  (* both ends of the stream reach the final state update, one without
     and one with the sentinel, on a session that is neither failed nor
     canceled and has no preview URL *)
  /\ SessionSpec.beforeStreamEnd parse secondRun streaming = Some (streaming, false)
  /\ SessionSpec.beforeStreamEnd parse secondRunDone withDone.1 = Some (withDone.1, true)
  /\ Session.state withDone.1 = Session.state streaming
  /\ Session.lifecycle (Session.state streaming) = Lifecycle.streaming
  /\ Session.previewUrl (Session.state streaming) = None
  (* and both record the same message *)
  /\ Session.lifecycle (Session.state endedEarly.1) = Lifecycle.failed
  /\ Session.lifecycle (Session.state finished.1) = Lifecycle.failed
  /\ Session.error (Session.state endedEarly.1) = Some (str "Process exited with code 1")
  /\ Session.error (Session.state finished.1) = Some (str "Process exited with code 1").
Proof. repeat split; by vm_compute. Qed.

(** C7, the hook under two overlapping runs.  The first [start] is
    superseded by a second one while its request is still pending; the
    second [start] aborts the first request, whose [fetch] then rejects.
    The [catch] block of the first run does not look at the request
    token: it sets the lifecycle of the session, which by now belongs to
    the second run, to [canceled].  Likewise a chunk that the first run
    had already read is decoded and processed after the second [start]:
    here it raises the parse warning count of the new session. *)
Theorem superseded_run_still_writes :
  let h1 := (Session.start (str "first") Session.initialHook).1 in
  let secondRun := {| Session.requestId := 2; Session.controller := 1;
                      Session.receivedDone := false |} in
  (* the first request is pending when the second run starts *)
  (let h2 := (Session.start (str "second") h1).1 in
   Session.start (str "first") Session.initialHook = (h1, Session.AwaitFetch firstRun)
   /\ Session.start (str "second") h1 = (h2, Session.AwaitFetch secondRun)
   /\ Session.requestId firstRun <> Session.requestIdRef h2
   /\ Session.lifecycle (Session.state h2) = Lifecycle.requesting
   /\ Session.lifecycle
        (Session.state
           (Session.resumeFetch (Session.FetchRejected (Some (str "The user aborted a request.")))
              firstRun h2).1)
      = Lifecycle.canceled)
  (* the first run is reading when the second run starts *)
  /\ (let h1' := (Session.resumeFetch (Session.ResponseOk true) firstRun h1).1 in
      let h2 := (Session.start (str "second") h1').1 in
      let late := Session.resumeRead rejectAll
                    (Session.ReadChunk (str "data: x" ++ [LF; LF])) firstRun h2 in
      Session.start (str "second") h1' = (h2, Session.AwaitFetch secondRun)
      /\ Session.requestId firstRun <> Session.requestIdRef h2
      /\ Session.parseWarnings (Session.state h2) = 0%Z
      /\ Session.parseWarnings (Session.state late.1) = 1%Z
      /\ late.2 = Session.AwaitRead firstRun).
Proof. repeat split; by vm_compute. Qed.

End ExampleFacts.

(** *** More examples *)

Module FixtureFacts.
Import Examples Fixtures Orchestrator NormalizerSpec PathSpec.

Ltac no_such_char :=
  let Hin := fresh "Hin" in
  intros Hin; vm_compute in Hin;
  repeat (apply elem_of_cons in Hin as [Hin|Hin]; [discriminate|]);
  inversion Hin.

Lemma decode_chunking_witness :
  SseSpec.noCutCRLF plainChunks
  /\ Sse.decode plainChunks = Sse.decode [concat plainChunks].
Proof.
  assert (H : SseSpec.noCutCRLF plainChunks).
  { unfold SseSpec.noCutCRLF, plainChunks.
    repeat constructor; intros Hlast; vm_compute in Hlast; discriminate. }
  split; [exact H|]. exact (SseFacts.decode_chunking plainChunks H).
Defined.

Lemma payloads_onOneLine : Forall SseWriter.onOneLine payloads.
Proof.
  unfold payloads, SseWriter.onOneLine.
  repeat constructor; try no_such_char.
Qed.

Lemma written_frames_decode_witness :
  Forall SseWriter.onOneLine payloads
  /\ concat writtenChunks = SseWriter.written payloads
  /\ Sse.decode writtenChunks = payloads.
Proof.
  assert (H2 : concat writtenChunks = SseWriter.written payloads) by reflexivity.
  split; [exact payloads_onOneLine|]. split; [exact H2|].
  exact (SseRoundTrip.written_frames_decode payloads writtenChunks payloads_onOneLine H2).
Defined.

Lemma diff_counts_balance_witness :
  oldText <> newText
  /\ (Diff.additions (Diff.createUnifiedDiff (str "a.ts") oldText newText)
      - Diff.deletions (Diff.createUnifiedDiff (str "a.ts") oldText newText)
      = 5 - 4)%Z.
Proof.
  assert (H : oldText <> newText) by (vm_compute; discriminate).
  split; [exact H|].
  destruct (DiffRegion.diff_counts_balance (str "a.ts") oldText newText H) as [Hd _].
  rewrite Hd. reflexivity.
Defined.

Lemma changed_region_is_tight_witness :
  Diff.removedLines oldLines 1 2 = [str "b"; str "c"]
  /\ Diff.addedLines newLines 1 3 = [str "x"; str "y"; str "z"]
  /\ head [str "b"; str "c"] <> head [str "x"; str "y"; str "z"]
  /\ last [str "b"; str "c"] <> last [str "x"; str "y"; str "z"].
Proof.
  split; [reflexivity|]. split; [reflexivity|].
  apply (DiffRegion.changed_region_is_tight oldLines newLines);
    vm_compute; discriminate.
Defined.

Lemma window_quota_witness :
  let all := {| RateLimitSpec.key := editKey; RateLimitSpec.options := twoPerMinute;
                RateLimitSpec.now := 1000 |} :: laterCalls in
  RateLimitSpec.live 1000 ∅ editKey = None
  /\ map RateLimit.limited
       (RateLimitSpec.answersFor editKey all (RateLimitSpec.serve all ∅).2)
     = [false; false; true].
Proof.
  intros all.
  assert (H1 : (1 <= RateLimit.limit twoPerMinute)%Z) by (vm_compute; discriminate).
  assert (H2 : RateLimitSpec.live 1000 ∅ editKey = None) by reflexivity.
  assert (H3 : Forall (fun call =>
                         (RateLimitSpec.now call < 1000 + RateLimit.windowMs twoPerMinute)%Z
                         /\ (RateLimitSpec.key call = editKey
                             -> RateLimitSpec.options call = twoPerMinute)) laterCalls).
  { unfold laterCalls. repeat constructor; vm_compute; reflexivity. }
  split; [exact H2|].
  unfold all.
  rewrite (RateLimitFacts.window_quota editKey twoPerMinute 1000 laterCalls ∅ H1 H2 H3).
  reflexivity.
Defined.

Lemma context_budget_witness :
  let picked := [ {| EditContext.path := str "notes.txt"; EditContext.content := crlfText |} ] in
  EditContext.contextLoop testExecute testProjectDir
    (EditContext.selectPaths requested []) [] 0 crlfSandbox
  = (crlfSandbox, Ok picked)
  /\ (EditContextSpec.totalChars picked <= EditContext.MAX_CONTEXT_CHARS)%Z
  /\ NoDup (map EditContext.path picked).
Proof.
  intros picked.
  assert (H : EditContext.contextLoop testExecute testProjectDir
                (EditContext.selectPaths requested []) [] 0 crlfSandbox
              = (crlfSandbox, Ok picked)) by (vm_compute; reflexivity).
  split; [exact H|].
  destruct (EditContextFacts.context_budget testExecute testProjectDir
              requested [] crlfSandbox crlfSandbox picked H) as (H1 & _ & _ & H4 & _).
  split; assumption.
Defined.

Lemma projectSegments_plain : Forall plainSegment projectSegments.
Proof.
  unfold projectSegments, plainSegment.
  repeat constructor; try discriminate; no_such_char.
Qed.

Lemma accepted_paths_resolve_inside_witness :
  projectSegments <> []
  /\ Forall plainSegment projectSegments
  /\ normalizeRelativeSandboxPath (str "./src//app.ts") = Ok (str "src/app.ts")
  /\ resolveProjectPath (absolutePath projectSegments) (str "src/app.ts")
     = Ok (str "/home/daytona/website-project/src/app.ts").
Proof.
  assert (H1 : projectSegments <> []) by discriminate.
  assert (H3 : normalizeRelativeSandboxPath (str "./src//app.ts") = Ok (str "src/app.ts"))
    by (vm_compute; reflexivity).
  split; [exact H1|]. split; [exact projectSegments_plain|]. split; [exact H3|].
  destruct (ResolveFacts.accepted_paths_resolve_inside projectSegments
              (str "./src//app.ts") (str "src/app.ts") H1 projectSegments_plain H3)
    as (fullPath & Hres & -> & _).
  rewrite Hres. reflexivity.
Defined.

Lemma refused_paths_run_no_command_witness :
  normalizeRelativeSandboxPath (str "../secret") = Throw (str "Path traversal is not allowed")
  /\ FilesRoute.DELETE treeExecute (Ok (Some (absolutePath projectSegments)))
       (Some (str "../secret")) oneFileTree
     = (oneFileTree, FilesRoute.JsonError (str "Path traversal is not allowed") 400).
Proof.
  assert (H : normalizeRelativeSandboxPath (str "../secret")
              = Throw (str "Path traversal is not allowed")) by (vm_compute; reflexivity).
  split; [exact H|].
  destruct (FilesRouteFacts.refused_paths_run_no_command treeExecute
              (Ok (Some (absolutePath projectSegments))) (str "../secret")
              (str "Path traversal is not allowed") oneFileTree H) as (_ & Hdel & _).
  exact Hdel.
Defined.

Lemma delete_removes_only_inside_witness :
  projectSegments <> []
  /\ Forall plainSegment projectSegments
  /\ ((exists message,
          FilesRoute.DELETE treeExecute (Ok (Some (absolutePath projectSegments)))
            (Some (str "a/..")) oneFileTree
          = (oneFileTree, FilesRoute.JsonError message 400))
      \/ (exists p,
            p <> [] /\ cleanPath p
            /\ FilesRoute.DELETE treeExecute (Ok (Some (absolutePath projectSegments)))
                 (Some (str "a/..")) oneFileTree
               = ((treeExecute
                     (FilesRoute.RemoveTree (absolutePath projectSegments ++ [SLASH] ++ p))
                     oneFileTree).1,
                  FilesRouteSpec.removalAnswer p
                    (treeExecute
                       (FilesRoute.RemoveTree (absolutePath projectSegments ++ [SLASH] ++ p))
                       oneFileTree).2))).
Proof.
  assert (H1 : projectSegments <> []) by discriminate.
  split; [exact H1|]. split; [exact projectSegments_plain|].
  exact (FilesRouteFacts.delete_removes_only_inside treeExecute projectSegments
           (Some (str "a/..")) oneFileTree H1 projectSegments_plain).
Defined.

Lemma retry_restarts_last_prompt_witness :
  truthy (trim (str " build a site ")) = true
  /\ Session.retry (Session.start (str " build a site ") Session.initialHook).1
     = Session.start (str " build a site ")
         (Session.start (str " build a site ") Session.initialHook).1.
Proof.
  assert (H : truthy (trim (str " build a site ")) = true) by reflexivity.
  split; [exact H|].
  exact (SessionRunFacts.retry_restarts_last_prompt (str " build a site ")
           Session.initialHook H).
Defined.

Lemma superseded_response_is_dropped_witness :
  let h1 := (Session.start (str "first") Session.initialHook).1 in
  truthy (trim (str "second")) = true
  /\ (Session.requestId firstRun <= Session.requestIdRef h1)%Z
  /\ Session.controller firstRun < Session.nextController h1
  /\ Session.resumeFetch (Session.ResponseOk true) firstRun
       (Session.start (str "second") h1).1
     = ((Session.start (str "second") h1).1, Session.Returned).
Proof.
  intros h1.
  assert (H1 : truthy (trim (str "second")) = true) by reflexivity.
  assert (H2 : (Session.requestId firstRun <= Session.requestIdRef h1)%Z)
    by (vm_compute; discriminate).
  assert (H3 : Session.controller firstRun < Session.nextController h1)
    by (vm_compute; lia).
  assert (H4 : forall message,
             Session.ResponseOk true <> Session.FetchRejected message) by discriminate.
  split; [exact H1|]. split; [exact H2|]. split; [exact H3|].
  exact (SessionRunFacts.superseded_response_is_dropped (str "second") h1 firstRun
           (Session.ResponseOk true) H1 H2 H3 H4).
Defined.

Lemma canceled_run_ends_canceled_witness :
  truthy (trim (str "build a site")) = true
  /\ exists r,
       (Session.start (str "build a site") Session.initialHook).2 = Session.AwaitFetch r
       /\ Session.lifecycle
            (Session.state
               (Session.resumeFetch
                  (Session.FetchRejected (Some (str "The user aborted a request."))) r
                  (Session.cancel
                     (Session.start (str "build a site") Session.initialHook).1)).1)
          = Lifecycle.canceled.
Proof.
  assert (H : truthy (trim (str "build a site")) = true) by reflexivity.
  split; [exact H|].
  destruct (SessionRunFacts.canceled_run_ends_canceled (str "build a site")
              Session.initialHook (Some (str "The user aborted a request.")) H)
    as (r & Hr & Hlife & _ & _ & Hstep & _).
  exists r. split; [exact Hr|]. rewrite Hstep. exact Hlife.
Defined.

Lemma payloads_no_error :
  Forall (fun payload => SessionRuns.isErrorEvent knownFrames payload = false) payloads.
Proof. unfold payloads. repeat constructor. Qed.

Lemma payloads_announce :
  Exists (fun payload => SessionRuns.announcesPreview knownFrames payload = true) payloads.
Proof. unfold payloads. apply Exists_cons_tl, Exists_cons_hd. reflexivity. Qed.

Lemma finished_generation_is_ready_witness :
  truthy (trim (str "build a site")) = true
  /\ concat writtenChunks = SseWriter.written payloads
  /\ exists r h3 r3,
       (Session.start (str "build a site") Session.initialHook).2 = Session.AwaitFetch r
       /\ SessionSpec.feedChunks knownFrames writtenChunks r
            (Session.resumeFetch (Session.ResponseOk true) r
               (Session.start (str "build a site") Session.initialHook).1).1
          = (h3, Session.AwaitRead r3)
       /\ Session.lifecycle
            (Session.state (Session.resumeRead knownFrames Session.ReadDone r3 h3).1)
          = Lifecycle.ready.
Proof.
  assert (H1 : truthy (trim (str "build a site")) = true) by reflexivity.
  assert (H2 : concat writtenChunks = SseWriter.written payloads) by reflexivity.
  split; [exact H1|]. split; [exact H2|].
  destruct (SessionRunFacts.finished_generation_is_ready knownFrames (str "build a site")
              Session.initialHook payloads writtenChunks H1 payloads_onOneLine H2
              payloads_no_error payloads_announce)
    as (r & h3 & r3 & Hr & Hfeed & Hlife & _).
  exists r, h3, r3. split; [exact Hr|]. split; [exact Hfeed|exact Hlife].
Defined.

Lemma error_event_ends_the_run_witness :
  str "{error}" <> str "[DONE]"
  /\ knownFrames (str "{error}") = Session.PValue true errorEvent
  /\ Session.type errorEvent = Some (str "error")
  /\ Session.processFrames knownFrames [str "{error}"; str "{complete}"]
       Session.initialHook false
     = Session.processFrames knownFrames [str "{error}"] Session.initialHook false.
Proof.
  assert (H1 : str "{error}" <> str "[DONE]") by discriminate.
  assert (H2 : knownFrames (str "{error}") = Session.PValue true errorEvent) by reflexivity.
  assert (H3 : Session.type errorEvent = Some (str "error")) by reflexivity.
  split; [exact H1|]. split; [exact H2|]. split; [exact H3|].
  destruct (SessionRunFacts.error_event_ends_the_run knownFrames (str "{error}")
              [str "{complete}"] errorEvent Session.initialHook false H1 H2 H3)
    as (Hsame & _).
  exact Hsame.
Defined.

Lemma persist_is_per_sandbox_witness :
  truthy (str "sb-1") = true
  /\ Checkpoints.loadSandboxCheckpoints (str "sb-1")
       (Checkpoints.persistSandboxCheckpoints (str "sb-1") [someCheckpoint] emptyStorage)
     = [someCheckpoint]
  /\ Checkpoints.loadSandboxCheckpoints (str "sb-2")
       (Checkpoints.persistSandboxCheckpoints (str "sb-1") [someCheckpoint] emptyStorage)
     = [].
Proof.
  assert (H : truthy (str "sb-1") = true) by reflexivity.
  split; [exact H|].
  destruct (SnapshotFacts.persist_is_per_sandbox (str "sb-1") (str "sb-2")
              [someCheckpoint] emptyStorage H) as [Hok _].
  destruct (Hok eq_refl) as [Hown Hother].
  split; [rewrite Hown; reflexivity|].
  rewrite Hother by discriminate. reflexivity.
Defined.

Lemma snapshot_within_limits_witness :
  (0 <= 120)%Z /\ (0 <= 2000000)%Z
  /\ map Checkpoints.path
       (Snapshot.files (Snapshot.collectFromPaths echoFetch listedPaths 120 2000000 0).2)
     `sublist_of` listedPaths
  /\ Snapshot.totalBytes (Snapshot.collectFromPaths echoFetch listedPaths 120 2000000 0).2
     = 8%Z.
Proof.
  assert (H1 : (0 <= 120)%Z) by lia.
  assert (H2 : (0 <= 2000000)%Z) by lia.
  split; [exact H1|]. split; [exact H2|].
  destruct (SnapshotFacts.snapshot_within_limits echoFetch listedPaths 120 2000000 0 H1 H2)
    as (_ & Hbytes & _ & Hsub & _).
  split; [exact Hsub|]. rewrite Hbytes. reflexivity.
Defined.

Lemma edit_route_works_below_project_witness :
  projectSegments <> []
  /\ Forall plainSegment projectSegments
  /\ normalizeCandidateEdits candidates
     = Ok [ContentEdit (str "src/app.ts") (str "one"); DeleteEdit (str "old.ts")]
  /\ Forall (fun cmd => below projectSegments (CommandLog.commandPath cmd))
       (respond (CommandLog.logged testExecute) (absolutePath projectSegments) apply [] [] []
          [ContentEdit (str "src/app.ts") (str "one"); DeleteEdit (str "old.ts")]
          (emptySandbox, [])).1.2.
Proof.
  assert (H1 : projectSegments <> []) by discriminate.
  assert (H3 : normalizeCandidateEdits candidates
               = Ok [ContentEdit (str "src/app.ts") (str "one"); DeleteEdit (str "old.ts")])
    by (vm_compute; reflexivity).
  split; [exact H1|]. split; [exact projectSegments_plain|]. split; [exact H3|].
  destruct (CommandLogFacts.edit_route_works_below_project testExecute projectSegments
              H1 projectSegments_plain candidates _ apply [] [] [] emptySandbox H3)
    as [Hlog _].
  exact Hlog.
Defined.

End FixtureFacts.
